(** * mini-tq core: canonical query-key serialisation and batched notification

    A shallow embedding of [packages/core/src/hash.ts] (module [Hash]) and
    of [packages/core/src/subscribable.ts] (module [Subscribable]), with the
    properties of the two components stated and proved over the embedding. *)

From stdpp Require Import gmap strings list sorting pretty.
From Stdlib Require Import Ascii String.

Local Open Scope string_scope.
Local Open Scope Z_scope.

(** ** JavaScript built-ins used by both files *)

Module JS.

(** A JavaScript string is the sequence of its code units; the embedding
    keeps one code unit per [ascii] (code units 0 to 255).  The relational
    operators of the language compare strings code unit by code unit, which
    is [String.compare]. *)
Definition dquote : string := String "034"%char EmptyString.
Definition backslash : string := String "092"%char EmptyString.

Definition lt (a b : string) : bool := String.ltb a b.

(** [Array.prototype.join] on an array of strings. *)
Definition join (sep : string) (l : list string) : string := String.concat sep l.

(** [Array.prototype.sort(cmp)].  The language requires the sort to be
    stable, so its result is the one of any stable sort; an insertion sort
    that places an element before the first one it does not follow. *)
Fixpoint sort_insert {A} (cmp : A → A → Z) (x : A) (l : list A) : list A :=
  match l with
  | [] => [x]
  | y :: l' => if bool_decide (cmp x y ≤ 0) then x :: l else y :: sort_insert cmp x l'
  end.

Definition sort {A} (cmp : A → A → Z) (l : list A) : list A :=
  foldr (sort_insert cmp) [] l.

(** The comparison [sort()] uses when it gets no comparator (the elements
    are strings already). *)
Definition SortCompare (a b : string) : Z :=
  if lt a b then -1 else if lt b a then 1 else 0.

(** The order a comparator of the shape [x < y ? -1 : x > y ? 1 : 0] on the
    keys [key x] sorts by. *)
Definition key_le {A} (key : A → string) (x y : A) : Prop :=
  String.leb (key x) (key y) = true.

(** [JSON.stringify] on a string: QuoteJSONString. *)
Definition hex_digit (n : N) : ascii :=
  default "0"%char (list_ascii_of_string "0123456789abcdef" !! N.to_nat n).

Definition quote_code_unit (c : ascii) : string :=
  let n := N_of_ascii c in
  if (n =? 8)%N then backslash +:+ "b"
  else if (n =? 9)%N then backslash +:+ "t"
  else if (n =? 10)%N then backslash +:+ "n"
  else if (n =? 12)%N then backslash +:+ "f"
  else if (n =? 13)%N then backslash +:+ "r"
  else if (n =? 34)%N then backslash +:+ dquote
  else if (n =? 92)%N then backslash +:+ backslash
  else if (n <? 32)%N then
    backslash +:+ "u00" +:+
    String (hex_digit (n / 16)) (String (hex_digit (n mod 16)) EmptyString)
  else String c EmptyString.

Definition JSON_stringify (s : string) : string :=
  dquote +:+ String.concat EmptyString (quote_code_unit <$> list_ascii_of_string s) +:+ dquote.

(** Reading back the first code unit of a quoted string: the inverse of
    [quote_code_unit] on what it produces (the escapes QuoteJSONString
    emits, as [JSON.parse] reads them). *)
Definition hex_value (c : ascii) : N :=
  let n := N_of_ascii c in
  if (n <? 58)%N then (n - 48)%N else (n - 87)%N.

Definition unquote_code_unit (s : string) : option (ascii * string) :=
  match s with
  | EmptyString => None
  | String c r =>
      if negb (N_of_ascii c =? 92)%N then Some (c, r) else
      match r with
      | String e r' =>
          let n := N_of_ascii e in
          if (n =? 98)%N then Some ("008"%char, r')
          else if (n =? 116)%N then Some ("009"%char, r')
          else if (n =? 110)%N then Some ("010"%char, r')
          else if (n =? 102)%N then Some ("012"%char, r')
          else if (n =? 114)%N then Some ("013"%char, r')
          else if (n =? 34)%N then Some ("034"%char, r')
          else if (n =? 92)%N then Some ("092"%char, r')
          else if (n =? 117)%N then
            match r' with
            | String _ (String _ (String x (String y r''))) =>
                Some (ascii_of_N (16 * hex_value x + hex_value y), r'')
            | _ => None
            end
          else None
      | EmptyString => None
      end
  end.

End JS.

(** ** hash.ts *)

Module Hash.

(** *** Values

    Objects have identity and may refer to themselves, so object values are
    references into a heap. *)

Definition addr := nat.

(** Numbers: [NaN], the infinities and the finite doubles.  [Int z] is the
    double of the integer [z] where [z] is a safe integer (of magnitude at
    most 2^53 - 1), which the runtime prints in plain decimal digits; it
    stands for no double otherwise.  [Double digits] is any other finite
    double (a fraction, an integer from 2^53 on, the negative zero),
    carried with the string [Number::toString] gives it, such as [0.5],
    [1e+21] or [0]: as for a date, the digits are the runtime's.  Nothing
    below depends on the digits of a number. *)
Inductive number :=
  | NaN
  | Infinity (negative : bool)
  | Int (z : Z)
  | Double (digits : string).

Definition Number_isNaN (n : number) : bool :=
  match n with NaN => true | _ => false end.

Definition Number_toString (n : number) : string :=
  match n with
  | NaN => "NaN"
  | Infinity false => "Infinity"
  | Infinity true => "-Infinity"
  | Int z => pretty z
  | Double digits => digits
  end.

(** A symbol is an identity together with its optional description. *)
Record symbol := Symbol { sym_id : nat; description : option string }.

Inductive value :=
  | Null
  | Undefined
  | Str (s : string)
  | Num (n : number)
  | Bool (b : bool)
  | BigInt (z : Z)
  | Sym (s : symbol)
  | Fn (id : nat) (name : string)
  | Ref (a : addr).

Inductive propkey :=
  | KStr (s : string)
  | KSym (s : symbol).

(** The objects the serialiser tells apart, one constructor for each of its
    tests ([instanceof Date], [instanceof RegExp], [isTypedArray],
    [Array.isArray], [instanceof Map], [instanceof Set], [isPlainObject])
    and one for the objects that fail them all.  A [DateObj] carries [None] when
    its time value is NaN and its [toISOString()] otherwise; a [RegExpObj]
    carries its [toString()]; a [TypedArray] its [constructor.name] (if any)
    and its elements; an [Array] its slots, [None] being a hole; a [MapObj]
    and a [SetObj] their entries in insertion order; a [PlainObject] its own
    enumerable string-keyed and own symbol-keyed properties in property
    order; [Exotic] is every other object, with its
    [Object.prototype.toString] tag. *)
Inductive object :=
  | DateObj (iso : option string)
  | RegExpObj (repr : string)
  | TypedArray (ctor : option string) (elems : list number)
  | Array (elems : list (option value))
  | MapObj (entries : list (value * value))
  | SetObj (items : list value)
  | PlainObject (props : list (propkey * value))
  | Exotic (tag : string).

Abbreviation heap := (gmap addr object).

#[global] Instance number_eq_dec : EqDecision number.
Proof. solve_decision. Defined.
#[global] Instance symbol_eq_dec : EqDecision symbol.
Proof. solve_decision. Defined.
#[global] Instance value_eq_dec : EqDecision value.
Proof. solve_decision. Defined.
#[global] Instance propkey_eq_dec : EqDecision propkey.
Proof. solve_decision. Defined.

(** *** Errors and the serialiser's effects

    [stableStringify] mutates the set [seen] it is given and may throw: a
    computation takes the current [seen] and either returns a value with the
    updated set or throws.  [Stuck] is the embedding's own: the recursion
    ran out of fuel or followed a reference that is not in the heap. *)

Inductive error := TypeError (msg : string).

Inductive res (A : Type) :=
  | Val (a : A) (seen : gset addr)
  | Throw (e : error)
  | Stuck.
Arguments Val {A} a seen.
Arguments Throw {A} e.
Arguments Stuck {A}.

Definition M (A : Type) : Type := gset addr → res A.

Definition ret {A} (a : A) : M A := λ seen, Val a seen.
Definition throw {A} (e : error) : M A := λ _, Throw e.
Definition stuck {A} : M A := λ _, Stuck.
Definition bind {A B} (m : M A) (k : A → M B) : M B := λ seen,
  match m seen with
  | Val a seen' => k a seen'
  | Throw e => Throw e
  | Stuck => Stuck
  end.

Notation "x <- m ;; k" := (bind m (λ x, k))
  (at level 100, m at next level, right associativity).
Notation "m ;;; k" := (bind m (λ _, k))
  (at level 100, right associativity).

Definition seen_has (a : addr) : M bool := λ seen, Val (bool_decide (a ∈ seen)) seen.
Definition seen_add (a : addr) : M unit := λ seen, Val () ({[a]} ∪ seen).
Definition seen_delete (a : addr) : M unit := λ seen, Val () (seen ∖ {[a]}).

(** [Array.prototype.map] with an effectful callback, left to right. *)
Fixpoint mapM {A B} (f : A → M B) (l : list A) : M (list B) :=
  match l with
  | [] => ret []
  | x :: l' => y <- f x ;; ys <- mapM f l' ;; ret (y :: ys)
  end.

(** *** ownKeysSorted *)

Definition Object_keys (obj : list (propkey * value)) : list string :=
  omap (λ p, match p.1 with KStr s => Some s | KSym _ => None end) obj.

Definition Object_getOwnPropertySymbols (obj : list (propkey * value)) : list symbol :=
  omap (λ p, match p.1 with KSym s => Some s | KStr _ => None end) obj.

(** [description ?? ''] *)
Definition description_or_empty (s : symbol) : string :=
  default EmptyString (description s).

Definition ownKeysSorted (obj : list (propkey * value)) : list propkey :=
  let stringKeys := JS.sort JS.SortCompare (Object_keys obj) in
  let symbolKeys :=
    JS.sort (λ a b,
      let da := description_or_empty a in
      let db := description_or_empty b in
      if JS.lt da db then -1 else if JS.lt db da then 1 else 0)
      (Object_getOwnPropertySymbols obj) in
  (KStr <$> stringKeys) ++ (KSym <$> symbolKeys).

(** Property read [obj[k]]. *)
Fixpoint get (obj : list (propkey * value)) (k : propkey) : value :=
  match obj with
  | [] => Undefined
  | p :: obj' => if bool_decide (p.1 = k) then p.2 else get obj' k
  end.

(** *** stableStringify *)

Definition circular_array : error := TypeError "stableStringify: circular array reference".
Definition circular_Map : error := TypeError "stableStringify: circular Map reference".
Definition circular_Set : error := TypeError "stableStringify: circular Set reference".
Definition circular_object : error := TypeError "stableStringify: circular object reference".

Definition keyLabel (k : propkey) : string :=
  match k with
  | KStr s => "key:" +:+ JS.JSON_stringify s
  | KSym s => "keysym:" +:+ description_or_empty s
  end.

Fixpoint stringify (fuel : nat) (h : heap) (value : value) : M string :=
  match fuel with
  | O => stuck
  | S fuel =>
    match value with
    | Null => ret "null"
    | Str s => ret ("str:" +:+ JS.JSON_stringify s)
    | Num n => ret (if Number_isNaN n then "num:NaN" else "num:" +:+ Number_toString n)
    | Bool b => ret ("bool:" +:+ (if b then "1" else "0"))
    | BigInt z => ret ("bigint:" +:+ pretty z)
    | Undefined => ret "undef"
    | Sym s => ret ("sym:" +:+ description_or_empty s)
    | Fn _ name =>
        let name := if bool_decide (name = EmptyString) then "anonymous" else name in
        ret ("fn:" +:+ name)
    | Ref a =>
      match h !! a with
      | None => stuck
      | Some (DateObj iso) =>
          ret (match iso with None => "date:invalid" | Some s => "date:" +:+ s end)
      | Some (RegExpObj repr) => ret ("regexp:" +:+ repr)
      | Some (TypedArray ctor arr) =>
          let ctor := default "TypedArray" ctor in
          ret ("typed:" +:+ ctor +:+ ":" +:+ JS.join "," (Number_toString <$> arr))
      | Some (Array elems) =>
          cyc <- seen_has a ;;
          if cyc : bool then throw circular_array else
          seen_add a ;;;
          inner <- mapM (λ v, match v with
                              | Some v => stringify fuel h v
                              | None => ret EmptyString
                              end) elems ;;
          seen_delete a ;;;
          ret ("[" +:+ JS.join "," inner +:+ "]")
      | Some (MapObj es) =>
          cyc <- seen_has a ;;
          if cyc : bool then throw circular_Map else
          seen_add a ;;;
          es <- mapM (λ e, k <- stringify fuel h e.1 ;;
                           v <- stringify fuel h e.2 ;;
                           ret (k, v)) es ;;
          let entries :=
            JS.join ","
              ((λ e, e.1 +:+ ":" +:+ e.2) <$>
               JS.sort (λ a b, if JS.lt a.1 b.1 then -1
                               else if JS.lt b.1 a.1 then 1 else 0) es) in
          seen_delete a ;;;
          ret ("map:{" +:+ entries +:+ "}")
      | Some (SetObj vs) =>
          cyc <- seen_has a ;;
          if cyc : bool then throw circular_Set else
          seen_add a ;;;
          ss <- mapM (stringify fuel h) vs ;;
          let items := JS.join "," (JS.sort JS.SortCompare ss) in
          seen_delete a ;;;
          ret ("set:[" +:+ items +:+ "]")
      | Some (PlainObject props) =>
          cyc <- seen_has a ;;
          if cyc : bool then throw circular_object else
          seen_add a ;;;
          pairs <- mapM (λ k, s <- stringify fuel h (get props k) ;;
                              ret (keyLabel k +:+ "=>" +:+ s))
                        (ownKeysSorted props) ;;
          seen_delete a ;;;
          ret ("{" +:+ JS.join "," pairs +:+ "}")
      | Some (Exotic tag) => ret ("obj:" +:+ tag)
      end
    end
  end.

(** The outcome of a top-level call: [seen] defaults to a fresh set.  One
    unit of fuel is spent per call and a container is entered only when it
    is not in [seen], so the heap's size bounds the depth. *)
Inductive result :=
  | Ok (s : string)
  | Err (e : error).

Definition run (m : M string) : option result :=
  match m ∅ with
  | Val s _ => Some (Ok s)
  | Throw e => Some (Err e)
  | Stuck => None
  end.

Definition stableStringify (h : heap) (value : value) : option result :=
  run (stringify (S (size h)) h value).

Definition hashQueryKey (h : heap) (key : value) : option result :=
  match stableStringify h key with
  | Some (Ok s) => Some (Ok ("qk:" +:+ s))
  | r => r
  end.

(** *** The object graph

    The values a container hands to the recursive calls, in call order, and
    the string it builds from their results. *)

Definition children (o : object) : list value :=
  match o with
  | Array elems => omap id elems
  | MapObj es => es ≫= (λ e, [e.1; e.2])
  | SetObj vs => vs
  | PlainObject props => get props <$> ownKeysSorted props
  | _ => []
  end.

Definition is_container (o : object) : bool :=
  match o with
  | Array _ | MapObj _ | SetObj _ | PlainObject _ => true
  | _ => false
  end.

(** The error a container throws when it is reached while in [seen]. *)
Definition circular (o : object) : error :=
  match o with
  | Array _ => circular_array
  | MapObj _ => circular_Map
  | SetObj _ => circular_Set
  | _ => circular_object
  end.

Fixpoint fill_holes (elems : list (option value)) (ss : list string) : list string :=
  match elems with
  | [] => []
  | None :: elems' => EmptyString :: fill_holes elems' ss
  | Some _ :: elems' =>
      match ss with
      | s :: ss' => s :: fill_holes elems' ss'
      | [] => []
      end
  end.

Fixpoint pair_up (ss : list string) : list (string * string) :=
  match ss with
  | k :: v :: ss' => (k, v) :: pair_up ss'
  | _ => []
  end.

Definition map_entries (es : list (string * string)) : string :=
  JS.join ","
    ((λ e, e.1 +:+ ":" +:+ e.2) <$>
     JS.sort (λ a b, if JS.lt a.1 b.1 then -1 else if JS.lt b.1 a.1 then 1 else 0) es).

Definition assemble (o : object) (ss : list string) : string :=
  match o with
  | Array elems => "[" +:+ JS.join "," (fill_holes elems ss) +:+ "]"
  | MapObj _ => "map:{" +:+ map_entries (pair_up ss) +:+ "}"
  | SetObj _ => "set:[" +:+ JS.join "," (JS.sort JS.SortCompare ss) +:+ "]"
  | PlainObject props =>
      "{" +:+ JS.join "," (zip_with (λ k s, keyLabel k +:+ "=>" +:+ s)
                                   (ownKeysSorted props) ss) +:+ "}"
  | _ => EmptyString
  end.

Definition edge (h : heap) (a b : addr) : Prop :=
  ∃ o, h !! a = Some o ∧ Ref b ∈ children o.

Definition reach (h : heap) (v : value) (b : addr) : Prop :=
  ∃ a, v = Ref a ∧ rtc (edge h) a b.

(** A value is cyclic when some object it reaches lies on a cycle. *)
Definition cyclic (h : heap) (v : value) : Prop :=
  ∃ b, reach h v b ∧ tc (edge h) b b.

(** A value is a leaf when it is not a reference to a container: its
    serialisation reads neither [seen] nor the rest of the heap. *)
Definition leaf (h : heap) (v : value) : Prop :=
  ∀ a o, v = Ref a → h !! a = Some o → is_container o = false.

(** [hits h v seen]: [v] reaches a container that is in [seen]. *)
Definition hits (h : heap) (v : value) (seen : gset addr) : Prop :=
  ∃ b o, reach h v b ∧ h !! b = Some o ∧ is_container o = true ∧ b ∈ seen.

(** [closes h path v b]: the collection [b] closes the cycle when [v] is
    serialised while the collections of [path] are being serialised.  The
    members of a collection are visited in [children] order, each one to
    its end before the next; [b] is the first collection that this visit
    comes to while [b] is on the path, the members visited before having
    reached no collection of the path and no cycle. *)
Inductive closes (h : heap) : gset addr → value → addr → Prop :=
  | closes_here path a o :
      h !! a = Some o → is_container o = true → a ∈ path →
      closes h path (Ref a) a
  | closes_below path a o pre c post b :
      h !! a = Some o → is_container o = true → a ∉ path →
      children o = (pre ++ c :: post)%list →
      (∀ x, x ∈ pre → ¬ hits h x ({[a]} ∪ path) ∧ ¬ cyclic h x) →
      closes h ({[a]} ∪ path) c b →
      closes h path (Ref a) b.

(** [restores f l]: on the elements of [l], a call of [f] that returns
    leaves [seen] as it found it. *)
Definition restores {A B} (f : A → M B) (l : list A) : Prop :=
  ∀ x S y S', x ∈ l → f x S = Val y S' → S' = S.

(** The order in which [ownKeysSorted] leaves the symbol keys. *)
Definition description_le (a b : symbol) : Prop :=
  String.leb (description_or_empty a) (description_or_empty b) = true.

(** Every reference leads to an object of the heap. *)
Definition closed_value (h : heap) (v : value) : Prop :=
  match v with
  | Ref a => is_Some (h !! a)
  | _ => True
  end.

Definition closed (h : heap) : Prop :=
  map_Forall (λ _ o, Forall (closed_value h) (children o)) h.

#[global] Instance closed_value_dec h v : Decision (closed_value h v).
Proof. destruct v; apply _. Defined.
#[global] Instance closed_dec h : Decision (closed h).
Proof. apply _. Defined.





Inductive kind :=
  | K_null | K_string | K_number | K_boolean | K_bigint | K_undefined
  | K_symbol | K_function | K_date | K_regexp | K_typed | K_array | K_map
  | K_set | K_object | K_exotic.

Definition kind_of (h : heap) (v : value) : option kind :=
  match v with
  | Null => Some K_null
  | Undefined => Some K_undefined
  | Str _ => Some K_string
  | Num _ => Some K_number
  | Bool _ => Some K_boolean
  | BigInt _ => Some K_bigint
  | Sym _ => Some K_symbol
  | Fn _ _ => Some K_function
  | Ref a =>
      match h !! a with
      | None => None
      | Some (DateObj _) => Some K_date
      | Some (RegExpObj _) => Some K_regexp
      | Some (TypedArray _ _) => Some K_typed
      | Some (Array _) => Some K_array
      | Some (MapObj _) => Some K_map
      | Some (SetObj _) => Some K_set
      | Some (PlainObject _) => Some K_object
      | Some (Exotic _) => Some K_exotic
      end
  end.

Definition tag (k : kind) : string :=
  match k with
  | K_null => "null"
  | K_string => "str:"
  | K_number => "num:"
  | K_boolean => "bool:"
  | K_bigint => "bigint:"
  | K_undefined => "undef"
  | K_symbol => "sym:"
  | K_function => "fn:"
  | K_date => "date:"
  | K_regexp => "regexp:"
  | K_typed => "typed:"
  | K_array => "["
  | K_map => "map:{"
  | K_set => "set:["
  | K_object => "{"
  | K_exotic => "obj:"
  end.

(** The string of a value that serialises, the empty string otherwise. *)
Definition serialized (h : heap) (v : value) : string :=
  match stableStringify h v with
  | Some (Ok s) => s
  | _ => EmptyString
  end.

(** What an array slot contributes to the joined string. *)
Definition slot_string (h : heap) (x : option value) : string :=
  match x with
  | None => EmptyString
  | Some v => serialized h v
  end.

(** The Map rule as the specification words it: every entry is serialised
    to [key:value] and the serialised entries are sorted. *)
Definition spec_map_entries (es : list (string * string)) : string :=
  JS.join "," (JS.sort JS.SortCompare ((λ e, e.1 +:+ ":" +:+ e.2) <$> es)).

(** *** Sample heaps *)

(** [collide]: Maps, plain objects and arrays whose keys or elements are
    different symbols with colliding serialisations. *)
Definition sym_k1 : symbol := Symbol 0 (Some "k").
Definition sym_k2 : symbol := Symbol 1 (Some "k").
Definition sym_x : symbol := Symbol 2 (Some "x").
Definition sym_xx : symbol := Symbol 3 (Some "x,sym:x").
Definition sym_a : symbol := Symbol 4 (Some "a").
Definition sym_a' : symbol := Symbol 5 (Some "a!").

Definition collide : heap :=
  list_to_map
    [ (0%nat, MapObj [(Sym sym_k1, Num (Int 1)); (Sym sym_k2, Num (Int 2))]);
      (1%nat, MapObj [(Sym sym_k2, Num (Int 2)); (Sym sym_k1, Num (Int 1))]);
      (2%nat, PlainObject [(KSym sym_k1, Num (Int 1)); (KSym sym_k2, Num (Int 2))]);
      (3%nat, PlainObject [(KSym sym_k2, Num (Int 2)); (KSym sym_k1, Num (Int 1))]);
      (4%nat, Array [Some (Sym sym_x); Some (Sym sym_xx)]);
      (5%nat, Array [Some (Sym sym_xx); Some (Sym sym_x)]);
      (6%nat, MapObj [(Sym sym_a, Num (Int 1)); (Sym sym_a', Num (Int 2))]) ].

(** [loops]: an array, a Map, a Set and a plain object that each contain
    themselves; [data]: acyclic values, among them [['todos']], two Maps
    and two plain objects that differ in insertion order, and one object
    referenced twice by an array. *)
Definition loops : heap :=
  list_to_map
    [ (0%nat, Array [Some (Num (Int 1)); Some (Ref 0%nat)]);
      (1%nat, MapObj [(Str "self", Ref 1%nat)]);
      (2%nat, SetObj [Ref 2%nat]);
      (3%nat, PlainObject [(KStr "x", Num (Int 1)); (KStr "self", Ref 3%nat)]);
      (4%nat, Array [Some (Ref 3%nat)]) ].

Definition data : heap :=
  list_to_map
    [ (0%nat, Array [Some (Str "todos")]);
      (1%nat, MapObj [(Str "b", Num (Int 2)); (Str "a", Num (Int 1))]);
      (2%nat, MapObj [(Str "a", Num (Int 1)); (Str "b", Num (Int 2))]);
      (3%nat, PlainObject [(KStr "a", Num (Int 1)); (KStr "b", Num (Int 2))]);
      (4%nat, PlainObject [(KStr "b", Num (Int 2)); (KStr "a", Num (Int 1))]);
      (5%nat, Array [Some (Ref 3%nat); None; Some (Ref 3%nat)]);
      (6%nat, Array [Some (Num (Int 1)); Some (Num (Int 2)); Some (Num (Int 3))]);
      (7%nat, Array [Some (Num (Int 3)); Some (Num (Int 2)); Some (Num (Int 1))]) ].

(** The primitives whose serialisation keeps all of the value: [null],
    [undefined], strings, booleans and big integers. *)
Definition plain_scalar (v : value) : Prop :=
  match v with
  | Null | Undefined | Str _ | Bool _ | BigInt _ => True
  | _ => False
  end.

(** [name || 'anonymous'] *)
Definition name_or_anonymous (name : string) : string :=
  if bool_decide (name = EmptyString) then "anonymous" else name.

(** [mutual]: [a = [o]; o.a = a], and an array that holds a Map and a Set
    which each contain themselves. *)
Definition mutual : heap :=
  list_to_map
    [ (0%nat, Array [Some (Ref 1%nat)]);
      (1%nat, PlainObject [(KStr "a", Ref 0%nat)]);
      (2%nat, Array [Some (Num (Int 1)); Some (Ref 3%nat); Some (Ref 4%nat)]);
      (3%nat, MapObj [(Str "self", Ref 3%nat)]);
      (4%nat, SetObj [Ref 4%nat]) ].

(** [alike]: two Maps and two plain objects that hold, in different
    orders, entries under two symbols of one description with one value. *)
Definition alike : heap :=
  list_to_map
    [ (0%nat, MapObj [(Sym sym_k1, Num (Int 1)); (Str "a", Num (Int 2));
                      (Sym sym_k2, Num (Int 1))]);
      (1%nat, MapObj [(Sym sym_k2, Num (Int 1)); (Sym sym_k1, Num (Int 1));
                      (Str "a", Num (Int 2))]);
      (2%nat, PlainObject [(KSym sym_k1, Num (Int 1)); (KStr "b", Num (Int 2));
                           (KSym sym_k2, Num (Int 1))]);
      (3%nat, PlainObject [(KSym sym_k2, Num (Int 1)); (KSym sym_k1, Num (Int 1));
                           (KStr "b", Num (Int 2))]) ].

(** [sparse]: the empty array, [new Array(1)] and [new Array(2)]. *)
Definition sparse : heap :=
  list_to_map [ (0%nat, Array []); (1%nat, Array [None]); (2%nat, Array [None; None]) ].

(** [fixtures]: the values of [tests/hash.test.ts]. *)
Definition fixtures : heap :=
  list_to_map
    [ (0%nat, TypedArray (Some "Uint8Array") [Int 1; Int 2; Int 3]);
      (1%nat, SetObj [Num (Int 3); Num (Int 1); Num (Int 2)]);
      (2%nat, SetObj [Num (Int 2); Num (Int 1); Num (Int 3)]);
      (3%nat, DateObj (Some "1970-01-01T00:00:00.000Z"));
      (4%nat, RegExpObj "/x/i");
      (5%nat, PlainObject [(KStr "a", Undefined)]);
      (6%nat, PlainObject []);
      (7%nat, PlainObject [(KStr "userId", Num (Int 1)); (KStr "filter", Str "all")]);
      (8%nat, PlainObject [(KStr "filter", Str "all"); (KStr "userId", Num (Int 1))]);
      (9%nat, Array [Some (Str "todos"); Some (Ref 7%nat)]);
      (10%nat, Array [Some (Str "todos"); Some (Ref 8%nat)]) ].

End Hash.

(** ** subscribable.ts *)

Module Subscribable.

Local Open Scope list_scope.
Local Open Scope nat_scope.

(** [before x y l]: [x] occurs in [l] at an earlier position than [y]. *)
Definition before {A} (x y : A) (l : list A) : Prop :=
  ∃ l1 l2 l3, l = l1 ++ x :: l2 ++ y :: l3.

Section Subscribable.
(** [T] is the payload type, [E] the type of what a listener may throw. *)
Context {T E : Type}.

(** A listener is a function reference; the registry compares identities. *)
Definition Listener := nat.

(** What a listener does when it is called: operations on the bus it is
    registered with (it may hold unsubscribe functions, named by their
    handle, and the bus itself), after which it returns or throws. *)
Inductive command :=
  | Subscribe (listener : Listener)
  | Unsubscribe (handle : nat)
  | Notify (value : T).

Record script := Script { commands : list command; throws : option E }.

Variable body : Listener → T → script.

(** The calls the bus makes: listeners and the three hooks. *)
Inductive event :=
  | Called (fn : Listener) (value : T)
  | OnSubscribe
  | OnUnsubscribe
  | OnNotifyError (error : E).

(** The only microtask the class queues is its flush. *)
Inductive task := Flush.

(** The variables an unsubscribe function closes over. *)
Record closure := Closure { listener : Listener; unsubscribed : bool }.

(** The fields of an instance, the unsubscribe functions it has returned
    (a handle is an index in [closures]), the microtask queue and the
    calls made so far. *)
Record state := State {
  listeners : list Listener;
  pendingFlush : bool;
  hasQueuedValue : bool;
  lastValue : T;
  closures : list closure;
  microtasks : list task;
  trace : list event;
}.

Definition set_listeners (f : list Listener → list Listener) (st : state) : state :=
  State (f (listeners st)) (pendingFlush st) (hasQueuedValue st) (lastValue st)
        (closures st) (microtasks st) (trace st).
Definition set_pendingFlush (b : bool) (st : state) : state :=
  State (listeners st) b (hasQueuedValue st) (lastValue st)
        (closures st) (microtasks st) (trace st).
Definition set_hasQueuedValue (b : bool) (st : state) : state :=
  State (listeners st) (pendingFlush st) b (lastValue st)
        (closures st) (microtasks st) (trace st).
Definition set_lastValue (v : T) (st : state) : state :=
  State (listeners st) (pendingFlush st) (hasQueuedValue st) v
        (closures st) (microtasks st) (trace st).
Definition set_closures (f : list closure → list closure) (st : state) : state :=
  State (listeners st) (pendingFlush st) (hasQueuedValue st) (lastValue st)
        (f (closures st)) (microtasks st) (trace st).
Definition set_microtasks (f : list task → list task) (st : state) : state :=
  State (listeners st) (pendingFlush st) (hasQueuedValue st) (lastValue st)
        (closures st) (f (microtasks st)) (trace st).
Definition log (e : event) (st : state) : state :=
  State (listeners st) (pendingFlush st) (hasQueuedValue st) (lastValue st)
        (closures st) (microtasks st) (trace st ++ [e]).

(** A fresh instance; [undef] is the content of the uninitialised
    [lastValue]. *)
Definition new (undef : T) : state := State [] false false undef [] [] [].

(** [Set.prototype.add] and [delete] on an insertion-ordered set. *)
Definition Set_add (x : Listener) (s : list Listener) : list Listener :=
  if bool_decide (x ∈ s) then s else s ++ [x].
Definition Set_delete (x : Listener) (s : list Listener) : list Listener :=
  filter (λ y, y ≠ x) s.

Definition onSubscribe : state → state := log OnSubscribe.
Definition onUnsubscribe : state → state := log OnUnsubscribe.
Definition onNotifyError (error : E) : state → state := log (OnNotifyError error).

(** [subscribe] returns the handle of the unsubscribe function. *)
Definition subscribe (l : Listener) (st : state) : nat * state :=
  let st := set_listeners (Set_add l) st in
  let st := onSubscribe st in
  (List.length (closures st), set_closures (λ cs, cs ++ [Closure l false]) st).

(** Calling the unsubscribe function with handle [c]; a handle that names
    no function returned so far does nothing. *)
Definition unsubscribe (c : nat) (st : state) : state :=
  match closures st !! c with
  | None => st
  | Some cl =>
      if unsubscribed cl then st else
      let st := set_closures (λ cs, <[c := Closure (listener cl) true]> cs) st in
      let existed := bool_decide (listener cl ∈ listeners st) in
      let st := set_listeners (Set_delete (listener cl)) st in
      if existed then onUnsubscribe st else st
  end.

Definition queueMicrotask (t : task) : state → state :=
  set_microtasks (λ q, q ++ [t]).

Definition notify (value : T) (st : state) : state :=
  let st := set_lastValue value st in
  let st := set_hasQueuedValue true st in
  if pendingFlush st then st else
  let st := set_pendingFlush true st in
  queueMicrotask Flush st.

Definition run_command (st : state) (c : command) : state :=
  match c with
  | Subscribe l => (subscribe l st).2
  | Unsubscribe h => unsubscribe h st
  | Notify v => notify v st
  end.

(** The call [fn(payload)]: the listener runs and returns or throws. *)
Definition invoke (fn : Listener) (payload : T) (st : state) : state * option E :=
  let st := log (Called fn payload) st in
  (foldl run_command st (commands (body fn payload)), throws (body fn payload)).

(** One turn of the loop: the call inside [try], the hook in [catch]. *)
Definition try_call (fn : Listener) (payload : T) (st : state) : state :=
  match invoke fn payload st with
  | (st, None) => st
  | (st, Some err) => onNotifyError err st
  end.

(** The callback given to [queueMicrotask]. *)
Definition flush (st : state) : state :=
  let st := set_pendingFlush false st in
  if negb (hasQueuedValue st) then st else
  let payload := lastValue st in
  let st := set_hasQueuedValue false st in
  let snapshot := listeners st in
  foldl (λ st fn, try_call fn payload st) st snapshot.

(** The runtime takes the first microtask off the queue and runs it. *)
Definition run_microtask (st : state) : state :=
  match microtasks st with
  | [] => st
  | Flush :: q => flush (set_microtasks (λ _, q) st)
  end.

Definition listenerCount (st : state) : nat := List.length (listeners st).
Definition hasListeners (st : state) : bool := bool_decide (0 < List.length (listeners st))%nat.

(** Projections of a trace. *)
Definition calls (tr : list event) : list (Listener * T) :=
  omap (λ e, match e with Called fn v => Some (fn, v) | _ => None end) tr.
Definition errors (tr : list event) : list E :=
  omap (λ e, match e with OnNotifyError err => Some err | _ => None end) tr.
(** The calls and the error reports, in the order they happen. *)
Definition deliveries (tr : list event) : list event :=
  omap (λ e, match e with
             | Called _ _ | OnNotifyError _ => Some e
             | _ => None
             end) tr.
(** What the call of one listener adds to [deliveries]. *)
Definition delivery (fn : Listener) (payload : T) : list event :=
  Called fn payload ::
  match throws (body fn payload) with
  | Some err => [OnNotifyError err]
  | None => []
  end.
Definition unsubscribes (tr : list event) : nat :=
  List.length (omap (λ e, match e with OnUnsubscribe => Some () | _ => None end) tr).

(** The part of the state that decides what the next microtask does. *)
Definition schedule (st : state) : bool * bool * list task * T :=
  (pendingFlush st, hasQueuedValue st, microtasks st, lastValue st).

(** The states of an instance: calls from outside and microtask runs. *)
Inductive reachable : state → Prop :=
  | reachable_new undef : reachable (new undef)
  | reachable_subscribe l st : reachable st → reachable (subscribe l st).2
  | reachable_unsubscribe h st : reachable st → reachable (unsubscribe h st)
  | reachable_notify v st : reachable st → reachable (notify v st)
  | reachable_microtask st : reachable st → reachable (run_microtask st).

(** [kept l st ops]: while the calls [ops] are made from [st] on, no
    unsubscribe function of the listener [l] that has not been called yet
    is called. *)
Fixpoint kept (l : Listener) (st : state) (ops : list command) : Prop :=
  match ops with
  | [] => True
  | c :: ops' =>
      match c with
      | Unsubscribe h =>
          ∀ cl, closures st !! h = Some cl → unsubscribed cl = false → listener cl ≠ l
      | _ => True
      end ∧ kept l (run_command st c) ops'
  end.

(** [later st st']: the instance can be in [st'] some time after it was in
    [st]: any number of calls from outside and of microtask runs (in which
    the listeners run) lie in between. *)
Inductive later (st : state) : state → Prop :=
  | later_now : later st st
  | later_subscribe l st' : later st st' → later st (subscribe l st').2
  | later_unsubscribe h st' : later st st' → later st (unsubscribe h st')
  | later_notify v st' : later st st' → later st (notify v st')
  | later_microtask st' : later st st' → later st (run_microtask st').

(** What holds between any two operations: a flush is queued exactly when
    [pendingFlush] is set, and the registry has no duplicates. *)
Definition consistent (st : state) : Prop :=
  microtasks st = (if pendingFlush st then [Flush] else []) ∧ NoDup (listeners st).

(** The values a list of commands passes to [notify], in order. *)
Definition notified (cs : list command) : list T :=
  omap (λ c, match c with Notify x => Some x | _ => None end) cs.

(** The schedule after [notify] has been called with each of [xs] in
    turn, starting from [st]. *)
Definition renotified (st : state) (xs : list T) : bool * bool * list task * T :=
  match last xs with
  | None => schedule st
  | Some x =>
      (true, true,
       (if pendingFlush st then microtasks st else microtasks st ++ [Flush]), x)
  end.

(** [consistent], and moreover: the two flags agree, and every registered
    listener has an unsubscribe function that has not been called. *)
Definition settled (st : state) : Prop :=
  consistent st ∧ pendingFlush st = hasQueuedValue st ∧
  ∀ l, l ∈ listeners st → ∃ h, closures st !! h = Some (Closure l false).

(** How often the hook [onSubscribe] has fired. *)
Definition subscribes (tr : list event) : nat :=
  List.length (omap (λ e, match e with OnSubscribe => Some () | _ => None end) tr).

(** The listeners of the unsubscribe functions that have not been called. *)
Definition live (cs : list closure) : list Listener :=
  omap (λ cl, if unsubscribed cl then None else Some (listener cl)) cs.

(** The hooks against the unsubscribe functions: [onSubscribe] has fired
    once per function returned, [onUnsubscribe] at most once per function
    called. *)
Definition accounted (st : state) : Prop :=
  subscribes (trace st) = List.length (closures st) ∧
  unsubscribes (trace st) + List.length (live (closures st)) ≤ List.length (closures st).

(** The unsubscribe function [h] belongs to the listener [l]; once it has
    been called [l] is not registered; [spent] asks that it has been called. *)
Definition tracked (h : nat) (l : Listener) (spent : bool) (st : state) : Prop :=
  ∃ u, closures st !! h = Some (Closure l u) ∧
       (spent = true → u = true) ∧ (u = true → l ∉ listeners st).
End Subscribable.

Arguments state : clear implicits.
Arguments script : clear implicits.
Arguments command : clear implicits.
Arguments event : clear implicits.

(** Sample listeners over number payloads: 1 throws, 2 unsubscribes itself
    through handle 0 and subscribes 9, every other one only records. *)
Definition sample_body (l : Listener) (v : nat) : script nat string :=
  if bool_decide (l = 1) then Script [] (Some "boom")
  else if bool_decide (l = 2) then Script [Unsubscribe 0; Subscribe 9] None
  else Script [] None.

Definition fresh : state nat string := new 0.

(** The listeners of [tests/subscribable.test.ts]: recorders, and in the
    last test a listener 0 that calls its own unsubscribe function. *)
Definition recorders (l : Listener) (v : nat) : script nat string := Script [] None.
Definition self_unsubscribing (l : Listener) (v : nat) : script nat string :=
  if bool_decide (l = 0) then Script [Unsubscribe 0] None else Script [] None.

(** A listener 2 that subscribes the listener 9 when it is called. *)
Definition self_subscribing (l : Listener) (v : nat) : script nat string :=
  if bool_decide (l = 2) then Script [Subscribe 9] None else Script [] None.

(** A listener 0 that answers every value below 3 by notifying the next
    one; the other listeners record. *)
Definition echoing (l : Listener) (v : nat) : script nat string :=
  if bool_decide (l = 0 ∧ v < 3) then Script [Notify (S v)] None else Script [] None.

(** The listener 7 subscribed twice, then the first unsubscribe function
    called once. *)
Definition twice : state nat string :=
  unsubscribe 0 (subscribe 7 (subscribe 7 fresh).2).2.

(** The listeners 2, 1 and 3 subscribed in this order. *)
Definition three : state nat string :=
  (subscribe 3 (subscribe 1 (subscribe 2 fresh).2).2).2.

End Subscribable.

(** ** Properties of the built-ins *)

Module JSFacts.

Lemma compare_le_trans a b c :
  (a ?= b)%string ≠ Gt → (b ?= c)%string ≠ Gt → (a ?= c)%string ≠ Gt.
Proof.
  revert b c. induction a as [|x a IH]; intros [|y b] [|z c]; simpl; try done.
  unfold Ascii.compare.
  destruct (N.compare_spec (N_of_ascii x) (N_of_ascii y)) as [Hxy|Hxy|Hxy];
    destruct (N.compare_spec (N_of_ascii y) (N_of_ascii z)) as [Hyz|Hyz|Hyz];
    destruct (N.compare_spec (N_of_ascii x) (N_of_ascii z)) as [Hxz|Hxz|Hxz];
    try done; try lia.
  apply IH.
Qed.

Lemma leb_trans a b c :
  String.leb a b = true → String.leb b c = true → String.leb a c = true.
Proof.
  unfold String.leb. intros Hab Hbc.
  pose proof (compare_le_trans a b c) as H.
  destruct (a ?= b)%string, (b ?= c)%string, (a ?= c)%string; try done;
    exfalso; by apply H.
Qed.

(** A comparator of the shape [x < y ? -1 : x > y ? 1 : 0] on keys. *)
Lemma comparator_le a b :
  (if JS.lt a b then -1 else if JS.lt b a then 1 else 0) ≤ 0 ↔ String.leb a b = true.
Proof.
  unfold JS.lt, String.ltb, String.leb. rewrite (String.compare_antisym a b).
  destruct (b ?= a)%string; simpl; split; (done || lia).
Qed.

Section sort.
Context {A : Type} (key : A → string) (cmp : A → A → Z).
Hypothesis cmp_key : ∀ x y, cmp x y ≤ 0 ↔ String.leb (key x) (key y) = true.

Lemma sort_insert_Permutation x l : JS.sort_insert cmp x l ≡ₚ x :: l.
Proof.
  induction l as [|y l IH]; simpl; [done|].
  case_bool_decide; [done|]. by rewrite IH, Permutation_swap.
Qed.

Lemma sort_Permutation l : JS.sort cmp l ≡ₚ l.
Proof.
  induction l as [|x l IH]; simpl; [done|].
  by rewrite sort_insert_Permutation, IH.
Qed.

Lemma sort_insert_Sorted x l :
  Sorted (JS.key_le key) l → Sorted (JS.key_le key) (JS.sort_insert cmp x l).
Proof.
  induction 1 as [|y l Hl IH Hy]; simpl; [by repeat constructor|].
  case_bool_decide as Hxy.
  - constructor; [by constructor|]. constructor. by apply cmp_key.
  - constructor; [done|].
    assert (JS.key_le key y x) as Hyx.
    { destruct (String.leb_total (key x) (key y)) as [H|H]; [|done].
      by apply cmp_key in H. }
    destruct Hy as [|z l Hyz]; simpl; [by constructor|].
    case_bool_decide; by constructor.
Qed.

Lemma sort_Sorted l : Sorted (JS.key_le key) (JS.sort cmp l).
Proof.
  induction l as [|x l IH]; simpl; [constructor|]. by apply sort_insert_Sorted.
Qed.

(** Where the keys tell the elements apart the sort forgets the order of
    its input. *)
Lemma sort_unique l1 l2 :
  l1 ≡ₚ l2 →
  (∀ x y, x ∈ l1 → y ∈ l1 → key x = key y → x = y) →
  JS.sort cmp l1 = JS.sort cmp l2.
Proof.
  intros Hp Hinj.
  assert (Transitive (JS.key_le key)) as Htrans by (intros x y z; apply leb_trans).
  apply (Sorted_unique_strong (JS.key_le key)).
  - intros x y Hx Hy Hxy Hyx. apply Hinj.
    + by rewrite sort_Permutation in Hx.
    + by rewrite sort_Permutation, <- Hp in Hy.
    + by apply String.leb_antisym.
  - apply sort_Sorted.
  - apply sort_Sorted.
  - by rewrite !sort_Permutation.
Qed.

(** What the sort does to elements of one key cannot be seen through a
    function that takes one value on them. *)
Lemma sort_fmap_unique {B} (g : A → B) l1 l2 :
  l1 ≡ₚ l2 →
  (∀ x y, x ∈ l1 → y ∈ l1 → key x = key y → g x = g y) →
  g <$> JS.sort cmp l1 = g <$> JS.sort cmp l2.
Proof.
  intros Hp Hg.
  assert (Transitive (JS.key_le (@fst string B))) as Htrans
    by (intros x y z; apply leb_trans).
  enough ((λ x, (key x, g x)) <$> JS.sort cmp l1 =
          (λ x, (key x, g x)) <$> JS.sort cmp l2) as H.
  { apply (f_equal (fmap snd)) in H. by rewrite <- !list_fmap_compose in H. }
  apply (Sorted_unique_strong (JS.key_le fst)).
  - intros x y (x' & -> & Hx)%list_elem_of_fmap (y' & -> & Hy)%list_elem_of_fmap Hxy Hyx.
    rewrite sort_Permutation in Hx. rewrite sort_Permutation, <- Hp in Hy.
    assert (key x' = key y') as Hk by (by apply String.leb_antisym).
    by rewrite Hk, (Hg x' y' Hx Hy Hk).
  - apply (Sorted_fmap _ (JS.key_le key)); [done|apply sort_Sorted].
  - apply (Sorted_fmap _ (JS.key_le key)); [done|apply sort_Sorted].
  - by rewrite !sort_Permutation, Hp.
Qed.
End sort.

End JSFacts.

(** ** Properties of the serialiser *)

Module HashFacts.
Import Hash.

(** *** The effects *)

Section mapM.
Context {A B : Type} (f : A → M B).

Lemma restores_cons x l : restores f (x :: l) → restores f l.
Proof. intros H y S z S' Hy. apply H. by right. Qed.

Lemma mapM_Val l S ys S' :
  restores f l → mapM f l S = Val ys S' →
  S' = S ∧ Forall2 (λ x y, f x S = Val y S) l ys.
Proof.
  revert ys. induction l as [|x l IH]; intros ys Hr; simpl.
  - unfold ret. intros [= <- <-]. by split.
  - unfold bind at 1. destruct (f x S) as [y S1| |] eqn:Hx; try done.
    assert (S1 = S) as -> by (eapply Hr; [left|done]).
    unfold bind at 1. destruct (mapM f l S) as [zs S2| |] eqn:Hl; try done.
    unfold ret. intros [= <- <-].
    destruct (IH zs (restores_cons _ _ Hr) eq_refl) as [-> HF].
    split; [done|]. by constructor.
Qed.

Lemma mapM_Val_elem l S ys x :
  Forall2 (λ x y, f x S = Val y S) l ys → x ∈ l → ∃ y, f x S = Val y S.
Proof.
  intros HF Hx. apply list_elem_of_lookup in Hx as [i Hi].
  destruct (Forall2_lookup_l _ _ _ _ _ HF Hi) as (y & _ & Hy). by exists y.
Qed.

Lemma mapM_Val_intro l S ys :
  Forall2 (λ x y, f x S = Val y S) l ys → mapM f l S = Val ys S.
Proof.
  induction 1 as [|x y l ys Hx _ IH]; simpl; [done|].
  unfold bind at 1. rewrite Hx. unfold bind at 1. by rewrite IH.
Qed.

Lemma mapM_Throw l S e :
  restores f l → mapM f l S = Throw e → ∃ x, x ∈ l ∧ f x S = Throw e.
Proof.
  induction l as [|x l IH]; intros Hr; simpl; [done|].
  unfold bind at 1. destruct (f x S) as [y S1| |] eqn:Hx; try done.
  - assert (S1 = S) as -> by (eapply Hr; [left|done]).
    unfold bind at 1. destruct (mapM f l S) as [zs S2| |] eqn:Hl; try done.
    intros [= <-]. destruct (IH (restores_cons _ _ Hr) eq_refl) as (z & Hz & Hfz).
    exists z. split; [by right|done].
  - intros [= <-]. exists x. split; [left|done].
Qed.

End mapM.

Lemma Forall2_impl_elem {A B} (P Q : A → B → Prop) l k :
  Forall2 P l k → (∀ x y, x ∈ l → P x y → Q x y) → Forall2 Q l k.
Proof.
  induction 1 as [|x y l k Hxy _ IH]; intros HPQ; constructor.
  - apply HPQ; [left|done].
  - apply IH. intros x' y' Hx'. apply HPQ. by right.
Qed.

Lemma bind_eq {A B} (m : M A) (k : A → M B) S :
  bind m k S = match m S with
               | Val a S' => k a S'
               | Throw e => Throw e
               | Stuck => Stuck
               end.
Proof. reflexivity. Qed.

Lemma mapM_cons {A B} (f : A → M B) x l S :
  mapM f (x :: l) S =
    match f x S with
    | Val y S1 =>
        match mapM f l S1 with
        | Val ys S2 => Val (y :: ys) S2
        | Throw e => Throw e
        | Stuck => Stuck
        end
    | Throw e => Throw e
    | Stuck => Stuck
    end.
Proof. reflexivity. Qed.

(** Each container's loop is [mapM] over its [children], followed by
    [assemble]. *)
Lemma mapM_slots (f : value → M string) elems S :
  mapM (λ v, match v with Some v => f v | None => ret EmptyString end) elems S =
  (ss <- mapM f (omap id elems) ;; ret (fill_holes elems ss)) S.
Proof.
  revert S. induction elems as [|[v|] elems IH]; intros S; [done| |].
  - change (omap id (Some v :: elems)) with (v :: omap id elems).
    rewrite bind_eq, !mapM_cons. destruct (f v S) as [y S1| |]; try done.
    rewrite IH, bind_eq. by destruct (mapM f (omap id elems) S1).
  - change (omap id (None :: elems)) with (omap id elems).
    rewrite bind_eq, mapM_cons. unfold ret at 1. rewrite IH, bind_eq.
    by destruct (mapM f (omap id elems) S).
Qed.

Lemma mapM_entries (f : value → M string) (es : list (value * value)) S :
  mapM (λ e, k <- f e.1 ;; v <- f e.2 ;; ret (k, v)) es S =
  (ss <- mapM f (es ≫= (λ e, [e.1; e.2])) ;; ret (pair_up ss)) S.
Proof.
  revert S. induction es as [|[k v] es IH]; intros S; [done|].
  change (((k, v) :: es) ≫= (λ e, [e.1; e.2]))
    with (k :: v :: (es ≫= (λ e, [e.1; e.2]))).
  rewrite bind_eq, !mapM_cons, bind_eq. cbn [fst snd].
  destruct (f k S) as [sk S1| |]; try done.
  rewrite bind_eq, mapM_cons. destruct (f v S1) as [sv S2| |]; try done.
  unfold ret at 1. rewrite IH, bind_eq.
  by destruct (mapM f _ S2).
Qed.

Lemma mapM_pairs (f : value → M string) props (ks : list propkey) S :
  mapM (λ k, s <- f (get props k) ;; ret (keyLabel k +:+ "=>" +:+ s)) ks S =
  (ss <- mapM f (get props <$> ks) ;;
   ret (zip_with (λ k s, keyLabel k +:+ "=>" +:+ s) ks ss)) S.
Proof.
  revert S. induction ks as [|k ks IH]; intros S; [done|].
  change (get props <$> (k :: ks)) with (get props k :: (get props <$> ks)).
  rewrite bind_eq, !mapM_cons, bind_eq.
  destruct (f (get props k) S) as [s S1| |]; try done.
  unfold ret at 1. rewrite IH, bind_eq.
  by destruct (mapM f _ S1).
Qed.

Lemma stringify_container n h a o seen :
  h !! a = Some o → is_container o = true →
  stringify (S n) h (Ref a) seen =
    if bool_decide (a ∈ seen) then Throw (circular o)
    else match mapM (stringify n h) (children o) ({[a]} ∪ seen) with
         | Val ss seen' => Val (assemble o ss) (seen' ∖ {[a]})
         | Throw e => Throw e
         | Stuck => Stuck
         end.
Proof.
  intros Ha Ho. cbn [stringify]. rewrite Ha.
  destruct o as [| | |elems|es|vs|props|]; try done;
    rewrite bind_eq; unfold seen_has at 1; case_bool_decide; try done;
    rewrite bind_eq; unfold seen_add at 1; rewrite bind_eq.
  - rewrite mapM_slots, bind_eq. cbn [children].
    destruct (mapM _ _ _); reflexivity.
  - rewrite mapM_entries, bind_eq. cbn [children].
    destruct (mapM _ _ _); reflexivity.
  - rewrite mapM_pairs, bind_eq. cbn [children].
    destruct (mapM _ _ _); reflexivity.
Qed.

Lemma leaf_or_container h v :
  leaf h v ∨ ∃ a o, v = Ref a ∧ h !! a = Some o ∧ is_container o = true.
Proof.
  destruct v as [| | | | | | | |a]; try (left; intros ???; discriminate).
  destruct (h !! a) as [o|] eqn:Ha.
  - destruct (is_container o) eqn:Ho.
    + right. by exists a, o.
    + left. intros a' o' [= <-] Ha'. congruence.
  - left. intros a' o' [= <-] Ha'. congruence.
Qed.

Lemma stringify_leaf n h v :
  leaf h v →
  ∃ r : option string,
    ∀ seen, stringify n h v seen = match r with Some s => Val s seen | None => Stuck end.
Proof.
  intros Hv. destruct n as [|n]; [by exists None|]. cbn [stringify].
  destruct v as [| | | | | | | |a]; try (eexists (Some _); reflexivity).
  destruct (h !! a) as [o|] eqn:Ha; [|by exists None].
  specialize (Hv a o eq_refl Ha).
  destruct o; try done; eexists (Some _); reflexivity.
Qed.


Lemma children_leaf o : is_container o = false → children o = [].
Proof. by destruct o. Qed.

(** *** [seen] is restored by every call that returns *)

Lemma stringify_restores n h v seen s seen' :
  stringify n h v seen = Val s seen' → seen' = seen.
Proof.
  revert v seen s seen'. induction n as [|n IH]; intros v seen s seen'; [done|].
  destruct (leaf_or_container h v) as [Hv|(a & o & -> & Ha & Ho)].
  - destruct (stringify_leaf (S n) h v Hv) as [[r|] Hr]; rewrite Hr; congruence.
  - rewrite (stringify_container _ _ _ _ _ Ha Ho).
    case_bool_decide as Hin; [done|].
    destruct (mapM _ _ _) as [ss S1| |] eqn:Hm; try done.
    intros [= <- <-].
    apply mapM_Val in Hm as [-> _]; [set_solver|].
    intros x S0 y S0' _. apply IH.
Qed.

Lemma stringify_restores_all n h l : restores (stringify n h) l.
Proof. intros x S0 y S0' _. apply stringify_restores. Qed.

(** *** More fuel does not change a result *)

Lemma stringify_fuel_mono n m h v seen s seen' :
  stringify n h v seen = Val s seen' → (n ≤ m)%nat →
  stringify m h v seen = Val s seen'.
Proof.
  revert m v seen s seen'.
  induction n as [|n IH]; intros m v seen s seen' Hn Hm; [done|].
  destruct m as [|m]; [lia|].
  destruct (leaf_or_container h v) as [Hv|(a & o & -> & Ha & Ho)].
  - revert Hn. cbn [stringify].
    destruct v as [| | | | | | | |a]; try done.
    destruct (h !! a) as [o|] eqn:Ha; [|done].
    specialize (Hv a o eq_refl Ha). by destruct o.
  - revert Hn. rewrite !(stringify_container _ _ _ _ _ Ha Ho).
    case_bool_decide as Hin; [done|].
    destruct (mapM (stringify n h) _ _) as [ss S1| |] eqn:Hmap; try done.
    intros [= <- <-].
    apply mapM_Val in Hmap as [-> HF]; [|apply stringify_restores_all].
    rewrite (mapM_Val_intro _ _ _ ss); [done|].
    eapply Forall2_impl; [exact HF|]. intros c sc Hc. apply IH; [done|lia].
Qed.

(** *** Reachability *)

Lemma reach_self h a : reach h (Ref a) a.
Proof. by exists a. Qed.

Lemma reach_child h a o c b :
  h !! a = Some o → c ∈ children o → reach h c b → reach h (Ref a) b.
Proof.
  intros Ha Hc (a' & -> & Hr). exists a. split; [done|].
  eapply rtc_l; [|done]. by exists o.
Qed.

Lemma reach_inv h a b :
  reach h (Ref a) b →
  b = a ∨ ∃ o c, h !! a = Some o ∧ c ∈ children o ∧ reach h c b.
Proof.
  intros (a' & [= <-] & Hr). inversion Hr as [|? x ? (o & Ha & Hx) Hxb]; subst.
  - by left.
  - right. exists o, (Ref x). split_and!; [done..|]. by exists x.
Qed.

Lemma cycle_inv h a :
  tc (edge h) a a →
  ∃ o x, h !! a = Some o ∧ Ref x ∈ children o ∧ reach h (Ref x) a.
Proof.
  intros Ht.
  assert (∃ x, edge h a x ∧ rtc (edge h) x a) as (x & (o & Ha & Hx) & Hr).
  { inversion Ht as [? ? He|? y ? He Hya]; subst.
    - by exists a.
    - exists y. split; [done|]. by apply tc_rtc. }
  exists o, x. split_and!; [done..|]. by exists x.
Qed.

Lemma cycle_intro h a o x :
  h !! a = Some o → Ref x ∈ children o → reach h (Ref x) a → tc (edge h) a a.
Proof.
  intros Ha Hx (x' & [= <-] & Hr).
  eapply tc_rtc_r; [|done]. apply tc_once. by exists o.
Qed.

(** *** What a result says about the object graph *)

Lemma leaf_reach h v b : leaf h v → reach h v b → v = Ref b.
Proof.
  intros Hv (a & -> & Hr). inversion Hr as [|? x ? (o & Ha & Hx) _]; subst; [done|].
  rewrite (children_leaf o) in Hx; [|by eapply Hv]. by apply elem_of_nil in Hx.
Qed.

Lemma leaf_not_hits h v seen : leaf h v → ¬ hits h v seen.
Proof.
  intros Hv (b & o & Hr & Hb & Ho & _).
  apply (leaf_reach _ _ _ Hv) in Hr. specialize (Hv b o Hr Hb). congruence.
Qed.

Lemma leaf_not_cyclic h v : leaf h v → ¬ cyclic h v.
Proof.
  intros Hv (b & Hr & Ht). apply (leaf_reach _ _ _ Hv) in Hr.
  apply cycle_inv in Ht as (o & x & Hb & Hx & _).
  rewrite (children_leaf o) in Hx; [|by eapply Hv]. by apply elem_of_nil in Hx.
Qed.

Lemma stringify_Val_graph n h v seen s seen' :
  stringify n h v seen = Val s seen' → ¬ hits h v seen ∧ ¬ cyclic h v.
Proof.
  revert v seen s seen'. induction n as [|n IH]; intros v seen s seen'; [done|].
  destruct (leaf_or_container h v) as [Hv|(a & o & -> & Ha & Ho)].
  { intros _. split; [by apply leaf_not_hits|by apply leaf_not_cyclic]. }
  rewrite (stringify_container _ _ _ _ _ Ha Ho).
  case_bool_decide as Hin; [done|].
  destruct (mapM _ _ _) as [ss S1| |] eqn:Hm; try done. intros _.
  apply mapM_Val in Hm as [_ HF]; [|apply stringify_restores_all].
  assert (∀ c, c ∈ children o → ¬ hits h c ({[a]} ∪ seen) ∧ ¬ cyclic h c) as Hch.
  { intros c Hc. destruct (mapM_Val_elem _ _ _ _ _ HF Hc) as [sc Hsc].
    by apply IH in Hsc. }
  split.
  - intros (b & ob & Hr & Hb & Hob & Hbs).
    apply reach_inv in Hr as [->|(o' & c & Ha' & Hc & Hr)]; [done|].
    assert (o' = o) as -> by congruence.
    apply (proj1 (Hch c Hc)). exists b, ob. split_and!; [done..|set_solver].
  - intros (b & Hr & Ht).
    apply reach_inv in Hr as [->|(o' & c & Ha' & Hc & Hr)].
    + apply cycle_inv in Ht as (o' & x & Ha' & Hx & Hr).
      assert (o' = o) as -> by congruence.
      apply (proj1 (Hch _ Hx)). exists a, o. split_and!; [done..|set_solver].
    + assert (o' = o) as -> by congruence.
      apply (proj2 (Hch c Hc)). by exists b.
Qed.

Lemma stringify_Throw_graph n h v seen e :
  stringify n h v seen = Throw e →
  ∃ b o, reach h v b ∧ h !! b = Some o ∧ is_container o = true ∧
         e = circular o ∧ (b ∈ seen ∨ tc (edge h) b b).
Proof.
  revert v seen. induction n as [|n IH]; intros v seen; [done|].
  destruct (leaf_or_container h v) as [Hv|(a & o & -> & Ha & Ho)].
  { destruct (stringify_leaf (S n) h v Hv) as [[r|] Hr]; by rewrite Hr. }
  rewrite (stringify_container _ _ _ _ _ Ha Ho).
  case_bool_decide as Hin.
  { intros [= <-]. exists a, o. split_and!; [apply reach_self|done..|by left]. }
  destruct (mapM _ _ _) as [ss S1| |] eqn:Hm; try done. intros [= ->].
  apply mapM_Throw in Hm as (c & Hc & Hthrow); [|apply stringify_restores_all].
  apply IH in Hthrow as (b & ob & Hr & Hb & Hob & -> & Hbs).
  exists b, ob. split_and!; [by eapply reach_child|done..|].
  destruct Hbs as [Hbs|Ht]; [|by right].
  apply elem_of_union in Hbs as [->%elem_of_singleton|Hbs]; [|by left].
  right. destruct Hr as (x & -> & Hr).
  apply (cycle_intro h a o x); [done..|by exists x].
Qed.

(** *** The fuel of a top-level call is enough *)


(** *** A result does not depend on the part of [seen] the value cannot reach *)

Lemma stringify_seen_irrel n h v seen s seen' seen2 :
  stringify n h v seen = Val s seen' → ¬ hits h v seen2 →
  stringify n h v seen2 = Val s seen2.
Proof.
  revert v seen s seen' seen2.
  induction n as [|n IH]; intros v seen s seen' seen2; [done|].
  destruct (leaf_or_container h v) as [Hv|(a & o & -> & Ha & Ho)].
  { destruct (stringify_leaf (S n) h v Hv) as [[r|] Hr]; rewrite !Hr; [|done].
    by intros [= <- <-]. }
  rewrite !(stringify_container _ _ _ _ _ Ha Ho).
  case_bool_decide as Hin; [done|].
  destruct (mapM _ _ _) as [ss S1| |] eqn:Hm; try done. intros [= <- <-] Hnh.
  apply mapM_Val in Hm as [_ HF]; [|apply stringify_restores_all].
  assert (a ∉ seen2) as Ha2.
  { intros Ha2. apply Hnh. exists a, o. split_and!; [apply reach_self|done..]. }
  rewrite bool_decide_false by done.
  rewrite (mapM_Val_intro _ _ _ ss).
  { f_equal. set_solver. }
  eapply Forall2_impl_elem; [exact HF|]. intros c sc Hc Hsc.
  eapply IH; [exact Hsc|].
  intros (b & ob & Hr & Hb & Hob & Hbs).
  apply elem_of_union in Hbs as [->%elem_of_singleton|Hbs].
  - apply stringify_Val_graph in Hsc as [Hsc _]. apply Hsc.
    exists a, o. split_and!; [done..|set_solver].
  - apply Hnh. exists b, ob. split_and!; [by eapply reach_child|done..].
Qed.

(** *** Totality and circular references *)



(** The collection that closes the cycle. *)







Lemma loops_closed : closed loops.
Proof. apply (bool_decide_unpack _). by vm_compute. Qed.



(** In [mutual] the array at 2 holds a Map and a Set that each contain
    themselves: the Map comes first and closes the cycle. *)
Example test_first_cycle :
  stableStringify mutual (Ref 2%nat) = Some (Err circular_Map) ∧
  closes mutual ∅ (Ref 2%nat) 3%nat.
Proof.
  split; [reflexivity|].
  eapply (closes_below mutual ∅ 2%nat _ [Num (Int 1)] (Ref 3%nat) [Ref 4%nat]);
    [reflexivity|reflexivity| |reflexivity| |].
  - apply not_elem_of_empty.
  - intros x ->%list_elem_of_singleton. split.
    + apply leaf_not_hits. by intros ???.
    + apply leaf_not_cyclic. by intros ???.
  - eapply (closes_below mutual _ 3%nat _ [Str "self"] (Ref 3%nat) []); [reflexivity|reflexivity| |reflexivity| |].
    + apply (bool_decide_unpack _). by vm_compute.
    + intros x ->%list_elem_of_singleton. split.
      * apply leaf_not_hits. by intros ???.
      * apply leaf_not_cyclic. by intros ???.
    + eapply closes_here; [reflexivity..|].
      apply (bool_decide_unpack _). by vm_compute.
Qed.

(** *** Tags *)

Lemma prefix_app a b : String.prefix a (a +:+ b) = true.
Proof.
  induction a as [|c a IH]; simpl; [by destruct b|].
  destruct (Ascii.ascii_dec c c); [done|congruence].
Qed.

Lemma prefix_comparable a b s :
  String.prefix a s = true → String.prefix b s = true →
  String.prefix a b = true ∨ String.prefix b a = true.
Proof.
  revert b s. induction a as [|c a IH]; intros b s; [by left; destruct b|].
  destruct b as [|d b]; [by right|]. destruct s as [|e s]; [done|]. simpl.
  destruct (Ascii.ascii_dec c e) as [->|]; [|done].
  destruct (Ascii.ascii_dec d e) as [->|]; [|done].
  destruct (Ascii.ascii_dec e e); [|congruence]. apply IH.
Qed.

Lemma tag_incomparable k1 k2 :
  k1 ≠ k2 → String.prefix (tag k1) (tag k2) = false.
Proof. destruct k1, k2; intros Hk; try done; reflexivity. Qed.

Lemma stringify_tag n h v seen s seen' k :
  stringify n h v seen = Val s seen' → kind_of h v = Some k →
  String.prefix (tag k) s = true.
Proof.
  destruct n as [|n]; [done|].
  destruct (leaf_or_container h v) as [Hv|(a & o & -> & Ha & Ho)].
  - cbn [stringify kind_of].
    destruct v as [| | |x| | | | |a];
      try (intros [= <- _] [= <-]; first [reflexivity|apply (prefix_app _ _)]).
    + intros [= <- _] [= <-].
      destruct (Number_isNaN x); [reflexivity|apply (prefix_app "num:")].
    + destruct (h !! a) as [o|] eqn:Ha; [|done].
      specialize (Hv a o eq_refl Ha).
      cbn [kind_of]. rewrite Ha.
      destruct o as [[iso|]| | | | | | |]; try done;
        intros [= <- _] [= <-]; first [reflexivity|apply (prefix_app _ _)].
  - rewrite (stringify_container _ _ _ _ _ Ha Ho). cbn [kind_of]. rewrite Ha.
    case_bool_decide; [done|].
    destruct (mapM _ _ _) as [ss S1| |]; try done.
    destruct o; try done; intros [= <- _] [= <-]; apply (prefix_app _ _).
Qed.

(** C8. Two values of different kinds never serialise to the same string:
    the output of each kind starts with that kind's tag, and no tag is a
    prefix of another. *)
Theorem stableStringify_kinds_differ (h : heap) (v1 v2 : value) (k1 k2 : kind) (s1 s2 : string) :
  kind_of h v1 = Some k1 → kind_of h v2 = Some k2 → k1 ≠ k2 →
  stableStringify h v1 = Some (Ok s1) → stableStringify h v2 = Some (Ok s2) →
  String.prefix (tag k1) s1 = true ∧ String.prefix (tag k2) s2 = true ∧ s1 ≠ s2.
Proof.
  unfold stableStringify, run. intros Hk1 Hk2 Hne H1 H2.
  destruct (stringify _ h v1 ∅) as [s1' ?| |] eqn:E1; try done.
  destruct (stringify _ h v2 ∅) as [s2' ?| |] eqn:E2; try done.
  injection H1 as ->. injection H2 as ->.
  pose proof (stringify_tag _ _ _ _ _ _ _ E1 Hk1) as P1.
  pose proof (stringify_tag _ _ _ _ _ _ _ E2 Hk2) as P2.
  split_and!; [done..|]. intros <-.
  destruct (prefix_comparable _ _ _ P1 P2) as [P|P].
  - by rewrite tag_incomparable in P.
  - by rewrite tag_incomparable in P.
Qed.

Lemma stableStringify_kinds_differ_witness :
  kind_of data (Ref 0%nat) = Some K_array ∧
  kind_of data (Str "todos") = Some K_string ∧
  K_array ≠ K_string ∧
  stableStringify data (Ref 0%nat) =
    Some (Ok ("[str:" +:+ JS.dquote +:+ "todos" +:+ JS.dquote +:+ "]")) ∧
  stableStringify data (Str "todos") =
    Some (Ok ("str:" +:+ JS.dquote +:+ "todos" +:+ JS.dquote)) ∧
  String.prefix (tag K_array)
    ("[str:" +:+ JS.dquote +:+ "todos" +:+ JS.dquote +:+ "]") = true ∧
  String.prefix (tag K_string) ("str:" +:+ JS.dquote +:+ "todos" +:+ JS.dquote) = true ∧
  "[str:" +:+ JS.dquote +:+ "todos" +:+ JS.dquote +:+ "]" ≠
  "str:" +:+ JS.dquote +:+ "todos" +:+ JS.dquote.
Proof.
  assert (K_array ≠ K_string) as Hne by done.
  split; [reflexivity|]. split; [reflexivity|]. split; [exact Hne|].
  split; [reflexivity|]. split; [reflexivity|].
  exact (stableStringify_kinds_differ data (Ref 0%nat) (Str "todos") K_array K_string
           _ _ eq_refl eq_refl Hne eq_refl eq_refl).
Defined.

(** *** Containers with the same children *)

Lemma Forall2_fmap_intro {A B} (P : A → B → Prop) (f : A → B) l :
  (∀ x, x ∈ l → P x (f x)) → Forall2 P l (f <$> l).
Proof.
  induction l as [|x l IH]; intros H; constructor.
  - apply H. left.
  - apply IH. intros y Hy. apply H. by right.
Qed.

Lemma Forall2_fmap_eq {A B} (P : A → B → Prop) (f : A → B) l k :
  Forall2 P l k → (∀ x y, x ∈ l → P x y → y = f x) → k = f <$> l.
Proof.
  induction 1 as [|x y l k Hxy _ IH]; intros H; [done|]. cbn. f_equal.
  - apply H; [left|done].
  - apply IH. intros x' y' Hx'. apply H. by right.
Qed.

Lemma stringify_serialized n h c seen sc seen' :
  stringify n h c seen = Val sc seen' → (n ≤ S (size h))%nat →
  stableStringify h c = Some (Ok sc).
Proof.
  intros Hc Hn. unfold stableStringify, run.
  erewrite stringify_fuel_mono; [done| |exact Hn].
  eapply stringify_seen_irrel; [exact Hc|].
  intros (b & o & _ & _ & _ & Hb). set_solver.
Qed.

Lemma stableStringify_container_inv h a o s :
  h !! a = Some o → is_container o = true →
  stableStringify h (Ref a) = Some (Ok s) →
  Forall2 (λ c sc, stringify (size h) h c {[a]} = Val sc {[a]})
          (children o) (serialized h <$> children o) ∧
  s = assemble o (serialized h <$> children o).
Proof.
  intros Ha Ho. unfold stableStringify, run.
  rewrite (stringify_container _ _ _ _ _ Ha Ho).
  rewrite bool_decide_false by set_solver.
  rewrite (right_id_L ∅ (∪)).
  destruct (mapM _ _ _) as [ss S1| |] eqn:Hm; try done. intros [= <-].
  apply mapM_Val in Hm as [_ HF]; [|apply stringify_restores_all].
  assert (ss = serialized h <$> children o) as ->; [|done].
  eapply Forall2_fmap_eq; [exact HF|]. intros c sc _ Hc. cbn beta in Hc.
  unfold serialized. by erewrite stringify_serialized; [|exact Hc|lia].
Qed.

(** If every child of [b] is a child of [a] and [a] serialises, so does [b]. *)
Lemma stableStringify_sibling h a b oa ob s :
  h !! a = Some oa → h !! b = Some ob →
  is_container oa = true → is_container ob = true →
  (∀ c, c ∈ children ob → c ∈ children oa) →
  stableStringify h (Ref a) = Some (Ok s) →
  s = assemble oa (serialized h <$> children oa) ∧
  stableStringify h (Ref b) =
    Some (Ok (assemble ob (serialized h <$> children ob))).
Proof.
  intros Ha Hb Hoa Hob Hsub Hs.
  destruct (stableStringify_container_inv _ _ _ _ Ha Hoa Hs) as [HF ->].
  split; [done|]. unfold stableStringify, run.
  rewrite (stringify_container _ _ _ _ _ Hb Hob).
  rewrite bool_decide_false by set_solver.
  rewrite (right_id_L ∅ (∪)).
  rewrite (mapM_Val_intro _ _ _ (serialized h <$> children ob)); [done|].
  apply Forall2_fmap_intro. intros c Hc.
  destruct (mapM_Val_elem _ _ _ _ _ HF (Hsub c Hc)) as [sc Hsc].
  assert (sc = serialized h c) as <-.
  { unfold serialized. by erewrite stringify_serialized; [|exact Hsc|lia]. }
  eapply stringify_seen_irrel; [exact Hsc|].
  intros (b' & o' & Hr & _ & _ & ->%elem_of_singleton).
  apply stringify_Val_graph in Hsc as [_ Hcyc]. apply Hcyc.
  exists b. split; [done|]. destruct Hr as (x & -> & Hr).
  apply (cycle_intro h b ob x); [done..|by exists x].
Qed.

(** *** Maps *)

Lemma pair_up_children (f : value → string) (es : list (value * value)) :
  pair_up (f <$> (es ≫= (λ e, [e.1; e.2]))) = (λ e, (f e.1, f e.2)) <$> es.
Proof. induction es as [|[k v] es IH]; [done|]. cbn. by rewrite <- IH. Qed.

Lemma children_Ok h a o s c :
  h !! a = Some o → is_container o = true →
  stableStringify h (Ref a) = Some (Ok s) → c ∈ children o →
  stableStringify h c = Some (Ok (serialized h c)).
Proof.
  intros Ha Ho Hs Hc.
  destruct (stableStringify_container_inv _ _ _ _ Ha Ho Hs) as [HF _].
  destruct (mapM_Val_elem _ _ _ _ _ HF Hc) as [sc Hsc].
  unfold serialized. by erewrite !stringify_serialized; [|exact Hsc|lia].
Qed.

(** X22. Two Maps with the same entries in different insertion orders
    serialise to the same string whenever entries whose keys serialise
    alike have values that serialise alike; the string lists the entries
    sorted by serialised key, each as [key:value]. *)
Theorem map_insertion_order (h : heap) (a b : addr) (es1 es2 : list (value * value)) (s : string) :
  h !! a = Some (MapObj es1) → h !! b = Some (MapObj es2) → es1 ≡ₚ es2 →
  (∀ e1 e2, e1 ∈ es1 → e2 ∈ es1 →
            serialized h e1.1 = serialized h e2.1 →
            serialized h e1.2 = serialized h e2.2) →
  stableStringify h (Ref a) = Some (Ok s) →
  stableStringify h (Ref b) = Some (Ok s) ∧
  s = "map:{" +:+
      map_entries ((λ e, (serialized h e.1, serialized h e.2)) <$> es1) +:+ "}".
Proof.
  intros Ha Hb Hp Hinj Hs.
  destruct (stableStringify_sibling h a b _ _ s Ha Hb eq_refl eq_refl) as [Hsa Hsb];
    [|done|].
  { intros c. cbn [children]. by rewrite Hp. }
  cbn [assemble children] in Hsa, Hsb. rewrite pair_up_children in Hsa, Hsb.
  split; [|done]. rewrite Hsb, Hsa. unfold map_entries.
  set (F := λ e : value * value, (serialized h e.1, serialized h e.2)).
  set (cmp := λ a b : string * string,
         if JS.lt a.1 b.1 then -1 else if JS.lt b.1 a.1 then 1 else 0).
  enough (JS.sort cmp (F <$> es1) = JS.sort cmp (F <$> es2)) as -> by done.
  apply (JSFacts.sort_unique fst).
  - intros x y. apply JSFacts.comparator_le.
  - by rewrite Hp.
  - intros x y (e1 & -> & H1)%list_elem_of_fmap (e2 & -> & H2)%list_elem_of_fmap.
    unfold F. cbn [fst]. intros Hk. by rewrite Hk, (Hinj e1 e2 H1 H2 Hk).
Qed.

Lemma map_insertion_order_witness :
  let es1 := [(Sym sym_k1, Num (Int 1)); (Str "a", Num (Int 2)); (Sym sym_k2, Num (Int 1))] in
  let es2 := [(Sym sym_k2, Num (Int 1)); (Sym sym_k1, Num (Int 1)); (Str "a", Num (Int 2))] in
  let s := "map:{str:" +:+ JS.dquote +:+ "a" +:+ JS.dquote +:+
           ":num:2,sym:k:num:1,sym:k:num:1}" in
  alike !! 0%nat = Some (MapObj es1) ∧ alike !! 1%nat = Some (MapObj es2) ∧
  es1 ≡ₚ es2 ∧
  (∀ e1 e2, e1 ∈ es1 → e2 ∈ es1 →
            serialized alike e1.1 = serialized alike e2.1 →
            serialized alike e1.2 = serialized alike e2.2) ∧
  stableStringify alike (Ref 0%nat) = Some (Ok s) ∧
  stableStringify alike (Ref 1%nat) = Some (Ok s) ∧
  s = "map:{" +:+
      map_entries ((λ e, (serialized alike e.1, serialized alike e.2)) <$> es1) +:+ "}".
Proof.
  intros es1 es2 s.
  assert (es1 ≡ₚ es2) as Hp.
  { unfold es1, es2. etrans; [apply Permutation_skip, Permutation_swap|].
    apply Permutation_swap. }
  assert (∀ e1 e2, e1 ∈ es1 → e2 ∈ es1 →
            serialized alike e1.1 = serialized alike e2.1 →
            serialized alike e1.2 = serialized alike e2.2) as Hinj.
  { intros e1 e2 H1 H2.
    apply list_elem_of_In in H1, H2. simpl in H1, H2.
    destruct H1 as [<-|[<-|[<-|[]]]], H2 as [<-|[<-|[<-|[]]]];
      intros Hk; first [reflexivity|by vm_compute in Hk]. }
  split; [reflexivity|]. split; [reflexivity|]. split; [exact Hp|].
  split; [exact Hinj|]. split; [reflexivity|].
  exact (map_insertion_order alike 0%nat 1%nat es1 es2 s eq_refl eq_refl Hp Hinj eq_refl).
Defined.

(** C1.  The code at the failing input.  The Maps at 0 and 1 of [collide]
    hold the same two entries in opposite insertion orders and serialise
    differently: their keys are two symbols with one description, the sort
    compares the serialised keys only and leaves such entries in insertion
    order.  The Map at 6 is not serialised by sorting its serialised
    entries either: [sym:a] precedes [sym:a!] while the entry
    [sym:a!:num:2] precedes [sym:a:num:1]. *)
Lemma map_insertion_order_counterexample :
  let es1 := [(Sym sym_k1, Num (Int 1)); (Sym sym_k2, Num (Int 2))] in
  let es2 := [(Sym sym_k2, Num (Int 2)); (Sym sym_k1, Num (Int 1))] in
  (collide !! 0%nat = Some (MapObj es1) ∧ collide !! 1%nat = Some (MapObj es2) ∧
   es1 ≡ₚ es2 ∧ NoDup es1.*1 ∧
   stableStringify collide (Ref 0%nat) = Some (Ok "map:{sym:k:num:1,sym:k:num:2}") ∧
   stableStringify collide (Ref 1%nat) = Some (Ok "map:{sym:k:num:2,sym:k:num:1}") ∧
   stableStringify collide (Ref 0%nat) ≠ stableStringify collide (Ref 1%nat)) ∧
  (stableStringify collide (Ref 6%nat) = Some (Ok "map:{sym:a:num:1,sym:a!:num:2}") ∧
   "map:{" +:+ spec_map_entries [("sym:a", "num:1"); ("sym:a!", "num:2")] +:+ "}"
     = "map:{sym:a!:num:2,sym:a:num:1}").
Proof.
  intros es1 es2. split_and!; try reflexivity.
  - apply Permutation_swap.
  - apply (bool_decide_unpack _). by vm_compute.
  - vm_compute. intros [=].
Qed.

(** *** Plain objects *)

Lemma get_elem p k v : NoDup p.*1 → (k, v) ∈ p → get p k = v.
Proof.
  induction p as [|[k' v'] p IH]; intros Hnd Hin; [by apply elem_of_nil in Hin|].
  cbn in Hnd. apply NoDup_cons in Hnd as [Hk' Hnd]. cbn.
  apply elem_of_cons in Hin as [[= <- <-]|Hin].
  - by rewrite bool_decide_true.
  - rewrite bool_decide_false; [by apply IH|].
    intros ->. apply Hk'. apply list_elem_of_fmap. by exists (k, v).
Qed.

Lemma get_absent p k : k ∉ p.*1 → get p k = Undefined.
Proof.
  induction p as [|[k' v'] p IH]; intros Hk; [done|]. cbn in *.
  apply not_elem_of_cons in Hk as [Hne Hk].
  rewrite bool_decide_false by done. by apply IH.
Qed.

Lemma get_Permutation p1 p2 k : NoDup p1.*1 → p1 ≡ₚ p2 → get p1 k = get p2 k.
Proof.
  intros Hnd Hp. destruct (decide (k ∈ p1.*1)) as [Hk|Hk].
  - apply list_elem_of_fmap in Hk as ([k' v] & -> & Hkv). cbn.
    rewrite (get_elem p1 k' v), (get_elem p2 k' v); try done.
    + by rewrite <- Hp.
    + by rewrite <- Hp.
  - rewrite !get_absent; try done. by rewrite <- Hp.
Qed.

Lemma SortCompare_le x y : JS.SortCompare x y ≤ 0 ↔ String.leb x y = true.
Proof. apply JSFacts.comparator_le. Qed.

Lemma ownKeysSorted_Permutation p1 p2 :
  p1 ≡ₚ p2 →
  (∀ s1 s2, s1 ∈ Object_getOwnPropertySymbols p1 →
            s2 ∈ Object_getOwnPropertySymbols p1 →
            description_or_empty s1 = description_or_empty s2 → s1 = s2) →
  ownKeysSorted p1 = ownKeysSorted p2.
Proof.
  intros Hp Hinj. unfold ownKeysSorted. f_equal; f_equal.
  - apply (JSFacts.sort_unique id); [apply SortCompare_le| |done].
    unfold Object_keys. by rewrite Hp.
  - apply (JSFacts.sort_unique description_or_empty); [|by unfold Object_getOwnPropertySymbols; rewrite Hp|done].
    intros x y. apply JSFacts.comparator_le.
Qed.

Lemma ownKeysSorted_Sorted p :
  ∃ ks ss, ownKeysSorted p = ((KStr <$> ks) ++ (KSym <$> ss))%list ∧
           Sorted (λ x y, String.leb x y = true) ks ∧ Sorted description_le ss.
Proof.
  eexists _, _. split; [reflexivity|]. split.
  - apply (JSFacts.sort_Sorted id), SortCompare_le.
  - apply (JSFacts.sort_Sorted description_or_empty).
    intros x y. apply JSFacts.comparator_le.
Qed.

Lemma zip_with_fmap_r {A B C} (f : A → B → C) (g : A → B) l :
  zip_with f l (g <$> l) = (λ x, f x (g x)) <$> l.
Proof. induction l as [|x l IH]; [done|]. cbn. by rewrite IH. Qed.

Lemma own_keys_partition (obj : list (propkey * value)) :
  (KStr <$> Object_keys obj) ++ (KSym <$> Object_getOwnPropertySymbols obj) ≡ₚ obj.*1.
Proof.
  unfold Object_keys, Object_getOwnPropertySymbols.
  induction obj as [|[[s|y] v] obj IH]; [done| |]; cbn.
  - by rewrite IH.
  - by rewrite <- Permutation_middle, IH.
Qed.

Lemma ownKeysSorted_all (obj : list (propkey * value)) : ownKeysSorted obj ≡ₚ obj.*1.
Proof.
  rewrite <- own_keys_partition. unfold ownKeysSorted.
  by rewrite !JSFacts.sort_Permutation.
Qed.

(** X23. Two plain objects whose own properties are permutations of each
    other serialise to the same string whenever symbol keys of one
    description (an absent description counting as the empty one) have
    values that serialise alike; the string lists the string keys in
    sorted order, then the symbol keys sorted by description. *)
Theorem object_key_order (h : heap) (a b : addr) (p1 p2 : list (propkey * value)) (s : string) :
  h !! a = Some (PlainObject p1) → h !! b = Some (PlainObject p2) →
  p1 ≡ₚ p2 → NoDup p1.*1 →
  (∀ s1 s2, s1 ∈ Object_getOwnPropertySymbols p1 →
            s2 ∈ Object_getOwnPropertySymbols p1 →
            description_or_empty s1 = description_or_empty s2 →
            serialized h (get p1 (KSym s1)) = serialized h (get p1 (KSym s2))) →
  stableStringify h (Ref a) = Some (Ok s) →
  stableStringify h (Ref b) = Some (Ok s) ∧
  ∃ ks ss,
    ownKeysSorted p1 = ((KStr <$> ks) ++ (KSym <$> ss))%list ∧
    Sorted (λ x y, String.leb x y = true) ks ∧ Sorted description_le ss ∧
    s = "{" +:+
        JS.join "," ((λ k, keyLabel k +:+ "=>" +:+ serialized h (get p1 k))
                     <$> ownKeysSorted p1) +:+ "}".
Proof.
  intros Ha Hb Hp Hnd Hval Hs.
  assert (∀ k, get p2 k = get p1 k) as Hget
    by (intros k; symmetry; by apply get_Permutation).
  destruct (stableStringify_sibling h a b _ _ s Ha Hb eq_refl eq_refl) as [Hsa Hsb];
    [|done|].
  { intros c. cbn [children]. intros (k & -> & Hk)%list_elem_of_fmap.
    rewrite Hget. apply list_elem_of_fmap_2.
    rewrite ownKeysSorted_all in Hk |- *. by rewrite Hp. }
  cbn [assemble children] in Hsa, Hsb.
  rewrite <- list_fmap_compose, zip_with_fmap_r in Hsa, Hsb.
  assert ((λ k, keyLabel k +:+ "=>" +:+ (serialized h ∘ get p2) k) <$> ownKeysSorted p2 =
          (λ k, keyLabel k +:+ "=>" +:+ (serialized h ∘ get p1) k) <$> ownKeysSorted p1)
    as Heq.
  { unfold ownKeysSorted. rewrite !fmap_app, <- !list_fmap_compose. f_equal.
    - rewrite (JSFacts.sort_unique id JS.SortCompare SortCompare_le
                 (Object_keys p2) (Object_keys p1)); [| |done].
      + apply list_fmap_ext. intros _ k _. cbn. by rewrite Hget.
      + unfold Object_keys. by rewrite Hp.
    - etrans; [apply list_fmap_ext; intros _ k _; cbn; by rewrite Hget|].
      symmetry. apply (JSFacts.sort_fmap_unique description_or_empty).
      + intros x y. apply JSFacts.comparator_le.
      + unfold Object_getOwnPropertySymbols. by rewrite Hp.
      + intros x y Hx Hy Hd. cbn. by rewrite Hd, (Hval x y Hx Hy Hd). }
  rewrite Heq, <- Hsa in Hsb. split; [done|].
  destruct (ownKeysSorted_Sorted p1) as (ks & ss & Hks & Hsk & Hss).
  exists ks, ss. by split_and!.
Qed.

Lemma object_key_order_witness :
  let p1 := [(KSym sym_k1, Num (Int 1)); (KStr "b", Num (Int 2)); (KSym sym_k2, Num (Int 1))] in
  let p2 := [(KSym sym_k2, Num (Int 1)); (KSym sym_k1, Num (Int 1)); (KStr "b", Num (Int 2))] in
  let s := "{key:" +:+ JS.dquote +:+ "b" +:+ JS.dquote +:+
           "=>num:2,keysym:k=>num:1,keysym:k=>num:1}" in
  alike !! 2%nat = Some (PlainObject p1) ∧ alike !! 3%nat = Some (PlainObject p2) ∧
  p1 ≡ₚ p2 ∧ NoDup p1.*1 ∧
  (∀ s1 s2, s1 ∈ Object_getOwnPropertySymbols p1 →
            s2 ∈ Object_getOwnPropertySymbols p1 →
            description_or_empty s1 = description_or_empty s2 →
            serialized alike (get p1 (KSym s1)) = serialized alike (get p1 (KSym s2))) ∧
  stableStringify alike (Ref 2%nat) = Some (Ok s) ∧
  stableStringify alike (Ref 3%nat) = Some (Ok s) ∧
  ∃ ks ss,
    ownKeysSorted p1 = ((KStr <$> ks) ++ (KSym <$> ss))%list ∧
    Sorted (λ x y, String.leb x y = true) ks ∧ Sorted description_le ss ∧
    s = "{" +:+
        JS.join "," ((λ k, keyLabel k +:+ "=>" +:+ serialized alike (get p1 k))
                     <$> ownKeysSorted p1) +:+ "}".
Proof.
  intros p1 p2 s.
  assert (p1 ≡ₚ p2) as Hp.
  { unfold p1, p2. etrans; [apply Permutation_skip, Permutation_swap|].
    apply Permutation_swap. }
  assert (NoDup p1.*1) as Hnd by (apply (bool_decide_unpack _); by vm_compute).
  assert (∀ s1 s2, s1 ∈ Object_getOwnPropertySymbols p1 →
            s2 ∈ Object_getOwnPropertySymbols p1 →
            description_or_empty s1 = description_or_empty s2 →
            serialized alike (get p1 (KSym s1)) = serialized alike (get p1 (KSym s2)))
    as Hval.
  { intros s1 s2 H1 H2. apply list_elem_of_In in H1, H2. simpl in H1, H2.
    destruct H1 as [<-|[<-|[]]], H2 as [<-|[<-|[]]]; intros _; reflexivity. }
  split; [reflexivity|]. split; [reflexivity|]. split; [exact Hp|].
  split; [exact Hnd|]. split; [exact Hval|]. split; [reflexivity|].
  exact (object_key_order alike 2%nat 3%nat p1 p2 s eq_refl eq_refl Hp Hnd Hval eq_refl).
Defined.

(** C2.  The code at the failing input.  The objects at 2 and 3 of
    [collide] have the same two symbol-keyed properties, added in opposite
    orders; the two symbols have the same description, the sort leaves them
    in property order, and the strings differ. *)
Lemma object_key_order_counterexample :
  let p1 := [(KSym sym_k1, Num (Int 1)); (KSym sym_k2, Num (Int 2))] in
  let p2 := [(KSym sym_k2, Num (Int 2)); (KSym sym_k1, Num (Int 1))] in
  collide !! 2%nat = Some (PlainObject p1) ∧ collide !! 3%nat = Some (PlainObject p2) ∧
  p1 ≡ₚ p2 ∧ NoDup p1.*1 ∧ (∀ k, get p1 k = get p2 k) ∧
  stableStringify collide (Ref 2%nat) = Some (Ok "{keysym:k=>num:1,keysym:k=>num:2}") ∧
  stableStringify collide (Ref 3%nat) = Some (Ok "{keysym:k=>num:2,keysym:k=>num:1}") ∧
  stableStringify collide (Ref 2%nat) ≠ stableStringify collide (Ref 3%nat).
Proof.
  intros p1 p2.
  assert (NoDup p1.*1) as Hnd by (apply (bool_decide_unpack _); by vm_compute).
  split_and!; try reflexivity.
  - apply Permutation_swap.
  - done.
  - intros k. apply get_Permutation; [done|apply Permutation_swap].
  - vm_compute. intros [=].
Qed.

(** *** Arrays *)

Lemma append_inv_head a c d : a +:+ c = a +:+ d → c = d.
Proof. induction a as [|x a IH]; simpl; [done|]. intros [= H]. by apply IH. Qed.

Lemma append_inv_tail a b c : a +:+ String c EmptyString = b +:+ String c EmptyString → a = b.
Proof.
  revert b. induction a as [|x a IH]; intros [|y b]; simpl; try done.
  - intros [= -> H]. by destruct b.
  - intros [= -> H]. by destruct a.
  - intros [= -> H]. f_equal. by apply IH.
Qed.

Lemma append_nil_l s : EmptyString +:+ s = s.
Proof. reflexivity. Qed.

Lemma append_cons c a s : String c a +:+ s = String c (a +:+ s).
Proof. reflexivity. Qed.

Lemma prefix_cons c a b :
  String.prefix (String c a) (String c b) = String.prefix a b.
Proof. cbn. by destruct (Ascii.ascii_dec c c). Qed.

Lemma append_comma_differ a b c d :
  a +:+ "," +:+ c = b +:+ "," +:+ d → a ≠ b →
  String.prefix (a +:+ ",") b = true ∨ String.prefix (b +:+ ",") a = true.
Proof.
  revert b. induction a as [|x a IH]; intros [|y b]; try done;
    rewrite ?append_nil_l, ?append_cons.
  - intros [= <- _] _. left. rewrite prefix_cons. by destruct b.
  - intros [= -> _] _. right. rewrite prefix_cons. by destruct a.
  - intros [= -> H] Hne. rewrite !prefix_cons. apply IH; [done|congruence].
Qed.

(** Two joined lists of the same length are equal only if the lists are, or
    if somewhere an element followed by a comma is a prefix of the element
    of the other list. *)
Lemma join_eq_differ (l1 l2 : list string) :
  List.length l1 = List.length l2 → JS.join "," l1 = JS.join "," l2 →
  l1 = l2 ∨ ∃ x y, x ∈ l1 ∧ y ∈ l2 ∧ x ≠ y ∧
                    (String.prefix (x +:+ ",") y = true ∨
                     String.prefix (y +:+ ",") x = true).
Proof.
  revert l2. induction l1 as [|x l1 IH]; intros [|y l2]; try done; [by left|].
  intros [= Hlen] Hjoin.
  destruct (decide (x = y)) as [->|Hne].
  - assert (JS.join "," l1 = JS.join "," l2) as Hrest.
    { unfold JS.join in *. cbn [String.concat] in Hjoin.
      destruct l1 as [|x' l1], l2 as [|y' l2]; try done.
      apply append_inv_head in Hjoin. by injection Hjoin. }
    destruct (IH l2 Hlen Hrest) as [->|(x' & y' & Hx' & Hy' & Hne & Hpre)];
      [by left|].
    right. exists x', y'. split_and!; [by right|by right|done..].
  - right. exists x, y. split_and!; [left|left|done|].
    unfold JS.join in *. cbn [String.concat] in Hjoin.
    destruct l1 as [|x' l1], l2 as [|y' l2]; try done.
    by eapply append_comma_differ.
Qed.

Lemma fmap_eq_differ {A B} `{EqDecision A} (f : A → B) (l1 l2 : list A) :
  f <$> l1 = f <$> l2 →
  l1 = l2 ∨ ∃ x y, x ∈ l1 ∧ y ∈ l2 ∧ x ≠ y ∧ f x = f y.
Proof.
  revert l2. induction l1 as [|x l1 IH]; intros [|y l2]; try done; [by left|].
  cbn. intros [= Hxy Hl].
  destruct (decide (x = y)) as [->|Hne].
  - destruct (IH l2 Hl) as [->|(x' & y' & Hx' & Hy' & Hne & Hf)]; [by left|].
    right. exists x', y'. split_and!; [by right|by right|done..].
  - right. exists x, y. split_and!; [left|left|done..].
Qed.

Lemma fill_holes_slots (f : value → string) (elems : list (option value)) :
  fill_holes elems (f <$> omap id elems) =
  (λ x, match x with None => EmptyString | Some v => f v end) <$> elems.
Proof.
  induction elems as [|[v|] elems IH]; [done| |]; cbn; by rewrite <- IH.
Qed.

(** X24. The string of an array is the comma-join of
    what its slots serialise to, in order and in brackets.  Two arrays with
    the same elements in different orders serialise differently when
    different elements have different serialisations and the serialisation
    of none, followed by a comma, is a prefix of the serialisation of
    another. *)
Theorem array_order (h : heap) (a b : addr) (la lb : list (option value)) (sa sb : string) :
  h !! a = Some (Array la) → h !! b = Some (Array lb) →
  la ≡ₚ lb → la ≠ lb →
  (∀ x y, x ∈ la → y ∈ la → x ≠ y →
          slot_string h x ≠ slot_string h y ∧
          String.prefix (slot_string h x +:+ ",") (slot_string h y) = false) →
  stableStringify h (Ref a) = Some (Ok sa) →
  stableStringify h (Ref b) = Some (Ok sb) →
  sa ≠ sb ∧
  sa = "[" +:+ JS.join "," (slot_string h <$> la) +:+ "]" ∧
  sb = "[" +:+ JS.join "," (slot_string h <$> lb) +:+ "]".
Proof.
  intros Ha Hb Hp Hne Hpre Hsa Hsb.
  destruct (stableStringify_container_inv _ _ _ _ Ha eq_refl Hsa) as [_ ->].
  destruct (stableStringify_container_inv _ _ _ _ Hb eq_refl Hsb) as [_ ->].
  cbn [assemble children]. rewrite !fill_holes_slots.
  change (λ x, match x with None => EmptyString | Some v => serialized h v end)
    with (slot_string h).
  split; [|done]. intros [= Heq].
  apply (append_inv_tail _ _ "]"%char) in Heq.
  assert (∀ x y, x ∈ la → y ∈ lb → x ≠ y →
            slot_string h x ≠ slot_string h y ∧
            String.prefix (slot_string h x +:+ ",") (slot_string h y) = false ∧
            String.prefix (slot_string h y +:+ ",") (slot_string h x) = false) as Hno.
  { intros x y Hx Hy Hxy. rewrite <- Hp in Hy.
    destruct (Hpre x y Hx Hy Hxy) as [H1 H2].
    destruct (Hpre y x Hy Hx (not_eq_sym Hxy)) as [_ H3]. done. }
  apply join_eq_differ in Heq as [Heq|(x' & y' & Hx' & Hy' & Hne' & Hpre')].
  - apply fmap_eq_differ in Heq as [->|(x & y & Hx & Hy & Hxy & Hf)]; [done|].
    by destruct (Hno x y Hx Hy Hxy) as [H _].
  - apply list_elem_of_fmap in Hx' as (x & -> & Hx).
    apply list_elem_of_fmap in Hy' as (y & -> & Hy).
    assert (x ≠ y) as Hxy by congruence.
    destruct (Hno x y Hx Hy Hxy) as (_ & H1 & H2).
    destruct Hpre' as [H|H]; congruence.
  - rewrite !length_fmap. by apply Permutation_length.
Qed.

Lemma array_order_witness :
  let la := [Some (Num (Int 1)); Some (Num (Int 2)); Some (Num (Int 3))] in
  let lb := [Some (Num (Int 3)); Some (Num (Int 2)); Some (Num (Int 1))] in
  data !! 6%nat = Some (Array la) ∧ data !! 7%nat = Some (Array lb) ∧
  la ≡ₚ lb ∧ la ≠ lb ∧
  (∀ x y, x ∈ la → y ∈ la → x ≠ y →
          slot_string data x ≠ slot_string data y ∧
          String.prefix (slot_string data x +:+ ",") (slot_string data y) = false) ∧
  stableStringify data (Ref 6%nat) = Some (Ok "[num:1,num:2,num:3]") ∧
  stableStringify data (Ref 7%nat) = Some (Ok "[num:3,num:2,num:1]") ∧
  "[num:1,num:2,num:3]" ≠ "[num:3,num:2,num:1]" ∧
  "[num:1,num:2,num:3]" = "[" +:+ JS.join "," (slot_string data <$> la) +:+ "]" ∧
  "[num:3,num:2,num:1]" = "[" +:+ JS.join "," (slot_string data <$> lb) +:+ "]".
Proof.
  intros la lb.
  assert (la ≡ₚ lb) as Hp by apply (reverse_Permutation lb).
  assert (la ≠ lb) as Hne by done.
  assert (∀ x y, x ∈ la → y ∈ la → x ≠ y →
            slot_string data x ≠ slot_string data y ∧
            String.prefix (slot_string data x +:+ ",") (slot_string data y) = false)
    as Hpre.
  { intros x y Hx Hy. apply list_elem_of_In in Hx, Hy. simpl in Hx, Hy.
    destruct Hx as [<-|[<-|[<-|[]]]], Hy as [<-|[<-|[<-|[]]]];
      intros Hxy; try done; (split; [by vm_compute|reflexivity]). }
  split; [reflexivity|]. split; [reflexivity|]. split; [exact Hp|].
  split; [exact Hne|]. split; [exact Hpre|].
  split; [reflexivity|]. split; [reflexivity|].
  exact (array_order data 6%nat 7%nat la lb _ _ eq_refl eq_refl Hp Hne Hpre
           eq_refl eq_refl).
Defined.

(** C9.  The code at the failing input.  The arrays at 4 and 5 of
    [collide] hold the same two symbols, of different descriptions, in
    opposite orders, and serialise to the same string: descriptions are
    copied unescaped, and the description of one of them contains a
    comma. *)
Lemma array_order_counterexample :
  let la := [Some (Sym sym_x); Some (Sym sym_xx)] in
  let lb := [Some (Sym sym_xx); Some (Sym sym_x)] in
  collide !! 4%nat = Some (Array la) ∧ collide !! 5%nat = Some (Array lb) ∧
  la ≡ₚ lb ∧ la ≠ lb ∧ Sym sym_x ≠ Sym sym_xx ∧
  description sym_x ≠ description sym_xx ∧
  stableStringify collide (Sym sym_x) ≠ stableStringify collide (Sym sym_xx) ∧
  stableStringify collide (Ref 4%nat) = Some (Ok "[sym:x,sym:x,sym:x]") ∧
  stableStringify collide (Ref 5%nat) = Some (Ok "[sym:x,sym:x,sym:x]").
Proof.
  intros la lb. split_and!; try reflexivity; try done.
  apply Permutation_swap.
Qed.

(** *** The cases of the test suite *)

Example test_tags :
  stableStringify ∅ (Num (Int 1)) = Some (Ok "num:1") ∧
  stableStringify ∅ (Str "1") = Some (Ok ("str:" +:+ JS.dquote +:+ "1" +:+ JS.dquote)) ∧
  stableStringify ∅ (Sym (Symbol 0 (Some "x"))) = Some (Ok "sym:x").
Proof. by split_and!. Qed.

(** Numbers that are no safe integers carry the digits the runtime prints;
    the negative zero is printed, and so serialised, like zero. *)
Example test_numbers :
  stableStringify ∅ (Num NaN) = Some (Ok "num:NaN") ∧
  stableStringify ∅ (Num (Infinity true)) = Some (Ok "num:-Infinity") ∧
  stableStringify ∅ (Num (Double "1e+21")) = Some (Ok "num:1e+21") ∧
  stableStringify ∅ (Num (Double "0.5")) = Some (Ok "num:0.5") ∧
  stableStringify ∅ (Num (Double "0")) = stableStringify ∅ (Num (Int 0)).
Proof. by split_and!. Qed.

Example test_key_order :
  stableStringify data (Ref 3%nat) = stableStringify data (Ref 4%nat) ∧
  stableStringify fixtures (Ref 9%nat) = stableStringify fixtures (Ref 10%nat) ∧
  stableStringify data (Ref 6%nat) ≠ stableStringify data (Ref 7%nat) ∧
  stableStringify fixtures (Ref 5%nat) ≠ stableStringify fixtures (Ref 6%nat).
Proof. split_and!; [reflexivity..| |]; vm_compute; intros [=]. Qed.

Example test_exotic :
  stableStringify fixtures (Ref 0%nat) = Some (Ok "typed:Uint8Array:1,2,3") ∧
  stableStringify fixtures (Ref 1%nat) = stableStringify fixtures (Ref 2%nat) ∧
  stableStringify fixtures (Ref 3%nat) = Some (Ok "date:1970-01-01T00:00:00.000Z") ∧
  stableStringify fixtures (Ref 4%nat) = Some (Ok "regexp:/x/i") ∧
  stableStringify data (Ref 1%nat) = stableStringify data (Ref 2%nat).
Proof. by split_and!. Qed.

Example test_circular :
  stableStringify loops (Ref 3%nat) = Some (Err circular_object) ∧
  stableStringify loops (Ref 0%nat) = Some (Err circular_array) ∧
  stableStringify loops (Ref 1%nat) = Some (Err circular_Map) ∧
  stableStringify loops (Ref 2%nat) = Some (Err circular_Set).
Proof. by split_and!. Qed.

(** An object that is reached twice without a cycle is serialised twice. *)
Example test_shared :
  stableStringify data (Ref 5%nat) =
    Some (Ok ("[{key:" +:+ JS.dquote +:+ "a" +:+ JS.dquote +:+ "=>num:1,key:" +:+
              JS.dquote +:+ "b" +:+ JS.dquote +:+ "=>num:2},,{key:" +:+
              JS.dquote +:+ "a" +:+ JS.dquote +:+ "=>num:1,key:" +:+
              JS.dquote +:+ "b" +:+ JS.dquote +:+ "=>num:2}]")).
Proof. reflexivity. Qed.

(** *** Symbols *)

(** C10. A symbol without a description and a symbol whose description is
    the empty string both serialise to [sym:]; as property keys both get
    the label [keysym:], so two plain objects that hold the same value
    under the one and under the other serialise to the same string. *)
Theorem symbol_description_collision (h : heap) (i j : nat) :
  let s1 := Symbol i None in
  let s2 := Symbol j (Some EmptyString) in
  stableStringify h (Sym s1) = Some (Ok "sym:") ∧
  stableStringify h (Sym s2) = Some (Ok "sym:") ∧
  keyLabel (KSym s1) = "keysym:" ∧
  keyLabel (KSym s2) = "keysym:" ∧
  ∀ a b v s,
    h !! a = Some (PlainObject [(KSym s1, v)]) →
    h !! b = Some (PlainObject [(KSym s2, v)]) →
    stableStringify h (Ref a) = Some (Ok s) →
    stableStringify h (Ref b) = Some (Ok s) ∧
    s = "{keysym:=>" +:+ serialized h v +:+ "}".
Proof.
  intros s1 s2. split_and!; try reflexivity.
  intros a b v s Ha Hb Hs.
  assert (children (PlainObject [(KSym s1, v)]) = [v]) as Hc1.
  { cbn. by rewrite bool_decide_true. }
  assert (children (PlainObject [(KSym s2, v)]) = [v]) as Hc2.
  { cbn. by rewrite bool_decide_true. }
  destruct (stableStringify_sibling h a b _ _ s Ha Hb eq_refl eq_refl) as [Hsa Hsb];
    [by rewrite Hc1, Hc2|done|].
  rewrite Hc1 in Hsa. rewrite Hc2 in Hsb. split; [by rewrite Hsa|done].
Qed.

End HashFacts.

(** ** Properties of the notification bus *)

Module SubscribableFacts.
Import Subscribable.

Local Open Scope list_scope.
Local Open Scope nat_scope.

(** *** The registry *)

Lemma Set_add_NoDup l ls : NoDup ls → NoDup (Set_add l ls).
Proof.
  intros Hnd. unfold Set_add. case_bool_decide; [done|].
  apply NoDup_app. split_and!; [done| |apply NoDup_singleton].
  intros x Hx ->%list_elem_of_singleton. done.
Qed.

Lemma Set_delete_NoDup l ls : NoDup ls → NoDup (Set_delete l ls).
Proof. apply NoDup_filter. Qed.

Lemma Set_add_elem l ls : l ∈ Set_add l ls.
Proof.
  unfold Set_add. case_bool_decide; [done|].
  apply elem_of_app. right. by apply list_elem_of_singleton.
Qed.

Lemma Set_add_mono l x ls : x ∈ ls → x ∈ Set_add l ls.
Proof.
  intros Hx. unfold Set_add. case_bool_decide; [done|].
  apply elem_of_app. by left.
Qed.

Lemma Set_add_other l x ls : x ≠ l → x ∈ Set_add l ls → x ∈ ls.
Proof.
  intros Hne. unfold Set_add. case_bool_decide; [done|].
  intros [Hx|Hx%list_elem_of_singleton]%elem_of_app; done.
Qed.

Lemma Set_delete_elem l x ls : x ∈ Set_delete l ls ↔ x ∈ ls ∧ x ≠ l.
Proof. unfold Set_delete. rewrite list_elem_of_filter. naive_solver. Qed.

Section facts.
Context {T E : Type} (body : Listener → T → script T E).
Implicit Types (st : state T E) (v : T) (l fn : Listener) (c : command T).

(** *** What each operation changes *)

Lemma notify_fields v st :
  trace (notify v st) = trace st ∧ listeners (notify v st) = listeners st ∧
  closures (notify v st) = closures st ∧ lastValue (notify v st) = v ∧
  hasQueuedValue (notify v st) = true ∧ pendingFlush (notify v st) = true ∧
  microtasks (notify v st) =
    if pendingFlush st then microtasks st else microtasks st ++ [Flush].
Proof. destruct st as [ls [] hq lv cs q tr]; by cbn. Qed.

Lemma subscribe_fields l st :
  trace (subscribe l st).2 = trace st ++ [OnSubscribe] ∧
  listeners (subscribe l st).2 = Set_add l (listeners st) ∧
  closures (subscribe l st).2 = closures st ++ [Closure l false] ∧
  (subscribe l st).1 = List.length (closures st) ∧
  lastValue (subscribe l st).2 = lastValue st ∧
  hasQueuedValue (subscribe l st).2 = hasQueuedValue st ∧
  pendingFlush (subscribe l st).2 = pendingFlush st ∧
  microtasks (subscribe l st).2 = microtasks st.
Proof. destruct st; by cbn. Qed.

Lemma unsubscribe_fields h st :
  lastValue (unsubscribe h st) = lastValue st ∧
  hasQueuedValue (unsubscribe h st) = hasQueuedValue st ∧
  pendingFlush (unsubscribe h st) = pendingFlush st ∧
  microtasks (unsubscribe h st) = microtasks st.
Proof.
  unfold unsubscribe. destruct (closures st !! h) as [[l []]|]; try done.
  destruct st; cbn. by case_bool_decide.
Qed.

Lemma unsubscribe_live h st cl :
  closures st !! h = Some cl → unsubscribed cl = false →
  listeners (unsubscribe h st) = Set_delete (listener cl) (listeners st) ∧
  closures (unsubscribe h st) = <[h := Closure (listener cl) true]> (closures st) ∧
  trace (unsubscribe h st) =
    trace st ++ (if bool_decide (listener cl ∈ listeners st) then [OnUnsubscribe] else []).
Proof.
  intros Hh Hu. unfold unsubscribe. rewrite Hh, Hu.
  destruct st; cbn. case_bool_decide; cbn; by rewrite ?app_nil_r.
Qed.

Lemma unsubscribe_spent h st :
  (∀ cl, closures st !! h = Some cl → unsubscribed cl = true) →
  unsubscribe h st = st.
Proof.
  intros H. unfold unsubscribe. destruct (closures st !! h) as [cl|]; [|done].
  by rewrite (H cl eq_refl).
Qed.

(** *** The invariant *)

Lemma new_consistent (undef : T) : consistent (new undef : state T E).
Proof. split; [done|constructor]. Qed.

Lemma notify_consistent v st : consistent st → consistent (notify v st).
Proof.
  intros [Hq Hnd]. destruct (notify_fields v st) as (_ & Hl & _ & _ & _ & Hp & Hm).
  split; [|by rewrite Hl]. rewrite Hm, Hp, Hq. by destruct (pendingFlush st).
Qed.

Lemma subscribe_consistent l st : consistent st → consistent (subscribe l st).2.
Proof.
  intros [Hq Hnd].
  destruct (subscribe_fields l st) as (_ & Hl & _ & _ & _ & _ & Hp & Hm).
  split; [by rewrite Hm, Hp|]. rewrite Hl. by apply Set_add_NoDup.
Qed.

Lemma unsubscribe_consistent h st : consistent st → consistent (unsubscribe h st).
Proof.
  intros [Hq Hnd]. destruct (unsubscribe_fields h st) as (_ & _ & Hp & Hm).
  split; [by rewrite Hm, Hp|].
  destruct (closures st !! h) as [cl|] eqn:Hh.
  - destruct (unsubscribed cl) eqn:Hu.
    + rewrite unsubscribe_spent; [done|]. intros cl'. rewrite Hh. by intros [= <-].
    + destruct (unsubscribe_live h st cl Hh Hu) as (-> & _). by apply Set_delete_NoDup.
  - rewrite unsubscribe_spent; [done|]. intros cl'. by rewrite Hh.
Qed.

Lemma run_command_consistent st c : consistent st → consistent (run_command st c).
Proof.
  destruct c; cbn;
    [apply subscribe_consistent|apply unsubscribe_consistent|apply notify_consistent].
Qed.

Lemma run_commands_consistent st cs :
  consistent st → consistent (foldl run_command st cs).
Proof.
  revert st. induction cs as [|c cs IH]; intros st Hst; [done|]. cbn.
  by apply IH, run_command_consistent.
Qed.

(** *** What a flush adds to the trace *)

Lemma flush_pending st :
  hasQueuedValue st = true →
  flush body st =
    foldl (λ st' fn, try_call body fn (lastValue st) st')
          (set_hasQueuedValue false (set_pendingFlush false st)) (listeners st).
Proof. destruct st as [ls pf hq lv cs q tr]. cbn [hasQueuedValue]. by intros ->. Qed.

Lemma flush_idle st :
  hasQueuedValue st = false → flush body st = set_pendingFlush false st.
Proof. destruct st as [ls pf hq lv cs q tr]. cbn [hasQueuedValue]. by intros ->. Qed.

Section projection.
Context {X : Type} (π : event T E → option X).
Hypothesis π_subscribe : π OnSubscribe = None.
Hypothesis π_unsubscribe : π OnUnsubscribe = None.

Lemma log_proj e st : omap π (trace (log e st)) = omap π (trace st) ++ omap π [e].
Proof. destruct st; cbn. by rewrite omap_app. Qed.

Lemma run_command_proj st c :
  omap π (trace (run_command st c)) = omap π (trace st).
Proof.
  destruct c as [l|h|v]; cbn [run_command].
  - destruct (subscribe_fields l st) as (-> & _).
    rewrite omap_app. cbn. by rewrite π_subscribe, app_nil_r.
  - destruct (closures st !! h) as [cl|] eqn:Hh.
    + destruct (unsubscribed cl) eqn:Hu.
      * rewrite unsubscribe_spent; [done|]. intros cl'. rewrite Hh. by intros [= <-].
      * destruct (unsubscribe_live h st cl Hh Hu) as (_ & _ & ->).
        rewrite omap_app. case_bool_decide; cbn; by rewrite ?π_unsubscribe, app_nil_r.
    + rewrite unsubscribe_spent; [done|]. intros cl'. by rewrite Hh.
  - by destruct (notify_fields v st) as (-> & _).
Qed.

Lemma run_commands_proj st cs :
  omap π (trace (foldl run_command st cs)) = omap π (trace st).
Proof.
  revert st. induction cs as [|c cs IH]; intros st; [done|]. cbn.
  by rewrite IH, run_command_proj.
Qed.

Lemma try_call_proj fn v st :
  omap π (trace (try_call body fn v st)) =
  omap π (trace st) ++ omap π (delivery body fn v).
Proof.
  unfold try_call, invoke, delivery.
  destruct (throws (body fn v)) as [err|].
  - unfold onNotifyError. rewrite log_proj, run_commands_proj, log_proj.
    rewrite <- app_assoc. f_equal. cbn. by destruct (π (Called fn v)).
  - by rewrite run_commands_proj, log_proj.
Qed.

Lemma loop_proj v st snapshot :
  omap π (trace (foldl (λ st fn, try_call body fn v st) st snapshot)) =
  omap π (trace st) ++ omap π (snapshot ≫= λ fn, delivery body fn v).
Proof.
  revert st. induction snapshot as [|fn snapshot IH]; intros st.
  - cbn. by rewrite app_nil_r.
  - cbn [foldl]. rewrite IH, try_call_proj, bind_cons, omap_app.
    by rewrite app_assoc.
Qed.

End projection.

Lemma calls_delivery v ls :
  calls (ls ≫= λ fn, delivery body fn v) = (λ l, (l, v)) <$> ls.
Proof.
  induction ls as [|l ls IH]; [done|]. cbn. unfold calls in *.
  destruct (throws (body l v)); cbn; by rewrite IH.
Qed.

Lemma errors_delivery v ls :
  errors (ls ≫= λ fn, delivery body fn v) = omap (λ l, throws (body l v)) ls.
Proof.
  induction ls as [|l ls IH]; [done|]. cbn. unfold errors in *.
  destruct (throws (body l v)); cbn; by rewrite IH.
Qed.

Lemma deliveries_delivery v ls :
  deliveries (ls ≫= λ fn, delivery body fn v) = ls ≫= λ fn, delivery body fn v.
Proof.
  induction ls as [|l ls IH]; [done|]. cbn. unfold deliveries in *.
  destruct (throws (body l v)); cbn; by rewrite IH.
Qed.

(** *** Flushes and the invariant *)

Lemma log_consistent e st : consistent st → consistent (log e st).
Proof. by destruct st. Qed.

Lemma try_call_consistent fn v st : consistent st → consistent (try_call body fn v st).
Proof.
  intros Hst. unfold try_call, invoke.
  destruct (throws (body fn v)); [apply log_consistent|];
    by apply run_commands_consistent, log_consistent.
Qed.

Lemma loop_consistent v st snapshot :
  consistent st → consistent (foldl (λ st fn, try_call body fn v st) st snapshot).
Proof.
  revert st. induction snapshot as [|fn snapshot IH]; intros st Hst; [done|].
  cbn [foldl]. by apply IH, try_call_consistent.
Qed.

Lemma run_microtask_consistent st : consistent st → consistent (run_microtask body st).
Proof.
  intros [Hq Hnd]. unfold run_microtask. rewrite Hq.
  destruct (pendingFlush st) eqn:Hp; [|split; [by rewrite Hp|done]].
  set (st0 := set_microtasks (λ _, []) st).
  assert (consistent (set_pendingFlush false st0)) as H0 by (by destruct st).
  destruct (hasQueuedValue st0) eqn:Hhq.
  - rewrite (flush_pending st0 Hhq). apply loop_consistent. by destruct st.
  - by rewrite (flush_idle st0 Hhq).
Qed.

Lemma reachable_consistent st : reachable body st → consistent st.
Proof.
  induction 1 as [undef|l st _ IH|h st _ IH|v st _ IH|st _ IH].
  - apply new_consistent.
  - by apply subscribe_consistent.
  - by apply unsubscribe_consistent.
  - by apply notify_consistent.
  - by apply run_microtask_consistent.
Qed.

(** *** Listeners that do not notify leave the schedule alone *)

Lemma run_command_quiet st c :
  (∀ x, c ≠ Notify x) → schedule (run_command st c) = schedule st.
Proof.
  intros Hc. unfold schedule. destruct c as [l|h|x]; cbn [run_command].
  - by destruct (subscribe_fields l st) as (_ & _ & _ & _ & -> & -> & -> & ->).
  - by destruct (unsubscribe_fields h st) as (-> & -> & -> & ->).
  - by destruct (Hc x).
Qed.

Lemma run_commands_quiet st cs :
  (∀ c x, c ∈ cs → c ≠ Notify x) → schedule (foldl run_command st cs) = schedule st.
Proof.
  revert st. induction cs as [|c cs IH]; intros st Hcs; [done|]. cbn.
  rewrite IH; [apply run_command_quiet|].
  - intros x. apply Hcs. left.
  - intros c' x Hc'. apply Hcs. by right.
Qed.

Lemma loop_quiet v st snapshot :
  (∀ l c x, l ∈ snapshot → c ∈ commands (body l v) → c ≠ Notify x) →
  schedule (foldl (λ st fn, try_call body fn v st) st snapshot) = schedule st.
Proof.
  revert st. induction snapshot as [|fn snapshot IH]; intros st Hq; [done|].
  cbn [foldl]. rewrite IH; [|intros l c x Hl; apply Hq; by right].
  unfold try_call, invoke.
  assert (schedule (foldl run_command (log (Called fn v) st) (commands (body fn v)))
          = schedule st) as Hs.
  { rewrite run_commands_quiet; [by destruct st|].
    intros c x. apply Hq. left. }
  destruct (throws (body fn v)); [|done].
  rewrite <- Hs. by destruct (foldl _ _ _).
Qed.

(** *** Registrations between a notify and its flush *)

Lemma run_command_listeners_keep st c l :
  (∃ l', c = Subscribe l') → l ∈ listeners st → l ∈ listeners (run_command st c).
Proof.
  intros [l' ->] Hl. cbn [run_command].
  destruct (subscribe_fields l' st) as (_ & -> & _). by apply Set_add_mono.
Qed.

Lemma run_commands_listeners_keep st cs l :
  (∀ c, c ∈ cs → ∃ l', c = Subscribe l') → l ∈ listeners st →
  l ∈ listeners (foldl run_command st cs).
Proof.
  revert st. induction cs as [|c cs IH]; intros st Hcs Hl; [done|]. cbn [foldl].
  apply IH; [intros c' Hc'; apply Hcs; by right|].
  apply run_command_listeners_keep; [apply Hcs; left|done].
Qed.

Lemma run_command_listeners_out st c l :
  c ≠ Subscribe l → l ∉ listeners st → l ∉ listeners (run_command st c).
Proof.
  intros Hc Hl. destruct c as [l'|h|x]; cbn [run_command].
  - destruct (subscribe_fields l' st) as (_ & -> & _).
    intros Hin. apply Hl. apply (Set_add_other l'); [congruence|done].
  - destruct (closures st !! h) as [cl|] eqn:Hh.
    + destruct (unsubscribed cl) eqn:Hu.
      * rewrite unsubscribe_spent; [done|]. intros cl'. rewrite Hh. by intros [= <-].
      * destruct (unsubscribe_live h st cl Hh Hu) as (-> & _).
        rewrite Set_delete_elem. tauto.
    + rewrite unsubscribe_spent; [done|]. intros cl'. by rewrite Hh.
  - by destruct (notify_fields x st) as (_ & -> & _).
Qed.

Lemma run_commands_listeners_out st cs l :
  (∀ c, c ∈ cs → c ≠ Subscribe l) → l ∉ listeners st →
  l ∉ listeners (foldl run_command st cs).
Proof.
  revert st. induction cs as [|c cs IH]; intros st Hcs Hl; [done|]. cbn [foldl].
  apply IH; [intros c' Hc'; apply Hcs; by right|].
  apply run_command_listeners_out; [apply Hcs; left|done].
Qed.

(** *** Several notify calls in a row *)

Lemma notify_all st (vs : list T) v :
  consistent st →
  let st' := foldl (λ s x, notify x s) st (vs ++ [v]) in
  trace st' = trace st ∧ listeners st' = listeners st ∧
  schedule st' = (true, true, [Flush], v).
Proof.
  intros Hst st'.
  assert (∀ xs, let s := foldl (λ s x, notify x s) st xs in
                consistent s ∧ trace s = trace st ∧ listeners s = listeners st) as Hall.
  { induction xs as [|x xs IH] using rev_ind; [done|].
    rewrite foldl_snoc. cbn zeta in *. destruct IH as (Hc & Ht & Hl).
    destruct (notify_fields x (foldl (λ s x, notify x s) st xs))
      as (-> & -> & _).
    split_and!; [by apply notify_consistent|done..]. }
  destruct (Hall (vs ++ [v])) as ([Hq _] & Ht & Hl). fold st' in Hq, Ht, Hl.
  split_and!; [done..|]. unfold schedule. rewrite Hq.
  unfold st'. rewrite foldl_snoc.
  by destruct (notify_fields v (foldl (λ s x, notify x s) st vs))
    as (_ & _ & _ & -> & -> & -> & _).
Qed.

Lemma run_microtask_pending st q :
  microtasks st = Flush :: q → hasQueuedValue st = true →
  run_microtask body st =
    foldl (λ st' fn, try_call body fn (lastValue st) st')
          (set_hasQueuedValue false (set_pendingFlush false (set_microtasks (λ _, q) st)))
          (listeners st).
Proof.
  intros Hq Hhq. unfold run_microtask. rewrite Hq.
  rewrite flush_pending; by destruct st.
Qed.

Lemma run_microtask_proj {X} (π : event T E → option X) st q :
  π OnSubscribe = None → π OnUnsubscribe = None →
  microtasks st = Flush :: q → hasQueuedValue st = true →
  omap π (trace (run_microtask body st)) =
  omap π (trace st) ++ omap π (listeners st ≫= λ fn, delivery body fn (lastValue st)).
Proof.
  intros H1 H2 Hq Hhq. rewrite (run_microtask_pending st q Hq Hhq).
  rewrite loop_proj by done. by destruct st.
Qed.

(** C4. However many times [notify] is called in a row, nothing is
    delivered by the calls themselves, exactly one flush is queued, and
    running it calls every registered listener once, with the value of
    the last call; if no listener notifies in turn, nothing is left
    queued after it. *)
Theorem notify_coalesces st (vs : list T) (v : T) :
  consistent st →
  let st' := foldl (λ s x, notify x s) st (vs ++ [v]) in
  let st'' := run_microtask body st' in
  trace st' = trace st ∧
  microtasks st' = [Flush] ∧
  calls (trace st'') = calls (trace st) ++ ((λ l, (l, v)) <$> listeners st) ∧
  NoDup (listeners st) ∧
  ((∀ l c x, l ∈ listeners st → c ∈ commands (body l v) → c ≠ Notify x) →
   pendingFlush st'' = false ∧ hasQueuedValue st'' = false ∧ microtasks st'' = []).
Proof.
  intros Hst st' st''.
  destruct (notify_all st vs v Hst) as (Ht & Hl & Hs). fold st' in Ht, Hl, Hs.
  injection Hs as Hp Hhq Hq Hv.
  split_and!; [done|done| |by destruct Hst|].
  - unfold st'', calls.
    rewrite (run_microtask_proj _ st' [] eq_refl eq_refl Hq Hhq).
    fold (calls (trace st')). rewrite Ht, Hl, Hv. f_equal. apply calls_delivery.
  - intros Hquiet. unfold st''.
    rewrite (run_microtask_pending st' [] Hq Hhq), Hv, Hl.
    pose proof (loop_quiet v
      (set_hasQueuedValue false (set_pendingFlush false (set_microtasks (λ _, []) st')))
      (listeners st) Hquiet) as Hloop.
    injection Hloop as -> -> -> _. by destruct st'.
Qed.

(** *** The order of the registry *)

Lemma before_fmap {A B} (f : A → B) (x y : A) (l : list A) :
  before x y l → before (f x) (f y) (f <$> l).
Proof.
  intros (l1 & l2 & l3 & ->). exists (f <$> l1), (f <$> l2), (f <$> l3).
  by rewrite fmap_app, fmap_cons, fmap_app, fmap_cons.
Qed.

Lemma Set_add_before l1 l2 (ls : list Listener) :
  l1 ∈ ls → l2 ∉ ls → before l1 l2 (Set_add l2 ls).
Proof.
  intros (a & b & ->)%list_elem_of_split Hl2. unfold Set_add.
  rewrite bool_decide_false by done. exists a, b, []. by rewrite <- app_assoc.
Qed.

Lemma Set_add_keeps_before l l1 l2 (ls : list Listener) :
  before l1 l2 ls → before l1 l2 (Set_add l ls).
Proof.
  intros (a & b & c & ->). unfold Set_add. case_bool_decide; [by exists a, b, c|].
  exists a, b, (c ++ [l]). rewrite <- app_assoc. cbn. by rewrite <- app_assoc.
Qed.

Lemma Set_delete_keeps_before l l1 l2 (ls : list Listener) :
  l1 ≠ l → l2 ≠ l → before l1 l2 ls → before l1 l2 (Set_delete l ls).
Proof.
  intros H1 H2 (a & b & c & ->). unfold Set_delete.
  exists (filter (λ y, y ≠ l) a), (filter (λ y, y ≠ l) b), (filter (λ y, y ≠ l) c).
  rewrite filter_app, filter_cons, decide_True by done.
  by rewrite filter_app, filter_cons, decide_True by done.
Qed.

Lemma kept_elem l st (ops : list (command T)) :
  l ∈ listeners st → kept l st ops → l ∈ listeners (foldl run_command st ops).
Proof.
  revert st. induction ops as [|c ops IH]; intros st Hl Hk; [done|].
  cbn [foldl]. destruct Hk as [Hc Hk]. apply IH; [|done].
  destruct c as [l'|h|x]; cbn [run_command].
  - destruct (subscribe_fields l' st) as (_ & -> & _). by apply Set_add_mono.
  - destruct (closures st !! h) as [cl|] eqn:Hh.
    + destruct (unsubscribed cl) eqn:Hu.
      * rewrite unsubscribe_spent; [done|]. intros cl'. rewrite Hh. by intros [= <-].
      * destruct (unsubscribe_live h st cl Hh Hu) as (-> & _).
        apply Set_delete_elem. split; [done|]. intros ->. by apply (Hc cl).
    + rewrite unsubscribe_spent; [done|]. intros cl'. by rewrite Hh.
  - by destruct (notify_fields x st) as (_ & -> & _).
Qed.

Lemma kept_before l1 l2 st (ops : list (command T)) :
  before l1 l2 (listeners st) → kept l1 st ops → kept l2 st ops →
  before l1 l2 (listeners (foldl run_command st ops)).
Proof.
  revert st. induction ops as [|c ops IH]; intros st Hb Hk1 Hk2; [done|].
  cbn [foldl]. destruct Hk1 as [Hc1 Hk1], Hk2 as [Hc2 Hk2]. apply IH; [|done..].
  destruct c as [l'|h|x]; cbn [run_command].
  - destruct (subscribe_fields l' st) as (_ & -> & _). by apply Set_add_keeps_before.
  - destruct (closures st !! h) as [cl|] eqn:Hh.
    + destruct (unsubscribed cl) eqn:Hu.
      * rewrite unsubscribe_spent; [done|]. intros cl'. rewrite Hh. by intros [= <-].
      * destruct (unsubscribe_live h st cl Hh Hu) as (-> & _).
        apply Set_delete_keeps_before; [|by apply not_eq_sym, (Hc2 cl)..|done].
        by apply not_eq_sym, (Hc1 cl).
    + rewrite unsubscribe_spent; [done|]. intros cl'. by rewrite Hh.
  - by destruct (notify_fields x st) as (_ & -> & _).
Qed.

(** C5. The flush calls the listeners that are registered when it runs,
    whatever was registered when [notify] was called, each once, with the
    notified value.  A listener subscribed in between is called unless one
    of its unsubscribe functions is called after that; a listener
    unsubscribed in between is not called unless it is subscribed again
    after that.  The calls are made in registration order: two listeners
    that stay registered are called in the order they have in the
    registry, and a listener subscribed while another one is registered is
    called after that one. *)
Theorem flush_snapshot st (v : T) (ops : list (command T)) :
  consistent st → (∀ c x, c ∈ ops → c ≠ Notify x) →
  let st0 := notify v st in
  let st1 := foldl run_command st0 ops in
  let st2 := run_microtask body st1 in
  let called := (λ l, (l, v)) <$> listeners st1 in
  calls (trace st2) = calls (trace st) ++ called ∧
  NoDup (listeners st1) ∧ NoDup called ∧
  (∀ ops1 ops2 l,
     ops = ops1 ++ Subscribe l :: ops2 →
     kept l (run_command (foldl run_command st0 ops1) (Subscribe l)) ops2 →
     (l, v) ∈ called) ∧
  (∀ ops1 ops2 h cl,
     ops = ops1 ++ Unsubscribe h :: ops2 →
     closures (foldl run_command st0 ops1) !! h = Some cl →
     unsubscribed cl = false →
     (∀ c, c ∈ ops2 → c ≠ Subscribe (listener cl)) →
     (listener cl ∉ listeners st1) ∧ ((listener cl, v) ∉ called)) ∧
  (∀ ops1 ops2 l1 l2,
     ops = ops1 ++ ops2 →
     before l1 l2 (listeners (foldl run_command st0 ops1)) →
     kept l1 (foldl run_command st0 ops1) ops2 →
     kept l2 (foldl run_command st0 ops1) ops2 →
     before (l1, v) (l2, v) called) ∧
  (∀ ops1 ops2 l1 l2,
     ops = ops1 ++ Subscribe l2 :: ops2 →
     l1 ∈ listeners (foldl run_command st0 ops1) →
     l2 ∉ listeners (foldl run_command st0 ops1) →
     kept l1 (run_command (foldl run_command st0 ops1) (Subscribe l2)) ops2 →
     kept l2 (run_command (foldl run_command st0 ops1) (Subscribe l2)) ops2 →
     before (l1, v) (l2, v) called).
Proof.
  intros Hst Hops st0 st1 st2 called.
  destruct (notify_all st [] v Hst) as (Ht & Hl & Hs). cbn [app foldl] in Ht, Hl, Hs.
  fold st0 in Ht, Hl, Hs.
  assert (schedule st1 = (true, true, [Flush], v)) as Hs1.
  { unfold st1. rewrite run_commands_quiet; [done|]. intros c x Hc. by apply Hops. }
  injection Hs1 as Hp Hhq Hq Hv.
  assert (NoDup (listeners st1)) as Hnd
    by apply run_commands_consistent, notify_consistent, Hst.
  assert (∀ l, (l, v) ∈ called → l ∈ listeners st1) as Hcalled.
  { intros l (l' & [= <-] & Hl')%list_elem_of_fmap. done. }
  split_and!.
  - unfold st2, calls.
    rewrite (run_microtask_proj _ st1 [] eq_refl eq_refl Hq Hhq).
    fold (calls (trace st1)). rewrite Hv. f_equal; [|apply calls_delivery].
    unfold st1, calls. by rewrite run_commands_proj, Ht.
  - done.
  - apply NoDup_fmap_2; [|done]. by intros x y [= ->].
  - intros ops1 ops2 l -> Hk. apply (list_elem_of_fmap_2 (λ l, (l, v))). unfold st1.
    rewrite foldl_app. cbn [foldl]. apply kept_elem; [|done].
    cbn [run_command]. destruct (subscribe_fields l (foldl run_command st0 ops1))
      as (_ & -> & _). apply Set_add_elem.
  - intros ops1 ops2 h cl -> Hh Hu Hops2.
    assert (listener cl ∉ listeners st1) as Hout.
    { unfold st1. rewrite foldl_app. cbn [foldl].
      apply run_commands_listeners_out; [done|]. cbn [run_command].
      destruct (unsubscribe_live h _ cl Hh Hu) as (-> & _).
      rewrite Set_delete_elem. by intros [_ ?]. }
    split; [done|]. intros Hin. by apply Hout, Hcalled.
  - intros ops1 ops2 l1 l2 -> Hb Hk1 Hk2. apply (before_fmap (λ l, (l, v))). unfold st1.
    rewrite foldl_app. by apply kept_before.
  - intros ops1 ops2 l1 l2 -> Hl1 Hl2 Hk1 Hk2. apply (before_fmap (λ l, (l, v))). unfold st1.
    rewrite foldl_app. cbn [foldl]. apply kept_before; [|done..].
    cbn [run_command]. destruct (subscribe_fields l2 (foldl run_command st0 ops1))
      as (_ & -> & _). by apply Set_add_before.
Qed.

(** C6. In one flush every listener of the snapshot is called, in order,
    whether or not an earlier one threw; what a listener throws goes to
    [onNotifyError], once, right after its call and before the next
    listener is called; the flush itself returns. *)
Theorem flush_isolates_listener_errors st q :
  microtasks st = Flush :: q → hasQueuedValue st = true →
  let v := lastValue st in
  let st' := run_microtask body st in
  deliveries (trace st') =
    deliveries (trace st) ++ (listeners st ≫= λ fn, delivery body fn v) ∧
  calls (trace st') = calls (trace st) ++ ((λ l, (l, v)) <$> listeners st) ∧
  errors (trace st') =
    errors (trace st) ++ omap (λ l, throws (body l v)) (listeners st).
Proof.
  intros Hq Hhq v st'. unfold st', deliveries, calls, errors.
  rewrite !(run_microtask_proj _ st q eq_refl eq_refl Hq Hhq).
  split_and!; f_equal.
  - apply deliveries_delivery.
  - apply calls_delivery.
  - apply errors_delivery.
Qed.

(** *** An unsubscribe function that has been called *)

Lemma spent_run_command (h : nat) l st c :
  closures st !! h = Some (Closure l true) →
  closures (run_command st c) !! h = Some (Closure l true).
Proof.
  intros Hh. destruct c as [l'|h'|x]; cbn [run_command].
  - destruct (subscribe_fields l' st) as (_ & _ & -> & _). by apply lookup_app_l_Some.
  - destruct (closures st !! h') as [cl|] eqn:Hh'.
    + destruct (unsubscribed cl) eqn:Hu.
      * rewrite unsubscribe_spent; [done|]. intros cl'. rewrite Hh'. by intros [= <-].
      * destruct (unsubscribe_live h' st cl Hh' Hu) as (_ & -> & _).
        rewrite list_lookup_insert_ne; [done|].
        intros ->. rewrite Hh in Hh'. injection Hh' as <-. done.
    + rewrite unsubscribe_spent; [done|]. intros cl'. by rewrite Hh'.
  - by destruct (notify_fields x st) as (_ & _ & -> & _).
Qed.

Lemma spent_run_commands (h : nat) l st (cs : list (command T)) :
  closures st !! h = Some (Closure l true) →
  closures (foldl run_command st cs) !! h = Some (Closure l true).
Proof.
  revert st. induction cs as [|c cs IH]; intros st Hh; [done|]. cbn [foldl].
  by apply IH, spent_run_command.
Qed.

Lemma spent_loop (h : nat) l v st (snapshot : list Listener) :
  closures st !! h = Some (Closure l true) →
  closures (foldl (λ st fn, try_call body fn v st) st snapshot) !! h =
    Some (Closure l true).
Proof.
  revert st. induction snapshot as [|fn snapshot IH]; intros st Hh; [done|].
  cbn [foldl]. apply IH. unfold try_call, invoke.
  assert (closures (foldl run_command (log (Called fn v) st) (commands (body fn v))) !! h
          = Some (Closure l true)) as H
    by (apply spent_run_commands; by destruct st).
  destruct (throws (body fn v)); [|done]. by destruct (foldl _ _ _).
Qed.

Lemma spent_run_microtask (h : nat) l st :
  closures st !! h = Some (Closure l true) →
  closures (run_microtask body st) !! h = Some (Closure l true).
Proof.
  intros Hh. unfold run_microtask. destruct (microtasks st) as [|[] q]; [done|].
  set (st0 := set_microtasks (λ _, q) st).
  assert (closures st0 !! h = Some (Closure l true)) as H0 by (by destruct st).
  destruct (hasQueuedValue st0) eqn:Hhq.
  - rewrite (flush_pending st0 Hhq). apply spent_loop. by destruct st0.
  - rewrite (flush_idle st0 Hhq). by destruct st0.
Qed.

Lemma spent_later (h : nat) l st st' :
  closures st !! h = Some (Closure l true) → later body st st' →
  closures st' !! h = Some (Closure l true).
Proof.
  intros Hh. induction 1 as [|l' st' _ IH|h' st' _ IH|v st' _ IH|st' _ IH].
  - done.
  - by apply (spent_run_command h l st' (Subscribe l')).
  - by apply (spent_run_command h l st' (Unsubscribe h')).
  - by apply (spent_run_command h l st' (Notify v)).
  - by apply spent_run_microtask.
Qed.

(** C7, as the code has it.  The first call of an unsubscribe function
    removes its listener from the registry and fires [onUnsubscribe] if
    the listener is still registered, and fires nothing if it is not;
    every later call leaves the state as it is, whether it follows at once
    or after any number of other calls and microtask runs, also when the
    listener has been subscribed again in between. *)
Theorem unsubscribe_idempotent st (h : nat) (cl : closure) :
  closures st !! h = Some cl → unsubscribed cl = false →
  let st1 := unsubscribe h st in
  listeners st1 = Set_delete (listener cl) (listeners st) ∧
  (listener cl ∉ listeners st1) ∧
  trace st1 =
    trace st ++ (if bool_decide (listener cl ∈ listeners st) then [OnUnsubscribe] else []) ∧
  (∀ n, Nat.iter n (unsubscribe h) st1 = st1) ∧
  (∀ st', later body st1 st' → unsubscribe h st' = st').
Proof.
  intros Hh Hu st1.
  destruct (unsubscribe_live h st cl Hh Hu) as (Hl & Hc & Ht). fold st1 in Hl, Hc, Ht.
  assert (closures st1 !! h = Some (Closure (listener cl) true)) as Hspent.
  { rewrite Hc. apply list_lookup_insert_eq. by eapply lookup_lt_Some. }
  assert (∀ st', later body st1 st' → unsubscribe h st' = st') as Hlater.
  { intros st' Hst'. apply unsubscribe_spent. intros cl'.
    rewrite (spent_later h _ st1 st' Hspent Hst'). by intros [= <-]. }
  split_and!; [done| |done| |done].
  - rewrite Hl, Set_delete_elem. by intros [_ ?].
  - assert (unsubscribe h st1 = st1) as Hsame by (apply Hlater; constructor).
    induction n as [|n IH]; [done|].
    change (unsubscribe h (Nat.iter n (unsubscribe h) st1) = st1). by rewrite IH.
Qed.
End facts.

Lemma three_consistent : consistent three.
Proof. split; [reflexivity|]. apply (bool_decide_unpack _). by vm_compute. Qed.

Lemma notify_coalesces_witness :
  consistent three ∧
  let st' := foldl (λ s x, notify x s) three ([1; 2] ++ [3]) in
  let st'' := run_microtask sample_body st' in
  trace st' = trace three ∧
  microtasks st' = [Flush] ∧
  calls (trace st'') = calls (trace three) ++ ((λ l, (l, 3)) <$> listeners three) ∧
  NoDup (listeners three) ∧
  ((∀ l c x, l ∈ listeners three → c ∈ commands (sample_body l 3) → c ≠ Notify x) →
   pendingFlush st'' = false ∧ hasQueuedValue st'' = false ∧ microtasks st'' = []).
Proof.
  split; [exact three_consistent|].
  exact (notify_coalesces sample_body three [1; 2] 3 three_consistent).
Defined.

Lemma flush_snapshot_witness :
  let ops := [Subscribe 4; Unsubscribe 1] in
  consistent three ∧ (∀ c x, c ∈ ops → c ≠ @Notify nat x) ∧
  let st0 := notify 5 three in
  let st1 := foldl run_command st0 ops in
  let st2 := run_microtask sample_body st1 in
  let called := (λ l, (l, 5)) <$> listeners st1 in
  listeners st0 = [2; 1; 3] ∧ called = [(2, 5); (3, 5); (4, 5)] ∧
  ((4, 5) ∈ called) ∧ ((1, 5) ∉ called) ∧
  before (2, 5) (3, 5) called ∧ before (3, 5) (4, 5) called ∧
  calls (trace st2) = calls (trace three) ++ called ∧
  NoDup (listeners st1) ∧ NoDup called ∧
  (∀ ops1 ops2 l,
     ops = ops1 ++ Subscribe l :: ops2 →
     kept l (run_command (foldl run_command st0 ops1) (Subscribe l)) ops2 →
     (l, 5) ∈ called) ∧
  (∀ ops1 ops2 h cl,
     ops = ops1 ++ Unsubscribe h :: ops2 →
     closures (foldl run_command st0 ops1) !! h = Some cl →
     unsubscribed cl = false →
     (∀ c, c ∈ ops2 → c ≠ Subscribe (listener cl)) →
     (listener cl ∉ listeners st1) ∧ ((listener cl, 5) ∉ called)) ∧
  (∀ ops1 ops2 l1 l2,
     ops = ops1 ++ ops2 →
     before l1 l2 (listeners (foldl run_command st0 ops1)) →
     kept l1 (foldl run_command st0 ops1) ops2 →
     kept l2 (foldl run_command st0 ops1) ops2 →
     before (l1, 5) (l2, 5) called) ∧
  (∀ ops1 ops2 l1 l2,
     ops = ops1 ++ Subscribe l2 :: ops2 →
     l1 ∈ listeners (foldl run_command st0 ops1) →
     l2 ∉ listeners (foldl run_command st0 ops1) →
     kept l1 (run_command (foldl run_command st0 ops1) (Subscribe l2)) ops2 →
     kept l2 (run_command (foldl run_command st0 ops1) (Subscribe l2)) ops2 →
     before (l1, 5) (l2, 5) called).
Proof.
  intros ops.
  assert (∀ c x, c ∈ ops → c ≠ @Notify nat x) as Hops.
  { intros c x Hc. apply list_elem_of_In in Hc. simpl in Hc.
    destruct Hc as [<-|[<-|[]]]; discriminate. }
  split; [exact three_consistent|]. split; [exact Hops|]. intros st0 st1 st2 called.
  pose proof (flush_snapshot sample_body three 5 ops three_consistent Hops) as H.
  cbv zeta in H. fold st0 st1 st2 called in H.
  destruct H as (Hcalls & Hnd & Hndc & Hsub & Hunsub & Hkeep & Hnew).
  assert (∀ l, l ≠ 1 → kept l (run_command st0 (Subscribe 4)) [Unsubscribe 1]) as Hk1.
  { intros l Hl. split; [|exact I]. intros cl [= <-] _. by apply not_eq_sym. }
  assert (∀ l, l ≠ 1 → kept l st0 ops) as Hk.
  { intros l Hl. split; [exact I|]. by apply Hk1. }
  split; [reflexivity|]. split; [reflexivity|]. split_and!.
  - apply (Hsub [] [Unsubscribe 1] 4 eq_refl). by apply Hk1.
  - apply (Hunsub [Subscribe 4] [] 1 (Closure 1 false) eq_refl eq_refl eq_refl).
    by intros c Hc%elem_of_nil.
  - apply (Hkeep [] ops 2 3 eq_refl); [by exists [], [1], []|by apply Hk..].
  - apply (Hnew [] [Unsubscribe 1] 3 4 eq_refl); [| |by apply Hk1..];
      apply (bool_decide_unpack _); by vm_compute.
  - exact Hcalls.
  - exact Hnd.
  - exact Hndc.
  - exact Hsub.
  - exact Hunsub.
  - exact Hkeep.
  - exact Hnew.
Defined.

Lemma flush_isolates_listener_errors_witness :
  let st := notify 42 three in
  microtasks st = Flush :: [] ∧ hasQueuedValue st = true ∧
  let v := lastValue st in
  let st' := run_microtask sample_body st in
  deliveries (trace st') =
    [Called 2 42; Called 1 42; OnNotifyError "boom"; Called 3 42] ∧
  deliveries (trace st') =
    deliveries (trace st) ++ (listeners st ≫= λ fn, delivery sample_body fn v) ∧
  calls (trace st') = calls (trace st) ++ ((λ l, (l, v)) <$> listeners st) ∧
  errors (trace st') =
    errors (trace st) ++ omap (λ l, throws (sample_body l v)) (listeners st).
Proof.
  intros st. split; [reflexivity|]. split; [reflexivity|].
  split; [reflexivity|].
  exact (flush_isolates_listener_errors sample_body st [] eq_refl eq_refl).
Defined.

Lemma unsubscribe_idempotent_witness :
  closures three !! 0 = Some (Closure 2 false) ∧
  unsubscribed (Closure 2 false) = false ∧
  let st1 := unsubscribe 0 three in
  let st' := run_microtask sample_body (notify 8 (subscribe 2 st1).2) in
  listeners st1 = [1; 3] ∧ listeners st' = [1; 3; 2; 9] ∧
  later sample_body st1 st' ∧ unsubscribe 0 st' = st' ∧
  listeners st1 = Set_delete 2 (listeners three) ∧
  (2 ∉ listeners st1) ∧
  trace st1 =
    trace three ++ (if bool_decide (2 ∈ listeners three) then [OnUnsubscribe] else []) ∧
  (∀ n, Nat.iter n (unsubscribe 0) st1 = st1) ∧
  (∀ st', later sample_body st1 st' → unsubscribe 0 st' = st').
Proof.
  split; [reflexivity|]. split; [reflexivity|]. intros st1 st'.
  assert (later sample_body st1 st') as Hlater.
  { apply later_microtask, later_notify, later_subscribe, later_now. }
  pose proof (unsubscribe_idempotent sample_body three 0 (Closure 2 false)
                eq_refl eq_refl) as H.
  split; [reflexivity|]. split; [reflexivity|]. split; [exact Hlater|].
  split; [exact (proj2 (proj2 (proj2 (proj2 H))) st' Hlater)|]. exact H.
Defined.

(** C7, as the specification words it, fails.  In [twice] the listener 7
    was subscribed twice and removed by the first unsubscribe function; the
    second unsubscribe function has never been called, and its first call
    fires no [onUnsubscribe]. *)
Lemma unsubscribe_idempotent_counterexample :
  closures twice !! 1 = Some (Closure 7 false) ∧
  trace twice = [OnSubscribe; OnSubscribe; OnUnsubscribe] ∧
  trace (unsubscribe 1 twice) = trace twice ∧
  unsubscribes (trace (unsubscribe 1 twice)) = unsubscribes (trace twice) ∧
  unsubscribe 1 twice ≠ twice.
Proof. split_and!; try reflexivity. intros [=]. Qed.

(** *** The cases of the test suite *)

Example test_counts :
  let (off, st) := subscribe 5 fresh in
  listenerCount fresh = 0 ∧ listenerCount st = 1 ∧
  listenerCount (unsubscribe off st) = 0 ∧
  listenerCount (unsubscribe off (unsubscribe off st)) = 0.
Proof. by split_and!. Qed.

Example test_batch :
  let st := notify 3 (notify 2 (notify 1 (subscribe 5 fresh).2)) in
  calls (trace st) = [] ∧ calls (trace (run_microtask recorders st)) = [(5, 3)].
Proof. by split_and!. Qed.

Example test_across_microtasks :
  let tick v st := run_microtask recorders (notify v st) in
  calls (trace (tick 30 (tick 20 (tick 10 (subscribe 5 fresh).2)))) =
    [(5, 10); (5, 20); (5, 30)].
Proof. reflexivity. Qed.

Example test_throwing :
  let st := run_microtask sample_body (notify 42 (subscribe 3 (subscribe 1 fresh).2).2) in
  calls (trace st) = [(1, 42); (3, 42)] ∧ errors (trace st) = ["boom"].
Proof. by split_and!. Qed.

Example test_unsubscribe_during_notification :
  let st := (subscribe 1 (subscribe 0 fresh).2).2 in
  let st := run_microtask self_unsubscribing (notify 100 (notify 99 st)) in
  calls (trace st) = [(0, 100); (1, 100)] ∧
  calls (trace (run_microtask self_unsubscribing (notify 101 st))) =
    [(0, 100); (1, 100); (1, 101)].
Proof. by split_and!. Qed.

End SubscribableFacts.

(** ** Further properties of the serialiser *)

Module HashExtras.
Import Hash HashFacts.

(** *** Strings *)

Lemma unquote_quote c r :
  JS.unquote_code_unit (JS.quote_code_unit c +:+ r) = Some (c, r).
Proof. destruct c as [[] [] [] [] [] [] [] []]; reflexivity. Qed.

Lemma append_assoc a b c : (a +:+ b) +:+ c = a +:+ (b +:+ c).
Proof. induction a as [|x a IH]; [done|]. by rewrite !append_cons, IH. Qed.

Lemma append_nil_r a : a +:+ EmptyString = a.
Proof. induction a as [|x a IH]; [done|]. by rewrite append_cons, IH. Qed.

Lemma concat_empty_cons x l :
  String.concat EmptyString (x :: l) = x +:+ String.concat EmptyString l.
Proof. destruct l; cbn [String.concat]; [by rewrite append_nil_r|done]. Qed.

Lemma quoted_inj (l1 l2 : list ascii) :
  String.concat EmptyString (JS.quote_code_unit <$> l1) +:+ JS.dquote =
  String.concat EmptyString (JS.quote_code_unit <$> l2) +:+ JS.dquote →
  l1 = l2.
Proof.
  revert l2. induction l1 as [|c1 l1 IH]; intros [|c2 l2]; [done| | |].
  - rewrite fmap_cons, concat_empty_cons, append_assoc. intros H.
    pose proof (f_equal JS.unquote_code_unit H) as Hu.
    rewrite unquote_quote in Hu. injection Hu as <- _. discriminate H.
  - rewrite fmap_cons, concat_empty_cons, append_assoc. intros H.
    pose proof (f_equal JS.unquote_code_unit H) as Hu.
    rewrite unquote_quote in Hu. injection Hu as -> _. discriminate H.
  - rewrite !fmap_cons, !concat_empty_cons, !append_assoc. intros H.
    pose proof (f_equal JS.unquote_code_unit H) as Hu.
    rewrite !unquote_quote in Hu. injection Hu as -> Hr. f_equal. by apply IH.
Qed.

Lemma JSON_stringify_inj s1 s2 :
  JS.JSON_stringify s1 = JS.JSON_stringify s2 → s1 = s2.
Proof.
  unfold JS.JSON_stringify. intros H%append_inv_head%quoted_inj.
  by rewrite <- (string_of_list_ascii_of_string s1),
             <- (string_of_list_ascii_of_string s2), H.
Qed.

Lemma stableStringify_scalar h v :
  plain_scalar v →
  stableStringify h v =
    Some (Ok match v with
             | Null => "null"
             | Undefined => "undef"
             | Str s => "str:" +:+ JS.JSON_stringify s
             | Bool b => "bool:" +:+ (if b then "1" else "0")
             | BigInt z => "bigint:" +:+ pretty z
             | _ => EmptyString
             end).
Proof. by destruct v. Qed.

(** X1. [null], [undefined], strings, booleans and big integers are
    serialised without loss: two of them with the same canonical form are
    the same value.  In particular the quoting of strings never maps two
    strings to one. *)
Theorem stableStringify_scalar_inj (h : heap) (v1 v2 : value) :
  plain_scalar v1 → plain_scalar v2 →
  stableStringify h v1 = stableStringify h v2 → v1 = v2.
Proof.
  intros H1 H2. rewrite !stableStringify_scalar by done.
  destruct v1 as [| |s1| |b1|z1| | |], v2 as [| |s2| |b2|z2| | |]; try done;
    rewrite ?append_cons, ?append_nil_l; intros [= H]; try done.
  - rewrite !append_nil_l in H. apply quoted_inj in H.
    by rewrite <- (string_of_list_ascii_of_string s1),
               <- (string_of_list_ascii_of_string s2), H.
  - by destruct b1, b2.
  - by apply (inj pretty) in H as ->.
Qed.

Lemma stableStringify_scalar_inj_witness :
  plain_scalar (Str "a,b") ∧ plain_scalar (Str "a,b") ∧
  stableStringify data (Str "a,b") = stableStringify data (Str "a,b") ∧
  Str "a,b" = Str "a,b".
Proof.
  split; [exact I|]. split; [exact I|]. split; [reflexivity|].
  exact (stableStringify_scalar_inj data (Str "a,b") (Str "a,b") I I eq_refl).
Defined.

(** *** Sets *)

(** X2. The canonical form of a Set does not depend on insertion order:
    the serialised items themselves are sorted, so two Sets with the same
    items serialise alike whatever the items are. *)
Theorem set_insertion_order (h : heap) (a b : addr) (vs1 vs2 : list value) (s : string) :
  h !! a = Some (SetObj vs1) → h !! b = Some (SetObj vs2) → vs1 ≡ₚ vs2 →
  stableStringify h (Ref a) = Some (Ok s) →
  stableStringify h (Ref b) = Some (Ok s) ∧
  s = "set:[" +:+ JS.join "," (JS.sort JS.SortCompare (serialized h <$> vs1)) +:+ "]" ∧
  Sorted (λ x y, String.leb x y = true) (JS.sort JS.SortCompare (serialized h <$> vs1)).
Proof.
  intros Ha Hb Hp Hs.
  destruct (stableStringify_sibling h a b _ _ s Ha Hb eq_refl eq_refl) as [Hsa Hsb];
    [|done|].
  { intros c. cbn [children]. by rewrite Hp. }
  cbn [assemble children] in Hsa, Hsb.
  assert (JS.sort JS.SortCompare (serialized h <$> vs2) =
          JS.sort JS.SortCompare (serialized h <$> vs1)) as Hsort.
  { apply (JSFacts.sort_unique id); [apply SortCompare_le|by rewrite Hp|done]. }
  rewrite Hsort in Hsb. split_and!; [by rewrite Hsb, Hsa|done|].
  apply (JSFacts.sort_Sorted id), SortCompare_le.
Qed.

Lemma set_insertion_order_witness :
  let vs1 := [Num (Int 3); Num (Int 1); Num (Int 2)] in
  let vs2 := [Num (Int 2); Num (Int 1); Num (Int 3)] in
  let s := "set:[num:1,num:2,num:3]" in
  fixtures !! 1%nat = Some (SetObj vs1) ∧ fixtures !! 2%nat = Some (SetObj vs2) ∧
  vs1 ≡ₚ vs2 ∧ stableStringify fixtures (Ref 1%nat) = Some (Ok s) ∧
  stableStringify fixtures (Ref 2%nat) = Some (Ok s) ∧
  s = "set:[" +:+ JS.join "," (JS.sort JS.SortCompare (serialized fixtures <$> vs1)) +:+ "]" ∧
  Sorted (λ x y, String.leb x y = true)
         (JS.sort JS.SortCompare (serialized fixtures <$> vs1)).
Proof.
  intros vs1 vs2 s.
  assert (vs1 ≡ₚ vs2) as Hp.
  { unfold vs1, vs2. etrans; [apply Permutation_swap|].
    etrans; [apply Permutation_skip, Permutation_swap|]. apply Permutation_swap. }
  split; [reflexivity|]. split; [reflexivity|]. split; [exact Hp|].
  split; [reflexivity|].
  exact (set_insertion_order fixtures 1%nat 2%nat vs1 vs2 s eq_refl eq_refl Hp eq_refl).
Defined.

(** *** hashQueryKey *)

(** X3. Two keys have the same hash exactly when they have the same
    outcome of [stableStringify]: the prefix loses nothing, and an error of
    the serialiser is the error of the hash. *)
Theorem hashQueryKey_eq (h : heap) (k1 k2 : value) :
  (hashQueryKey h k1 = hashQueryKey h k2 ↔ stableStringify h k1 = stableStringify h k2) ∧
  (∀ e, hashQueryKey h k1 = Some (Err e) ↔ stableStringify h k1 = Some (Err e)).
Proof.
  unfold hashQueryKey. split.
  - destruct (stableStringify h k1) as [[s1|e1]|], (stableStringify h k2) as [[s2|e2]|];
      split; try done; intros [= H]; try done.
    + apply append_inv_head in H. by subst.
    + by subst.
  - intros e. by destruct (stableStringify h k1) as [[s1|e1]|].
Qed.

Lemma stableStringify_Ok_tag h v s :
  stableStringify h v = Some (Ok s) →
  ∃ k, kind_of h v = Some k ∧ String.prefix (tag k) s = true.
Proof.
  unfold stableStringify, run.
  destruct (stringify _ h v ∅) as [s' seen'| |] eqn:Hs; try done. intros [= ->].
  destruct (kind_of h v) as [k|] eqn:Hk.
  - exists k. split; [done|]. by eapply stringify_tag.
  - exfalso. destruct v; try done. cbn in Hk, Hs.
    destruct (h !! a) as [[]|]; done.
Qed.

(** X4. A hash starts with [qk:] and is never the canonical form of any
    value, so a hash cannot be taken for a serialised key. *)
Theorem hashQueryKey_namespaced (h : heap) (key : value) (s : string) :
  hashQueryKey h key = Some (Ok s) →
  String.prefix "qk:" s = true ∧ ∀ v, stableStringify h v ≠ Some (Ok s).
Proof.
  unfold hashQueryKey. destruct (stableStringify h key) as [[s0|e]|]; try done.
  intros [= <-]. split; [apply (prefix_app "qk:")|].
  intros v (k & _ & Hk)%stableStringify_Ok_tag.
  destruct (prefix_comparable _ _ _ Hk (prefix_app "qk:" s0)) as [H|H];
    by destruct k.
Qed.

Lemma hashQueryKey_namespaced_witness :
  let s := "qk:[str:" +:+ JS.dquote +:+ "todos" +:+ JS.dquote +:+ "]" in
  hashQueryKey data (Ref 0%nat) = Some (Ok s) ∧
  String.prefix "qk:" s = true ∧ ∀ v, stableStringify data v ≠ Some (Ok s).
Proof.
  intros s. split; [reflexivity|].
  exact (hashQueryKey_namespaced data (Ref 0%nat) s eq_refl).
Defined.

(** *** The [seen] argument *)

(** X5. What a caller's [seen] set does: a call that returns has put the
    set back as it was; the result is the same for every set that holds
    none of the containers the value reaches; and a container that is in
    the set is refused at once with its circular-reference error. *)
Theorem seen_discipline (n : nat) (h : heap) (v : value) (seen : gset addr) :
  (∀ s seen', stringify n h v seen = Val s seen' →
     seen' = seen ∧
     ∀ seen2, ¬ hits h v seen2 → stringify n h v seen2 = Val s seen2) ∧
  (∀ a o, v = Ref a → h !! a = Some o → is_container o = true → a ∈ seen →
     stringify (S n) h v seen = Throw (circular o)).
Proof.
  split.
  - intros s seen' Hs. split; [by eapply stringify_restores|].
    intros seen2. by eapply stringify_seen_irrel.
  - intros a o -> Ha Ho Hin.
    rewrite (stringify_container _ _ _ _ _ Ha Ho). by rewrite bool_decide_true.
Qed.

(** *** Property keys and functions *)

(** X6. Key labels keep string keys and symbol keys apart, tell any two
    string keys apart, and tell two symbol keys apart exactly when their
    descriptions differ (an absent description counting as the empty one). *)
Theorem keyLabel_eq (k1 k2 : propkey) :
  keyLabel k1 = keyLabel k2 ↔
  match k1, k2 with
  | KStr s1, KStr s2 => s1 = s2
  | KSym y1, KSym y2 => description_or_empty y1 = description_or_empty y2
  | _, _ => False
  end.
Proof.
  destruct k1 as [s1|y1], k2 as [s2|y2]; cbn [keyLabel];
    rewrite ?append_cons, ?append_nil_l; split; try done.
  - intros H. apply JSON_stringify_inj. congruence.
  - by intros ->.
  - congruence.
  - by intros ->.
Qed.

(** X7. A function is serialised by its name alone, the empty name being
    replaced by [anonymous]: two functions have the same canonical form
    exactly when their names agree after that replacement, whatever their
    identities. *)
Theorem function_by_name (h : heap) (i j : nat) (n1 n2 : string) :
  stableStringify h (Fn i n1) = Some (Ok ("fn:" +:+ name_or_anonymous n1)) ∧
  (stableStringify h (Fn i n1) = stableStringify h (Fn j n2) ↔
   name_or_anonymous n1 = name_or_anonymous n2) ∧
  stableStringify h (Fn i EmptyString) = stableStringify h (Fn j "anonymous").
Proof.
  split_and!; [done| |done].
  change (stableStringify h (Fn i n1)) with (Some (Ok ("fn:" +:+ name_or_anonymous n1))).
  change (stableStringify h (Fn j n2)) with (Some (Ok ("fn:" +:+ name_or_anonymous n2))).
  split; [|by intros ->]. intros [= H]. by apply append_inv_head in H.
Qed.

(** *** Own keys *)

(** X8. [ownKeysSorted] returns every own key of the object once and
    nothing else: the string keys first, in ascending order, then the
    symbol keys, ascending by description. *)
Theorem ownKeysSorted_keys (obj : list (propkey * value)) :
  ownKeysSorted obj ≡ₚ obj.*1 ∧
  ∃ ks ss, ownKeysSorted obj = ((KStr <$> ks) ++ (KSym <$> ss))%list ∧
           ks ≡ₚ Object_keys obj ∧ ss ≡ₚ Object_getOwnPropertySymbols obj ∧
           Sorted (λ x y, String.leb x y = true) ks ∧ Sorted description_le ss.
Proof.
  split; [apply ownKeysSorted_all|]. eexists _, _. split; [reflexivity|].
  split; [apply JSFacts.sort_Permutation|].
  split; [apply JSFacts.sort_Permutation|]. split.
  - apply (JSFacts.sort_Sorted id), SortCompare_le.
  - apply (JSFacts.sort_Sorted description_or_empty).
    intros x y. apply JSFacts.comparator_le.
Qed.

(** X9. An object with at least one own key never has the canonical form
    of the empty object, even when all its values are [undefined]. *)
Theorem empty_object_only (h : heap) (a : addr) (props : list (propkey * value)) (s : string) :
  h !! a = Some (PlainObject props) →
  stableStringify h (Ref a) = Some (Ok s) →
  (s = "{}" ↔ props = []).
Proof.
  intros Ha Hs.
  destruct (stableStringify_container_inv _ _ _ _ Ha eq_refl Hs) as [_ ->].
  cbn [assemble children]. rewrite <- list_fmap_compose, zip_with_fmap_r. split.
  - destruct (ownKeysSorted props) as [|k ks] eqn:Hks.
    + intros _. pose proof (ownKeysSorted_all props) as Hp.
      rewrite Hks in Hp. apply Permutation_nil_l in Hp.
      symmetry in Hp. by apply fmap_nil_inv in Hp.
    + rewrite fmap_cons. unfold JS.join. cbn [String.concat].
      destruct k; cbn [keyLabel]; destruct (_ <$> ks);
        rewrite ?append_cons, ?append_nil_l; intros [=].
  - by intros ->.
Qed.

Lemma empty_object_only_witness :
  fixtures !! 5%nat = Some (PlainObject [(KStr "a", Undefined)]) ∧
  stableStringify fixtures (Ref 5%nat) =
    Some (Ok ("{key:" +:+ JS.dquote +:+ "a" +:+ JS.dquote +:+ "=>undef}")) ∧
  ("{key:" +:+ JS.dquote +:+ "a" +:+ JS.dquote +:+ "=>undef}" = "{}" ↔
   [(KStr "a", Undefined)] = []).
Proof.
  split; [reflexivity|]. split; [reflexivity|].
  exact (empty_object_only fixtures 5%nat _ _ eq_refl eq_refl).
Defined.

(** *** Arrays *)

(** X10. The canonical form of an array depends on its elements only
    through their canonical forms: two arrays whose slots serialise alike,
    position by position, serialise alike. *)
Theorem array_congruence (h : heap) (a b : addr) (la lb : list (option value)) (sa sb : string) :
  h !! a = Some (Array la) → h !! b = Some (Array lb) →
  slot_string h <$> la = slot_string h <$> lb →
  stableStringify h (Ref a) = Some (Ok sa) →
  stableStringify h (Ref b) = Some (Ok sb) →
  sa = sb ∧ hashQueryKey h (Ref a) = hashQueryKey h (Ref b).
Proof.
  intros Ha Hb Heq Hsa Hsb.
  pose proof (stableStringify_container_inv _ _ _ _ Ha eq_refl Hsa) as [_ Ea].
  pose proof (stableStringify_container_inv _ _ _ _ Hb eq_refl Hsb) as [_ Eb].
  cbn [assemble children] in Ea, Eb. rewrite !fill_holes_slots in Ea, Eb.
  change (λ x, match x with None => EmptyString | Some v => serialized h v end)
    with (slot_string h) in Ea, Eb.
  assert (sa = sb) as -> by (by rewrite Ea, Eb, Heq).
  split; [done|]. unfold hashQueryKey. by rewrite Hsa, Hsb.
Qed.

Lemma array_congruence_witness :
  let la := [Some (Str "todos"); Some (Ref 7%nat)] in
  let lb := [Some (Str "todos"); Some (Ref 8%nat)] in
  fixtures !! 9%nat = Some (Array la) ∧ fixtures !! 10%nat = Some (Array lb) ∧
  slot_string fixtures <$> la = slot_string fixtures <$> lb ∧
  (∃ s, stableStringify fixtures (Ref 9%nat) = Some (Ok s) ∧
        stableStringify fixtures (Ref 10%nat) = Some (Ok s)) ∧
  hashQueryKey fixtures (Ref 9%nat) = hashQueryKey fixtures (Ref 10%nat).
Proof.
  intros la lb.
  assert (slot_string fixtures <$> la = slot_string fixtures <$> lb) as Heq
    by reflexivity.
  split; [reflexivity|]. split; [reflexivity|]. split; [exact Heq|].
  split; [eexists; split; reflexivity|].
  exact (proj2 (array_congruence fixtures 9%nat 10%nat la lb _ _ eq_refl eq_refl Heq
                  eq_refl eq_refl)).
Defined.

(** *** Collections and their members *)

Lemma string_length_append (a b : string) :
  String.length (a +:+ b) = (String.length a + String.length b)%nat.
Proof. induction a as [|c a IH]; [done|]. cbn. by rewrite <- IH. Qed.

Lemma join_length (sep x : string) (l : list string) :
  x ∈ l → (String.length x ≤ String.length (JS.join sep l))%nat.
Proof.
  unfold JS.join. induction l as [|y l IH]; [by intros ?%elem_of_nil|].
  intros Hx. destruct l as [|z l].
  - apply list_elem_of_singleton in Hx as ->. cbn. lia.
  - change (String.concat sep (y :: z :: l))
      with (y +:+ sep +:+ String.concat sep (z :: l)).
    rewrite !string_length_append.
    apply elem_of_cons in Hx as [->|Hx]; [lia|]. specialize (IH Hx). lia.
Qed.

Lemma serialized_nonempty h v :
  stableStringify h v = Some (Ok (serialized h v)) →
  (0 < String.length (serialized h v))%nat.
Proof.
  intros (k & _ & Hk)%stableStringify_Ok_tag.
  destruct (serialized h v); [by destruct k|cbn; lia].
Qed.

Lemma member_length h o c :
  is_container o = true → c ∈ children o →
  (String.length (serialized h c) + 2 ≤
   String.length (assemble o (serialized h <$> children o)))%nat.
Proof.
  intros Ho Hc. destruct o as [| | |elems|es|vs|props|]; try done;
    cbn [assemble children] in *.
  - rewrite fill_holes_slots, !string_length_append. cbn.
    pose proof (join_length "," (serialized h c)
      ((λ x, match x with None => EmptyString | Some v => serialized h v end) <$> elems))
      as Hj.
    apply list_elem_of_omap in Hc as (x & Hx & Hid). cbn in Hid. subst x.
    specialize (Hj (list_elem_of_fmap_2 _ _ _ Hx)). cbn in Hj. lia.
  - rewrite pair_up_children, !string_length_append. cbn. unfold map_entries.
    apply list_elem_of_bind in Hc as ([k v] & Hkv & He). cbn in Hkv.
    set (cmp := λ a b : string * string, _).
    set (f := λ e : string * string, e.1 +:+ ":" +:+ e.2).
    assert (f (serialized h k, serialized h v) ∈
            f <$> JS.sort cmp ((λ e, (serialized h e.1, serialized h e.2)) <$> es)) as Hin.
    { apply list_elem_of_fmap_2. rewrite JSFacts.sort_Permutation.
      by apply (list_elem_of_fmap_2 (λ e, (serialized h e.1, serialized h e.2)) _ (k, v)). }
    apply (join_length ",") in Hin. unfold f in Hin at 1. cbn in Hin.
    rewrite !string_length_append in Hin. cbn in Hin.
    apply list_elem_of_In in Hkv. cbn in Hkv. destruct Hkv as [<-|[<-|[]]]; lia.
  - rewrite !string_length_append. cbn.
    assert (serialized h c ∈ JS.sort JS.SortCompare (serialized h <$> vs)) as Hin.
    { rewrite JSFacts.sort_Permutation. by apply list_elem_of_fmap_2. }
    apply (join_length ",") in Hin. lia.
  - rewrite <- list_fmap_compose, zip_with_fmap_r, !string_length_append. cbn.
    apply list_elem_of_fmap in Hc as (k & -> & Hk).
    apply (list_elem_of_fmap_2
             (λ x, keyLabel x +:+ "=>" +:+ (serialized h ∘ get props) x)) in Hk.
    apply (join_length ",") in Hk. cbn in Hk.
    rewrite !string_length_append in Hk. lia.
Qed.

(** X11. The canonical form of a collection (array, Map, Set or plain
    object) is longer than that of each of its members, keys and values
    alike, by at least the two brackets.  So no collection is serialised
    like one of its members: [['todos']] and ['todos'] differ. *)
Theorem collection_differs_from_members (h : heap) (a : addr) (o : object) (s : string) (c : value) :
  h !! a = Some o → is_container o = true →
  stableStringify h (Ref a) = Some (Ok s) → c ∈ children o →
  ∃ sc, stableStringify h c = Some (Ok sc) ∧
        (String.length sc + 2 ≤ String.length s)%nat ∧
        hashQueryKey h c ≠ hashQueryKey h (Ref a).
Proof.
  intros Ha Ho Hs Hc. exists (serialized h c).
  pose proof (children_Ok _ _ _ _ _ Ha Ho Hs Hc) as Hsc.
  destruct (stableStringify_container_inv _ _ _ _ Ha Ho Hs) as [_ Es].
  pose proof (member_length h o c Ho Hc) as Hlen. rewrite <- Es in Hlen.
  split_and!; [done..|]. unfold hashQueryKey. rewrite Hs, Hsc.
  intros [= Heq]. apply append_inv_head in Heq. rewrite Heq in Hlen. lia.
Qed.

Lemma collection_differs_from_members_witness :
  data !! 0%nat = Some (Array [Some (Str "todos")]) ∧
  is_container (Array [Some (Str "todos")]) = true ∧
  stableStringify data (Ref 0%nat) =
    Some (Ok ("[str:" +:+ JS.dquote +:+ "todos" +:+ JS.dquote +:+ "]")) ∧
  Str "todos" ∈ children (Array [Some (Str "todos")]) ∧
  ∃ sc, stableStringify data (Str "todos") = Some (Ok sc) ∧
        (String.length sc + 2 ≤
         String.length ("[str:" +:+ JS.dquote +:+ "todos" +:+ JS.dquote +:+ "]"))%nat ∧
        hashQueryKey data (Str "todos") ≠ hashQueryKey data (Ref 0%nat).
Proof.
  assert (Str "todos" ∈ children (Array [Some (Str "todos")])) as Hc by left.
  split; [reflexivity|]. split; [reflexivity|]. split; [reflexivity|].
  split; [exact Hc|].
  exact (collection_differs_from_members data 0%nat _ _ _ eq_refl eq_refl eq_refl Hc).
Defined.

(** X12. An array is serialised to [[]] exactly when it is empty or
    consists of one hole: a hole contributes the empty string, so
    [new Array(1)] has the canonical form of the empty array, while no
    element and no longer array of holes does. *)
Theorem array_empty_form (h : heap) (a : addr) (elems : list (option value)) (s : string) :
  h !! a = Some (Array elems) →
  stableStringify h (Ref a) = Some (Ok s) →
  (s = "[]" ↔ elems = [] ∨ elems = [None]).
Proof.
  intros Ha Hs.
  destruct (stableStringify_container_inv _ _ _ _ Ha eq_refl Hs) as [_ ->].
  cbn [assemble children]. rewrite fill_holes_slots.
  change (λ x, match x with None => EmptyString | Some v => serialized h v end)
    with (slot_string h).
  split; [|by intros [->| ->]].
  intros Heq. apply (f_equal String.length) in Heq.
  rewrite !string_length_append in Heq. cbn in Heq.
  destruct elems as [|x [|y elems]]; [by left| |].
  - destruct x as [v|]; [|by right]. exfalso.
    assert (v ∈ children (Array [Some v])) as Hv by left.
    pose proof (serialized_nonempty h v (children_Ok _ _ _ _ _ Ha eq_refl Hs Hv)).
    cbn in Heq. lia.
  - exfalso. rewrite !fmap_cons in Heq. unfold JS.join in Heq.
    change (String.concat "," (slot_string h x :: slot_string h y :: (slot_string h <$> elems)))
      with (slot_string h x +:+ "," +:+
            String.concat "," (slot_string h y :: (slot_string h <$> elems))) in Heq.
    rewrite !string_length_append in Heq. cbn in Heq. lia.
Qed.

Lemma array_empty_form_witness :
  sparse !! 1%nat = Some (Array [None]) ∧
  stableStringify sparse (Ref 1%nat) = Some (Ok "[]") ∧
  stableStringify sparse (Ref 0%nat) = Some (Ok "[]") ∧
  stableStringify sparse (Ref 2%nat) = Some (Ok "[,]") ∧
  ("[]" = "[]" ↔ [@None value] = [] ∨ [@None value] = [None]).
Proof.
  split; [reflexivity|]. split; [reflexivity|]. split; [reflexivity|].
  split; [reflexivity|].
  exact (array_empty_form sparse 1%nat [None] "[]" eq_refl eq_refl).
Defined.

End HashExtras.

(** ** Further properties of the notification primitive *)

Module SubscribableExtras.
Import Subscribable SubscribableFacts.

Local Open Scope list_scope.
Local Open Scope nat_scope.

Lemma Set_delete_absent (l : Listener) (ls : list Listener) :
  l ∉ ls → Set_delete l ls = ls.
Proof.
  unfold Set_delete. induction ls as [|x ls IH]; [done|].
  intros [Hx Hls]%not_elem_of_cons. rewrite filter_cons.
  rewrite decide_True by congruence. by rewrite IH.
Qed.

Lemma Set_delete_last (l : Listener) (ls : list Listener) :
  l ∉ ls → Set_delete l (ls ++ [l]) = ls.
Proof.
  intros Hl. unfold Set_delete. rewrite filter_app.
  fold (Set_delete l ls). rewrite (Set_delete_absent l ls Hl).
  rewrite filter_cons, decide_False by (by intros []). cbn. by rewrite app_nil_r.
Qed.

Section extras.
Context {T E : Type} (body : Listener → T → script T E).
Implicit Types (st : state T E) (v : T) (l fn : Listener) (c : command T).

(** *** Subscribing and unsubscribing *)

(** X13. Subscribing a listener that is not registered and calling the
    returned function puts the registry and the schedule back: in between
    the listener is the last of the registry, afterwards the registry is
    what it was, and the two hooks have fired once each, in this order. *)
Theorem subscribe_unsubscribe st l :
  l ∉ listeners st →
  let st1 := (subscribe l st).2 in
  let st2 := unsubscribe (subscribe l st).1 st1 in
  listeners st1 = listeners st ++ [l] ∧
  listenerCount st1 = S (listenerCount st) ∧ hasListeners st1 = true ∧
  listeners st2 = listeners st ∧ listenerCount st2 = listenerCount st ∧
  hasListeners st2 = hasListeners st ∧
  schedule st2 = schedule st ∧
  trace st2 = trace st ++ [OnSubscribe; OnUnsubscribe].
Proof.
  intros Hl st1 st2.
  destruct (subscribe_fields l st) as (Ht & Hls & Hcs & Hh & Hv & Hhq & Hp & Hq).
  fold st1 in Ht, Hls, Hcs, Hv, Hhq, Hp, Hq.
  assert (listeners st1 = listeners st ++ [l]) as Hls1.
  { rewrite Hls. unfold Set_add. by rewrite bool_decide_false. }
  assert (closures st1 !! (subscribe l st).1 = Some (Closure l false)) as Hlook.
  { rewrite Hcs, Hh. by rewrite list_lookup_middle. }
  destruct (unsubscribe_live _ _ _ Hlook eq_refl) as (Hls2 & _ & Ht2).
  destruct (unsubscribe_fields (subscribe l st).1 st1) as (Hv2 & Hhq2 & Hp2 & Hq2).
  fold st2 in Hls2, Ht2, Hv2, Hhq2, Hp2, Hq2. cbn [listener] in Hls2, Ht2.
  assert (listeners st2 = listeners st) as Hback.
  { rewrite Hls2, Hls1. by apply Set_delete_last. }
  split_and!.
  - done.
  - unfold listenerCount. rewrite Hls1, length_app. cbn. lia.
  - unfold hasListeners. rewrite Hls1, length_app. cbn.
    apply bool_decide_eq_true. lia.
  - done.
  - unfold listenerCount. by rewrite Hback.
  - unfold hasListeners. by rewrite Hback.
  - unfold schedule. by rewrite Hv2, Hhq2, Hp2, Hq2, Hv, Hhq, Hp, Hq.
  - rewrite Ht2, Ht, Hls1, bool_decide_true, <- app_assoc; [done|].
    apply elem_of_app. right. by apply list_elem_of_singleton.
Qed.

(** X14. Calling an unsubscribe function takes at most its own listener
    out of the registry: the other listeners stay, in their order, and
    neither the schedule nor the deliveries change. *)
Theorem unsubscribe_local st (h : nat) :
  let st' := unsubscribe h st in
  sublist (listeners st') (listeners st) ∧
  (∀ l, l ∈ listeners st → l ∉ listeners st' →
        closures st !! h = Some (Closure l false)) ∧
  schedule st' = schedule st ∧
  deliveries (trace st') = deliveries (trace st).
Proof.
  intros st'. split_and!.
  - unfold st'. destruct (closures st !! h) as [cl|] eqn:Hh.
    + destruct (unsubscribed cl) eqn:Hu.
      * rewrite unsubscribe_spent; [done|]. intros cl'. rewrite Hh. by intros [= <-].
      * destruct (unsubscribe_live h st cl Hh Hu) as (-> & _). apply sublist_filter.
    + rewrite unsubscribe_spent; [done|]. intros cl'. by rewrite Hh.
  - intros l Hl Hout. unfold st' in Hout.
    destruct (closures st !! h) as [[l' u]|] eqn:Hh.
    + destruct u.
      * rewrite unsubscribe_spent in Hout; [done|].
        intros cl'. rewrite Hh. by intros [= <-].
      * destruct (unsubscribe_live h st _ Hh eq_refl) as (Hls & _).
        rewrite Hls, Set_delete_elem in Hout. cbn [listener] in Hout.
        destruct (decide (l = l')) as [->|Hne]; [done|]. by destruct Hout.
    + rewrite unsubscribe_spent in Hout; [done|]. intros cl'. by rewrite Hh.
  - unfold schedule, st'.
    by destruct (unsubscribe_fields h st) as (-> & -> & -> & ->).
  - unfold deliveries. exact (run_command_proj _ eq_refl eq_refl st (Unsubscribe h)).
Qed.

(** X15. No call of [subscribe], of an unsubscribe function or of
    [notify] calls a listener or reports an error: whatever sequence of
    them runs, the calls and error reports made so far stay what they
    were.  Listeners run in the microtask only. *)
Theorem operations_deliver_nothing st (ops : list (command T)) :
  deliveries (trace (foldl run_command st ops)) = deliveries (trace st) ∧
  calls (trace (foldl run_command st ops)) = calls (trace st) ∧
  errors (trace (foldl run_command st ops)) = errors (trace st).
Proof.
  unfold deliveries, calls, errors.
  split_and!; by apply run_commands_proj.
Qed.

(** *** The invariant of an instance *)

Lemma log_settled (e : event T E) st : settled st → settled (log e st).
Proof. by destruct st. Qed.

Lemma subscribe_settled l st : settled st → settled (subscribe l st).2.
Proof.
  intros (Hc & Hf & Hlive).
  destruct (subscribe_fields l st) as (_ & Hls & Hcs & _ & _ & Hhq & Hp & _).
  split_and!; [by apply subscribe_consistent|by rewrite Hp, Hhq|].
  intros l' Hl'. rewrite Hcs. destruct (decide (l' = l)) as [->|Hne].
  - exists (List.length (closures st)). by rewrite list_lookup_middle.
  - rewrite Hls in Hl'. apply Set_add_other in Hl'; [|done].
    destruct (Hlive l' Hl') as [h Hh]. exists h. by apply lookup_app_l_Some.
Qed.

Lemma unsubscribe_settled (h : nat) st : settled st → settled (unsubscribe h st).
Proof.
  intros (Hc & Hf & Hlive).
  destruct (unsubscribe_fields h st) as (_ & Hhq & Hp & _).
  split_and!; [by apply unsubscribe_consistent|by rewrite Hp, Hhq|].
  destruct (closures st !! h) as [cl|] eqn:Hh.
  - destruct (unsubscribed cl) eqn:Hu.
    + rewrite unsubscribe_spent; [done|]. intros cl'. rewrite Hh. by intros [= <-].
    + destruct (unsubscribe_live h st cl Hh Hu) as (-> & -> & _).
      intros l' [Hl' Hne]%Set_delete_elem.
      destruct (Hlive l' Hl') as [h' Hh']. exists h'.
      rewrite list_lookup_insert_ne; [done|].
      intros ->. rewrite Hh in Hh'. injection Hh' as ->. by apply Hne.
  - rewrite unsubscribe_spent; [done|]. intros cl'. by rewrite Hh.
Qed.

Lemma notify_settled v st : settled st → settled (notify v st).
Proof.
  intros (Hc & Hf & Hlive).
  destruct (notify_fields v st) as (_ & Hls & Hcs & _ & Hhq & Hp & _).
  split_and!; [by apply notify_consistent|by rewrite Hp, Hhq|].
  by rewrite Hls, Hcs.
Qed.

Lemma run_commands_settled st (cs : list (command T)) :
  settled st → settled (foldl run_command st cs).
Proof.
  revert st. induction cs as [|c cs IH]; intros st Hst; [done|]. cbn [foldl].
  apply IH. destruct c; cbn [run_command];
    [by apply subscribe_settled|by apply unsubscribe_settled|by apply notify_settled].
Qed.

Lemma loop_settled v st (snapshot : list Listener) :
  settled st → settled (foldl (λ st fn, try_call body fn v st) st snapshot).
Proof.
  revert st. induction snapshot as [|fn snapshot IH]; intros st Hst; [done|].
  cbn [foldl]. apply IH. unfold try_call, invoke.
  destruct (throws (body fn v)); [apply log_settled|];
    by apply run_commands_settled, log_settled.
Qed.

Lemma run_microtask_idle st :
  consistent st → pendingFlush st = false → run_microtask body st = st.
Proof. intros [Hq _] Hp. unfold run_microtask. by rewrite Hq, Hp. Qed.

Lemma run_microtask_settled st : settled st → settled (run_microtask body st).
Proof.
  intros Hst. pose proof Hst as ([Hq Hnd] & Hf & Hlive).
  destruct (pendingFlush st) eqn:Hp.
  - rewrite (run_microtask_pending body st [] Hq (eq_sym Hf)).
    apply loop_settled. destruct st as [ls pf hq lv cs q tr]. cbn in *.
    split_and!; [by split|done|done].
  - rewrite run_microtask_idle; [done|apply Hst|done].
Qed.

(** X16. In every state an instance can be in, between operations:
    the two flags [pendingFlush] and [hasQueuedValue] agree, the queue
    holds one flush when they are set and nothing otherwise, the registry
    has no duplicates, and every registered listener has an unsubscribe
    function that has not been called.  So a flush that runs always has a
    value to deliver, and a microtask turn with no flag set does nothing. *)
Theorem reachable_settled st :
  reachable body st →
  settled st ∧
  (∀ q, microtasks st = Flush :: q →
        q = [] ∧ pendingFlush st = true ∧ hasQueuedValue st = true) ∧
  (pendingFlush st = false → run_microtask body st = st).
Proof.
  intros Hr.
  assert (settled st) as Hst.
  { induction Hr as [undef|l st _ IH|h st _ IH|v st _ IH|st _ IH].
    - split_and!; [apply new_consistent|done|]. by intros l Hl%elem_of_nil.
    - by apply subscribe_settled.
    - by apply unsubscribe_settled.
    - by apply notify_settled.
    - by apply run_microtask_settled. }
  split_and!; [done| |].
  - destruct Hst as ([Hq _] & Hf & _). intros q. rewrite Hq, <- Hf.
    destruct (pendingFlush st); [|done]. by intros [= <-].
  - destruct Hst as (Hc & _). by apply run_microtask_idle.
Qed.

(** *** Notifying across microtasks *)

Lemma loop_pure v st (snapshot : list Listener) :
  (∀ l, l ∈ snapshot → commands (body l v) = []) →
  listeners (foldl (λ st fn, try_call body fn v st) st snapshot) = listeners st.
Proof.
  revert st. induction snapshot as [|fn snapshot IH]; intros st Hpure; [done|].
  cbn [foldl]. rewrite IH by (intros l Hl; apply Hpure; by right).
  unfold try_call, invoke. rewrite (Hpure fn) by left.
  destruct (throws (body fn v)); by destruct st.
Qed.

Lemma tick_pure v st :
  consistent st → pendingFlush st = false →
  (∀ l, l ∈ listeners st → commands (body l v) = []) →
  let st' := run_microtask body (notify v st) in
  consistent st' ∧ pendingFlush st' = false ∧ listeners st' = listeners st ∧
  calls (trace st') = calls (trace st) ++ ((λ l, (l, v)) <$> listeners st).
Proof.
  intros Hst Hp Hpure st'.
  destruct (notify_all st [] v Hst) as (Ht & Hl & Hs). cbn [app foldl] in Ht, Hl, Hs.
  injection Hs as Hp1 Hhq Hq Hv.
  assert (consistent st') as Hst'
    by (by apply run_microtask_consistent, notify_consistent).
  split_and!; [done| | |].
  - unfold st'. rewrite (run_microtask_pending body _ [] Hq Hhq), Hv, Hl.
    pose proof (loop_quiet body v
      (set_hasQueuedValue false (set_pendingFlush false
         (set_microtasks (λ _, []) (notify v st))))
      (listeners st)) as Hloop.
    assert (∀ l c x, l ∈ listeners st → c ∈ commands (body l v) → c ≠ Notify x) as Hquiet.
    { intros l c x Hin. rewrite (Hpure l Hin). by intros ?%elem_of_nil. }
    specialize (Hloop Hquiet). injection Hloop as -> _ _ _.
    by destruct (notify v st).
  - unfold st'. rewrite (run_microtask_pending body _ [] Hq Hhq), Hv, Hl.
    rewrite loop_pure by done. by destruct (notify v st).
  - unfold st', calls.
    rewrite (run_microtask_proj body _ _ [] eq_refl eq_refl Hq Hhq).
    fold (calls (trace (notify v st))). rewrite Ht, Hl, Hv. f_equal.
    apply calls_delivery.
Qed.

(** X17. With listeners that only record, values notified in separate
    microtasks are all delivered, each to every listener, in the order
    they were notified; nothing is left scheduled and the registry is
    what it was. *)
Theorem ticks_in_order st (vs : list T) :
  consistent st → pendingFlush st = false →
  (∀ l v, l ∈ listeners st → commands (body l v) = []) →
  let st' := foldl (λ s v, run_microtask body (notify v s)) st vs in
  calls (trace st') =
    calls (trace st) ++ (vs ≫= λ v, (λ l, (l, v)) <$> listeners st) ∧
  listeners st' = listeners st ∧ pendingFlush st' = false ∧ microtasks st' = [].
Proof.
  revert st. induction vs as [|v vs IH]; intros st Hst Hp Hpure.
  - cbn. rewrite app_nil_r. destruct Hst as [Hq _]. by rewrite Hq, Hp.
  - cbn [foldl]. cbn zeta.
    destruct (tick_pure v st Hst Hp (λ l, Hpure l v)) as (Hst1 & Hp1 & Hl1 & Hc1).
    destruct (IH _ Hst1 Hp1) as (Hc & Hl & Hp' & Hq').
    { intros l x. rewrite Hl1. apply Hpure. }
    cbn zeta in Hc, Hl, Hp', Hq'.
    split_and!; [|by rewrite Hl, Hl1|done|done].
    rewrite Hc, Hc1, Hl1, <- app_assoc. by rewrite bind_cons.
Qed.

(** *** Unsubscribing while a flush runs *)

Lemma tracked_weaken (h : nat) l (spent : bool) st :
  tracked h l true st → tracked h l spent st.
Proof. intros (u & Hh & Hs & Hu). exists u. split_and!; [done| |done]. intros _. by apply Hs. Qed.

Lemma tracked_log (h : nat) l (spent : bool) (e : event T E) st :
  tracked h l spent st → tracked h l spent (log e st).
Proof. by destruct st. Qed.

Lemma tracked_unsubscribe (h : nat) l (spent : bool) st :
  tracked h l spent st → tracked h l true (unsubscribe h st).
Proof.
  intros (u & Hh & _ & Hu). destruct u.
  - rewrite unsubscribe_spent.
    + exists true. by split_and!.
    + intros cl. rewrite Hh. by intros [= <-].
  - destruct (unsubscribe_live h st _ Hh eq_refl) as (Hls & Hcs & _).
    cbn [listener] in Hls, Hcs. exists true. split_and!; [|done|].
    + rewrite Hcs. apply list_lookup_insert_eq. by eapply lookup_lt_Some.
    + intros _. rewrite Hls, Set_delete_elem. by intros [_ ?].
Qed.

Lemma tracked_run_command (h : nat) l (spent : bool) st c :
  c ≠ Subscribe l → tracked h l spent st → tracked h l spent (run_command st c).
Proof.
  intros Hc Htr. destruct c as [l'|h'|x]; cbn [run_command].
  - destruct Htr as (u & Hh & Hs & Hu).
    destruct (subscribe_fields l' st) as (_ & Hls & Hcs & _).
    exists u. split_and!; [|done|].
    + rewrite Hcs. by apply lookup_app_l_Some.
    + intros Hu' Hin. rewrite Hls in Hin.
      apply (Set_add_other l') in Hin; [by apply Hu|congruence].
  - destruct (decide (h' = h)) as [->|Hne].
    { eapply tracked_weaken, tracked_unsubscribe, Htr. }
    destruct Htr as (u & Hh & Hs & Hu).
    destruct (closures st !! h') as [cl|] eqn:Hh'.
    + destruct (unsubscribed cl) eqn:Hcl.
      * rewrite unsubscribe_spent; [by exists u|].
        intros cl'. rewrite Hh'. by intros [= <-].
      * destruct (unsubscribe_live h' st cl Hh' Hcl) as (Hls & Hcs & _).
        exists u. split_and!; [|done|].
        -- by rewrite Hcs, list_lookup_insert_ne.
        -- intros Hu'. rewrite Hls, Set_delete_elem. intros [Hin _]. by apply Hu.
    + rewrite unsubscribe_spent; [by exists u|]. intros cl'. by rewrite Hh'.
  - destruct Htr as (u & Hh & Hs & Hu).
    destruct (notify_fields x st) as (_ & Hls & Hcs & _).
    exists u. by rewrite Hls, Hcs.
Qed.

Lemma tracked_run_commands (h : nat) l (spent : bool) st (cs : list (command T)) :
  Subscribe l ∉ cs → tracked h l spent st → tracked h l spent (foldl run_command st cs).
Proof.
  revert st. induction cs as [|c cs IH]; intros st Hcs Htr; [done|]. cbn [foldl].
  apply not_elem_of_cons in Hcs as [Hc Hcs].
  apply IH; [done|]. apply tracked_run_command; [congruence|done].
Qed.

Lemma tracked_try_call (h : nat) l (spent : bool) fn v st :
  Subscribe l ∉ commands (body fn v) →
  tracked h l spent st → tracked h l spent (try_call body fn v st).
Proof.
  intros Hcs Htr. unfold try_call, invoke.
  destruct (throws (body fn v)); [apply tracked_log|];
    by apply tracked_run_commands, tracked_log.
Qed.

Lemma tracked_try_call_unsubscribe (h : nat) l (spent : bool) fn v st :
  Subscribe l ∉ commands (body fn v) → Unsubscribe h ∈ commands (body fn v) →
  tracked h l spent st → tracked h l true (try_call body fn v st).
Proof.
  intros Hcs Hun Htr. unfold try_call, invoke.
  apply list_elem_of_split in Hun as (c1 & c2 & Heq). rewrite Heq in Hcs |- *.
  apply not_elem_of_app in Hcs as [Hc1 Hc2].
  apply not_elem_of_cons in Hc2 as [_ Hc2].
  assert (tracked h l true
            (foldl run_command (log (Called fn v) st) (c1 ++ Unsubscribe h :: c2))) as H.
  { rewrite foldl_app. cbn [foldl]. apply tracked_run_commands; [done|].
    cbn [run_command]. eapply tracked_unsubscribe.
    by apply tracked_run_commands, tracked_log. }
  destruct (throws (body fn v)); [by apply tracked_log|done].
Qed.

Lemma tracked_loop (h : nat) l (spent : bool) v st (snapshot : list Listener) :
  (∀ fn, fn ∈ snapshot → Subscribe l ∉ commands (body fn v)) →
  tracked h l spent st →
  tracked h l spent (foldl (λ st fn, try_call body fn v st) st snapshot).
Proof.
  revert st. induction snapshot as [|fn snapshot IH]; intros st Hsn Htr; [done|].
  cbn [foldl]. apply IH; [intros fn' Hfn'; apply Hsn; by right|].
  apply tracked_try_call; [apply Hsn; left|done].
Qed.

(** X18. A listener whose unsubscribe function is called while a flush
    runs, by itself or by another listener, is still called in that flush,
    since the flush iterates over the registry as it was when it began; it
    is out of the registry when the flush ends, provided no listener of the
    flush subscribes it again. *)
Theorem unsubscribe_during_flush st (q : list task) (l l0 : Listener) (h : nat) :
  microtasks st = Flush :: q → hasQueuedValue st = true →
  l ∈ listeners st → closures st !! h = Some (Closure l false) →
  l0 ∈ listeners st → Unsubscribe h ∈ commands (body l0 (lastValue st)) →
  (∀ fn, fn ∈ listeners st → Subscribe l ∉ commands (body fn (lastValue st))) →
  let st' := run_microtask body st in
  ((l, lastValue st) ∈ calls (trace st')) ∧
  (l ∉ listeners st') ∧
  closures st' !! h = Some (Closure l true).
Proof.
  intros Hq Hhq Hl Hh Hl0 Hun Hsub st'. split.
  - unfold st', calls. rewrite (run_microtask_proj body _ st q eq_refl eq_refl Hq Hhq).
    apply elem_of_app. right. fold (calls (listeners st ≫= λ fn, delivery body fn (lastValue st))).
    rewrite calls_delivery. by apply (list_elem_of_fmap_2 (λ l, (l, lastValue st))).
  - assert (tracked h l true st') as (u & Hh' & Hs & Hu).
    { unfold st'. rewrite (run_microtask_pending body st q Hq Hhq).
      set (st0 := set_hasQueuedValue false _).
      assert (tracked h l false st0) as H0.
      { exists false. by destruct st. }
      clearbody st0.
      apply list_elem_of_split in Hl0 as (pre & post & Heq). rewrite Heq in Hsub |- *.
      rewrite foldl_app. cbn [foldl]. apply tracked_loop.
      { intros fn Hfn. apply Hsub, elem_of_app. right. by right. }
      apply (tracked_try_call_unsubscribe h l false); [|done|].
      { apply Hsub, elem_of_app. right. left. }
      apply tracked_loop; [|done].
      intros fn Hfn. apply Hsub, elem_of_app. by left. }
    rewrite (Hs eq_refl) in Hh', Hu. split; [by apply Hu|done].
Qed.

(** *** Subscribing while a flush runs *)

Lemma run_commands_listeners_grow st (cs : list (command T)) l :
  (∀ h, Unsubscribe h ∉ cs) → l ∈ listeners st → l ∈ listeners (foldl run_command st cs).
Proof.
  revert st. induction cs as [|c cs IH]; intros st Hcs Hl; [done|]. cbn [foldl].
  apply IH; [intros h Hh; apply (Hcs h); by right|].
  destruct c as [l'|h|x]; cbn [run_command].
  - destruct (subscribe_fields l' st) as (_ & -> & _). by apply Set_add_mono.
  - destruct (Hcs h). left.
  - by destruct (notify_fields x st) as (_ & -> & _).
Qed.

Lemma try_call_listeners_grow fn v st l :
  (∀ h, Unsubscribe h ∉ commands (body fn v)) →
  l ∈ listeners st → l ∈ listeners (try_call body fn v st).
Proof.
  intros Hcs Hl. unfold try_call, invoke.
  assert (l ∈ listeners (foldl run_command (log (Called fn v) st) (commands (body fn v))))
    as H by (apply run_commands_listeners_grow; [done|by destruct st]).
  destruct (throws (body fn v)); [|done]. by destruct (foldl _ _ _).
Qed.

Lemma try_call_subscribes fn v st l :
  (∀ h, Unsubscribe h ∉ commands (body fn v)) → Subscribe l ∈ commands (body fn v) →
  l ∈ listeners (try_call body fn v st).
Proof.
  intros Hun Hsub. unfold try_call, invoke.
  assert (l ∈ listeners (foldl run_command (log (Called fn v) st) (commands (body fn v))))
    as H.
  { apply list_elem_of_split in Hsub as (c1 & c2 & Hcs). rewrite Hcs in Hun |- *.
    rewrite foldl_app. cbn [foldl]. apply run_commands_listeners_grow.
    { intros h Hh. apply (Hun h), elem_of_app. right. by right. }
    cbn [run_command].
    destruct (subscribe_fields l (foldl run_command (log (Called fn v) st) c1))
      as (_ & -> & _). apply Set_add_elem. }
  destruct (throws (body fn v)); [|done]. by destruct (foldl _ _ _).
Qed.

Lemma loop_listeners_grow v st (snapshot : list Listener) l :
  (∀ fn h, fn ∈ snapshot → Unsubscribe h ∉ commands (body fn v)) →
  l ∈ listeners st → l ∈ listeners (foldl (λ st fn, try_call body fn v st) st snapshot).
Proof.
  revert st. induction snapshot as [|fn snapshot IH]; intros st Hsn Hl; [done|].
  cbn [foldl]. apply IH; [intros fn' h Hfn'; apply Hsn; by right|].
  apply try_call_listeners_grow; [intros h; apply Hsn; left|done].
Qed.

(** X19. A listener that is subscribed while a flush runs is not called
    in that flush, which calls the listeners registered when it began and
    no other; it is registered when the flush ends, provided no listener
    of the flush calls an unsubscribe function. *)
Theorem subscribe_during_flush st (q : list task) (l l0 : Listener) :
  microtasks st = Flush :: q → hasQueuedValue st = true →
  l ∉ listeners st → l0 ∈ listeners st →
  Subscribe l ∈ commands (body l0 (lastValue st)) →
  (∀ fn h, fn ∈ listeners st → Unsubscribe h ∉ commands (body fn (lastValue st))) →
  let v := lastValue st in
  let st' := run_microtask body st in
  calls (trace st') = calls (trace st) ++ ((λ fn, (fn, v)) <$> listeners st) ∧
  ((l, v) ∉ (λ fn, (fn, v)) <$> listeners st) ∧
  l ∈ listeners st'.
Proof.
  intros Hq Hhq Hl Hl0 Hsub Hun v st'. split_and!.
  - unfold st', calls. rewrite (run_microtask_proj body _ st q eq_refl eq_refl Hq Hhq).
    f_equal. apply calls_delivery.
  - intros (fn & [= <-] & Hfn)%list_elem_of_fmap. done.
  - unfold st'. rewrite (run_microtask_pending body st q Hq Hhq).
    set (st0 := set_hasQueuedValue false _). clearbody st0.
    apply list_elem_of_split in Hl0 as (pre & post & Heq). rewrite Heq in Hun |- *.
    rewrite foldl_app. cbn [foldl]. apply loop_listeners_grow.
    { intros fn h Hfn. apply Hun, elem_of_app. right. by right. }
    apply try_call_subscribes; [|done].
    intros h. apply Hun, elem_of_app. right. left.
Qed.

(** *** Notifying while a flush runs *)

Lemma renotified_app st st1 (xs ys : list T) :
  schedule st1 = renotified st xs → renotified st1 ys = renotified st (xs ++ ys).
Proof.
  unfold renotified. rewrite last_app. destruct (last ys) as [y|]; [|done].
  destruct (last xs) as [x|]; unfold schedule; by intros [= -> _ -> _].
Qed.

Lemma run_command_schedule st c :
  schedule (run_command st c) = renotified st (notified [c]).
Proof.
  destruct c as [l|h|x]; cbn [notified omap]; unfold renotified; cbn [last].
  - by apply run_command_quiet.
  - by apply run_command_quiet.
  - cbn [run_command]. unfold schedule.
    by destruct (notify_fields x st) as (_ & _ & _ & -> & -> & -> & ->).
Qed.

Lemma run_commands_schedule st (cs : list (command T)) :
  schedule (foldl run_command st cs) = renotified st (notified cs).
Proof.
  revert st. induction cs as [|c cs IH]; intros st; [done|]. cbn [foldl].
  rewrite IH. change (c :: cs) with ([c] ++ cs). unfold notified at 2.
  rewrite omap_app. apply renotified_app, run_command_schedule.
Qed.

Lemma try_call_schedule fn v st :
  schedule (try_call body fn v st) = renotified st (notified (commands (body fn v))).
Proof.
  unfold try_call, invoke.
  assert (schedule (foldl run_command (log (Called fn v) st) (commands (body fn v))) =
          renotified st (notified (commands (body fn v)))) as H.
  { rewrite run_commands_schedule. by destruct st. }
  destruct (throws (body fn v)); [|done]. rewrite <- H. by destruct (foldl _ _ _).
Qed.

Lemma loop_schedule v st (snapshot : list Listener) :
  schedule (foldl (λ st fn, try_call body fn v st) st snapshot) =
  renotified st (snapshot ≫= λ fn, notified (commands (body fn v))).
Proof.
  revert st. induction snapshot as [|fn snapshot IH]; intros st; [done|].
  cbn [foldl]. rewrite IH, bind_cons. apply renotified_app, try_call_schedule.
Qed.

(** X20. A [notify] made by a listener while a flush runs is not
    delivered in that flush: every listener is still called once with the
    value the flush began with.  If no listener of the flush notifies,
    nothing is scheduled when it ends; otherwise exactly one further flush
    is queued behind what the queue holds, for the value notified last. *)
Theorem flush_schedule st (q : list task) :
  microtasks st = Flush :: q → hasQueuedValue st = true →
  let v := lastValue st in
  let st' := run_microtask body st in
  calls (trace st') = calls (trace st) ++ ((λ l, (l, v)) <$> listeners st) ∧
  schedule st' =
    match last (listeners st ≫= λ fn, notified (commands (body fn v))) with
    | None => (false, false, q, v)
    | Some x => (true, true, q ++ [Flush], x)
    end.
Proof.
  intros Hq Hhq v st'. split.
  - unfold st', calls. rewrite (run_microtask_proj body _ st q eq_refl eq_refl Hq Hhq).
    f_equal. apply calls_delivery.
  - unfold st'. rewrite (run_microtask_pending body st q Hq Hhq), loop_schedule.
    unfold renotified. by destruct st.
Qed.

(** *** The hooks and the listener count *)

Lemma live_insert (cs : list closure) (h : nat) (cl : closure) :
  cs !! h = Some cl → unsubscribed cl = false →
  S (List.length (live (<[h := Closure (listener cl) true]> cs))) = List.length (live cs).
Proof.
  revert h. induction cs as [|x cs IH]; intros h Hh Hu; [done|].
  destruct h as [|h]; cbn in Hh |- *.
  - injection Hh as ->. by rewrite Hu.
  - specialize (IH h Hh Hu). unfold live in IH.
    destruct (unsubscribed x); cbn; by rewrite <- IH.
Qed.

Lemma live_length (cs : list closure) : List.length (live cs) ≤ List.length cs.
Proof.
  induction cs as [|x cs IH]; [done|]. cbn. unfold live in IH.
  destruct (unsubscribed x); cbn; lia.
Qed.

Lemma live_elem l (cs : list closure) :
  (∃ h, cs !! h = Some (Closure l false)) → l ∈ live cs.
Proof.
  intros [h Hh]. apply list_elem_of_omap. exists (Closure l false).
  split; [by eapply list_elem_of_lookup_2|done].
Qed.

Lemma accounted_log (e : event T E) st :
  e ≠ OnSubscribe → e ≠ OnUnsubscribe → accounted st → accounted (log e st).
Proof.
  intros H1 H2 [Hs Hu]. unfold accounted, subscribes, unsubscribes in *.
  destruct st as [ls pf hq lv cs q tr]. cbn in *. rewrite !omap_app.
  destruct e; cbn; rewrite ?app_nil_r; done.
Qed.

Lemma accounted_run_command st c : accounted st → accounted (run_command st c).
Proof.
  intros [Hs Hu]. unfold accounted, subscribes, unsubscribes in *.
  destruct c as [l|h|x]; cbn [run_command].
  - destruct (subscribe_fields l st) as (-> & _ & -> & _).
    unfold live in *. rewrite !omap_app, !length_app. cbn. lia.
  - destruct (closures st !! h) as [cl|] eqn:Hh.
    + destruct (unsubscribed cl) eqn:Hcl.
      * rewrite unsubscribe_spent; [done|]. intros cl'. rewrite Hh. by intros [= <-].
      * destruct (unsubscribe_live h st cl Hh Hcl) as (_ & -> & ->).
        pose proof (live_insert _ _ _ Hh Hcl) as Hlive.
        rewrite !omap_app, !length_app, length_insert.
        case_bool_decide; cbn; lia.
    + rewrite unsubscribe_spent; [done|]. intros cl'. by rewrite Hh.
  - by destruct (notify_fields x st) as (-> & _ & -> & _).
Qed.

Lemma accounted_loop v st (snapshot : list Listener) :
  accounted st → accounted (foldl (λ st fn, try_call body fn v st) st snapshot).
Proof.
  revert st. induction snapshot as [|fn snapshot IH]; intros st Hst; [done|].
  cbn [foldl]. apply IH. unfold try_call, invoke.
  assert (accounted (foldl run_command (log (Called fn v) st) (commands (body fn v)))) as H.
  { generalize (commands (body fn v)). intros cs.
    assert (accounted (log (Called fn v) st)) as H0 by (by apply accounted_log).
    revert H0. generalize (log (Called fn v) st). clear.
    induction cs as [|c cs IHcs]; intros s Hs; [done|]. cbn [foldl].
    by apply IHcs, accounted_run_command. }
  destruct (throws (body fn v)); [by apply accounted_log|done].
Qed.

Lemma accounted_run_microtask st :
  consistent st → accounted st → accounted (run_microtask body st).
Proof.
  intros [Hq _] Hst. unfold run_microtask. rewrite Hq.
  destruct (pendingFlush st); [|done].
  set (st0 := set_microtasks (λ _, []) st).
  assert (accounted st0) as H0 by (by destruct st).
  destruct (hasQueuedValue st0) eqn:Hhq.
  - rewrite (flush_pending body st0 Hhq). apply accounted_loop. by destruct st0.
  - rewrite (flush_idle body st0 Hhq). by destruct st0.
Qed.

(** X21. What a subclass can tell from its hooks.  In every state an
    instance can be in, [onSubscribe] has fired once for each unsubscribe
    function handed out, and the number of registered listeners is at most
    the number of [onSubscribe] calls minus the number of [onUnsubscribe]
    calls: the hooks never undercount the listeners. *)
Theorem hooks_bound_listeners st :
  reachable body st →
  subscribes (trace st) = List.length (closures st) ∧
  listenerCount st + unsubscribes (trace st) ≤ subscribes (trace st) ∧
  (hasListeners st = true → unsubscribes (trace st) < subscribes (trace st)).
Proof.
  intros Hr.
  assert (accounted st ∧ settled st) as [[Hs Hu] ([_ Hnd] & _ & Hlive)].
  { induction Hr as [undef|l st _ IH|h st _ IH|v st _ IH|st _ IH].
    - split; [by split|]. split_and!; [apply new_consistent|done|].
      by intros l Hl%elem_of_nil.
    - destruct IH. split; [by apply (accounted_run_command _ (Subscribe l))|].
      by apply subscribe_settled.
    - destruct IH. split; [by apply (accounted_run_command _ (Unsubscribe h))|].
      by apply unsubscribe_settled.
    - destruct IH. split; [by apply (accounted_run_command _ (Notify v))|].
      by apply notify_settled.
    - destruct IH as [Ha Hse]. split; [|by apply run_microtask_settled].
      apply accounted_run_microtask; [apply Hse|done]. }
  assert (listenerCount st ≤ List.length (live (closures st))) as Hcount.
  { unfold listenerCount. apply submseteq_length, NoDup_submseteq; [done|].
    intros l Hl. by apply live_elem, Hlive. }
  split_and!; [done|lia|].
  unfold hasListeners. intros Hpos%bool_decide_eq_true.
  fold (listenerCount st) in Hpos. lia.
Qed.

End extras.

Lemma subscribe_unsubscribe_witness :
  (4 ∉ listeners three) ∧
  let st1 := (subscribe 4 three).2 in
  let st2 := unsubscribe (subscribe 4 three).1 st1 in
  listeners st1 = listeners three ++ [4] ∧
  listenerCount st1 = S (listenerCount three) ∧ hasListeners st1 = true ∧
  listeners st2 = listeners three ∧ listenerCount st2 = listenerCount three ∧
  hasListeners st2 = hasListeners three ∧
  schedule st2 = schedule three ∧
  trace st2 = trace three ++ [OnSubscribe; OnUnsubscribe].
Proof.
  assert (4 ∉ listeners three) as H by (apply (bool_decide_unpack _); by vm_compute).
  split; [exact H|]. exact (subscribe_unsubscribe three 4 H).
Defined.

Lemma reachable_settled_witness :
  let st := notify 7 (run_microtask sample_body (notify 42 three)) in
  reachable sample_body st ∧
  settled st ∧
  (∀ q, microtasks st = Flush :: q →
        q = [] ∧ pendingFlush st = true ∧ hasQueuedValue st = true) ∧
  (pendingFlush st = false → run_microtask sample_body st = st).
Proof.
  intros st.
  assert (reachable sample_body st) as H.
  { apply reachable_notify, reachable_microtask, reachable_notify.
    apply reachable_subscribe, reachable_subscribe, reachable_subscribe.
    apply reachable_new. }
  split; [exact H|]. exact (reachable_settled sample_body st H).
Defined.

Lemma ticks_in_order_witness :
  consistent three ∧ pendingFlush three = false ∧
  (∀ l v, l ∈ listeners three → commands (recorders l v) = []) ∧
  let st' := foldl (λ s v, run_microtask recorders (notify v s)) three [10; 20] in
  calls (trace st') =
    calls (trace three) ++ ([10; 20] ≫= λ v, (λ l, (l, v)) <$> listeners three) ∧
  listeners st' = listeners three ∧ pendingFlush st' = false ∧ microtasks st' = [].
Proof.
  assert (∀ l v, l ∈ listeners three → commands (recorders l v) = []) as H
    by reflexivity.
  split; [exact three_consistent|]. split; [reflexivity|]. split; [exact H|].
  exact (ticks_in_order recorders three [10; 20] three_consistent eq_refl H).
Defined.

Lemma unsubscribe_during_flush_witness :
  let st := notify 5 three in
  microtasks st = Flush :: [] ∧ hasQueuedValue st = true ∧
  2 ∈ listeners st ∧ closures st !! 0 = Some (Closure 2 false) ∧
  Unsubscribe 0 ∈ commands (sample_body 2 (lastValue st)) ∧
  (∀ fn, fn ∈ listeners st → Subscribe 2 ∉ commands (sample_body fn (lastValue st))) ∧
  let st' := run_microtask sample_body st in
  ((2, lastValue st) ∈ calls (trace st')) ∧
  (2 ∉ listeners st') ∧
  closures st' !! 0 = Some (Closure 2 true).
Proof.
  intros st.
  assert (2 ∈ listeners st) as Hl by (apply (bool_decide_unpack _); by vm_compute).
  assert (Unsubscribe 0 ∈ commands (sample_body 2 (lastValue st))) as Hun by left.
  assert (∀ fn, fn ∈ listeners st →
                Subscribe 2 ∉ commands (sample_body fn (lastValue st))) as Hsub.
  { intros fn Hfn. apply list_elem_of_In in Hfn. simpl in Hfn.
    destruct Hfn as [<-|[<-|[<-|[]]]]; intros Hin; apply list_elem_of_In in Hin;
      simpl in Hin; intuition discriminate. }
  split; [reflexivity|]. split; [reflexivity|]. split; [exact Hl|].
  split; [reflexivity|]. split; [exact Hun|]. split; [exact Hsub|].
  exact (unsubscribe_during_flush sample_body st [] 2 2 0 eq_refl eq_refl Hl eq_refl
           Hl Hun Hsub).
Defined.

Lemma subscribe_during_flush_witness :
  let st := notify 5 three in
  microtasks st = Flush :: [] ∧ hasQueuedValue st = true ∧
  (9 ∉ listeners st) ∧ 2 ∈ listeners st ∧
  Subscribe 9 ∈ commands (self_subscribing 2 (lastValue st)) ∧
  (∀ fn h, fn ∈ listeners st →
           Unsubscribe h ∉ commands (self_subscribing fn (lastValue st))) ∧
  let st' := run_microtask self_subscribing st in
  listeners st' = [2; 1; 3; 9] ∧
  calls (trace st') = calls (trace st) ++ ((λ fn, (fn, 5)) <$> listeners st) ∧
  ((9, 5) ∉ (λ fn, (fn, 5)) <$> listeners st) ∧
  9 ∈ listeners st'.
Proof.
  intros st.
  assert (9 ∉ listeners st) as Hl by (apply (bool_decide_unpack _); by vm_compute).
  assert (2 ∈ listeners st) as Hl0 by (apply (bool_decide_unpack _); by vm_compute).
  assert (Subscribe 9 ∈ commands (self_subscribing 2 (lastValue st))) as Hsub by left.
  assert (∀ fn h, fn ∈ listeners st →
                  Unsubscribe h ∉ commands (self_subscribing fn (lastValue st))) as Hun.
  { intros fn h Hfn. apply list_elem_of_In in Hfn. simpl in Hfn.
    destruct Hfn as [<-|[<-|[<-|[]]]]; intros Hin; apply list_elem_of_In in Hin;
      simpl in Hin; intuition discriminate. }
  split; [reflexivity|]. split; [reflexivity|]. split; [exact Hl|].
  split; [exact Hl0|]. split; [exact Hsub|]. split; [exact Hun|].
  split; [reflexivity|].
  exact (subscribe_during_flush self_subscribing st [] 9 2 eq_refl eq_refl Hl Hl0 Hsub Hun).
Defined.

Lemma hooks_bound_listeners_witness :
  reachable sample_body (unsubscribe 1 twice) ∧
  listenerCount (unsubscribe 1 twice) = 0 ∧
  unsubscribes (trace (unsubscribe 1 twice)) = 1 ∧
  subscribes (trace (unsubscribe 1 twice)) = 2 ∧
  subscribes (trace (unsubscribe 1 twice)) = List.length (closures (unsubscribe 1 twice)) ∧
  listenerCount (unsubscribe 1 twice) + unsubscribes (trace (unsubscribe 1 twice))
    ≤ subscribes (trace (unsubscribe 1 twice)) ∧
  (hasListeners (unsubscribe 1 twice) = true →
   unsubscribes (trace (unsubscribe 1 twice)) < subscribes (trace (unsubscribe 1 twice))).
Proof.
  assert (reachable sample_body (unsubscribe 1 twice)) as H.
  { apply reachable_unsubscribe, reachable_unsubscribe.
    apply reachable_subscribe, reachable_subscribe, reachable_new. }
  split; [exact H|]. split; [reflexivity|]. split; [reflexivity|].
  split; [reflexivity|]. exact (hooks_bound_listeners sample_body _ H).
Defined.

Lemma flush_schedule_witness :
  let st := notify 1 (subscribe 5 (subscribe 0 fresh).2).2 in
  microtasks st = Flush :: [] ∧ hasQueuedValue st = true ∧
  let st' := run_microtask echoing st in
  calls (trace st') = [(0, 1); (5, 1)] ∧ schedule st' = (true, true, [Flush], 2) ∧
  calls (trace st') = calls (trace st) ++ ((λ l, (l, 1)) <$> listeners st) ∧
  schedule st' =
    match last (listeners st ≫= λ fn, notified (commands (echoing fn 1))) with
    | None => (false, false, [], 1)
    | Some x => (true, true, [] ++ [Flush], x)
    end.
Proof.
  intros st. split; [reflexivity|]. split; [reflexivity|].
  split; [reflexivity|]. split; [reflexivity|].
  exact (flush_schedule echoing st [] eq_refl eq_refl).
Defined.

End SubscribableExtras.
